(** Verification of the wireframe editor's scene reconciler
    ([src/wireframes/renderer/editor.tsx]) and of the [ui] reducer
    ([src/wireframes/model/actions/ui.ts]).

    The TypeScript code is embedded shallowly: the diagram is an immutable
    value, the editor component together with the svg scene, the [ShapeRef]
    objects and the renderers forms one explicit state that a small
    state-and-exception monad threads through the methods. *)

From stdpp Require Import gmap strings list fin_maps.

(** * The diagram model *)

(** Modelled from the spec: the classes [DiagramShape], [DiagramGroup],
    [DiagramItem] and [Diagram] of [@app/wireframes/model] (section 3), of
    which the editor reads [id], [renderer], [childIds], [items] and
    [rootIds].

    A [DiagramShape] is an immutable JS object.  [shape_obj] is the identity
    of the object: [a !== b] holds exactly when the two identities differ.
    [shape_id] is the model id ([item.id]) and [shape_renderer] the key of
    the renderer ([shape.renderer]); the appearance is opaque to the editor. *)
Record DiagramShape := {
  shape_obj : nat;
  shape_id : string;
  shape_renderer : string;
  shape_appearance : list (string * string)
}.

(** Modelled from the spec: a group carries the ordered ids of its
    children. *)
Record DiagramGroup := {
  group_id : string;
  childIds : list string
}.

(** Modelled from the spec: an item is a shape or a group, told apart by
    [item instanceof DiagramShape] and [item instanceof DiagramGroup]. *)
Inductive DiagramItem :=
| ItemShape (shape : DiagramShape)
| ItemGroup (group : DiagramGroup).

(** Modelled from the spec: [diagram.items.get(id)] is the lookup in [items]
    and [diagram.rootIds] the ordered root list. *)
Record Diagram := {
  items : gmap string DiagramItem;
  rootIds : list string
}.

(** [a === b] on shapes. *)
Definition same_object (a b : DiagramShape) : bool :=
  bool_decide (shape_obj a = shape_obj b).

(** * Flattening: [Editor.getFlattenShapes] *)

(** The body of the arrow function given to [itemIds.forEach].  The array
    [flattenShapes] that the closure pushes to is threaded as an accumulator;
    [recurse] is the recursive call [handleContainer(item.childIds)].  [None]
    is the exhausted call stack. *)
Definition visitItem
    (recurse : list string → list DiagramShape → option (list DiagramShape))
    (items : gmap string DiagramItem)
    (flattenShapes : option (list DiagramShape)) (itemId : string)
    : option (list DiagramShape) :=
  match flattenShapes with
  | None => None
  | Some acc =>
      match items !! itemId with
      | Some (ItemShape item) => Some (acc ++ [item])
      | Some (ItemGroup item) => recurse (childIds item) acc
      | None => Some acc
      end
  end.

(** [fuel] bounds the depth of nested [handleContainer] calls. *)
Fixpoint handleContainer (fuel : nat) (items : gmap string DiagramItem)
    (itemIds : list string) (flattenShapes : list DiagramShape)
    : option (list DiagramShape) :=
  match fuel with
  | O => None
  | S fuel' =>
      foldl (visitItem (handleContainer fuel' items) items)
            (Some flattenShapes) itemIds
  end.

Definition getFlattenShapes (fuel : nat) (selectedDiagram : option Diagram)
    : option (list DiagramShape) :=
  match selectedDiagram with
  | Some diagram => handleContainer fuel (items diagram) (rootIds diagram) []
  | None => Some []
  end.

(** The traversal order in the words of the specification: depth first,
    in list order, shapes appended, groups expanded in place, unresolved ids
    skipped. *)
Inductive preorder (items : gmap string DiagramItem)
    : list string → list DiagramShape → Prop :=
| preorder_nil :
    preorder items [] []
| preorder_shape id s ids out :
    items !! id = Some (ItemShape s) →
    preorder items ids out →
    preorder items (id :: ids) (s :: out)
| preorder_group id g ids sub out :
    items !! id = Some (ItemGroup g) →
    preorder items (childIds g) sub →
    preorder items ids out →
    preorder items (id :: ids) (sub ++ out)
| preorder_skip id ids out :
    items !! id = None →
    preorder items ids out →
    preorder items (id :: ids) out.

(** A diagram is a forest when some rank strictly decreases from every group
    to each of its children. *)
Definition ranked (items : gmap string DiagramItem) (rank : string → nat) : Prop :=
  ∀ gid g c, items !! gid = Some (ItemGroup g) → c ∈ childIds g → rank c < rank gid.

(** Replace the child list of a group. *)
Definition withChildIds (g : DiagramGroup) (ids : list string) : DiagramGroup :=
  {| group_id := group_id g; childIds := ids |}.

Definition withRootIds (d : Diagram) (ids : list string) : Diagram :=
  {| items := items d; rootIds := ids |}.

(** * The [ui] reducer *)

Module UI.
Section Reducer.
(** JS numbers are passed through untouched by the reducer. *)
Variable number : Type.

(** Modelled from the spec: [UIState] of [@app/wireframes/model], with the
    four fields the reducer names.  The spread [{...state, f: v}] copies
    every field and then writes [f]. *)
Record UIState := {
  zoom : number;
  selectedTab : string;
  showLeftSidebar : bool;
  showRightSidebar : bool
}.

(** A dispatched action: its [type] and the payload fields the reducer
    reads. *)
Record Action := {
  type : string;
  zoomLevel : number;
  tab : string
}.

Definition SET_ZOOM : string := "SET_ZOOM".
Definition SELECT_TAB : string := "SELECT_TAB".
Definition TOGGLE_LEFT_SIDEBAR : string := "TOGGLE_LEFT_SIDEBAR".
Definition TOGGlE_RIGHT_SIDEBAR : string := "TOGGle_RIGHT_SIDEBAR".

(** [ui(initialState)]: the reducer, with [state = initialState] when the
    store passes [undefined]. *)
Definition ui (initialState : UIState) (state : option UIState) (action : Action)
    : UIState :=
  let state := default initialState state in
  if String.eqb (type action) SET_ZOOM then
    {| zoom := zoomLevel action;
       selectedTab := selectedTab state;
       showLeftSidebar := showLeftSidebar state;
       showRightSidebar := showRightSidebar state |}
  else if String.eqb (type action) SELECT_TAB then
    {| zoom := zoom state;
       selectedTab := tab action;
       showLeftSidebar := showLeftSidebar state;
       showRightSidebar := showRightSidebar state |}
  else if String.eqb (type action) TOGGLE_LEFT_SIDEBAR then
    {| zoom := zoom state;
       selectedTab := selectedTab state;
       showLeftSidebar := negb (showLeftSidebar state);
       showRightSidebar := showRightSidebar state |}
  else if String.eqb (type action) TOGGlE_RIGHT_SIDEBAR then
    {| zoom := zoom state;
       selectedTab := selectedTab state;
       showLeftSidebar := showLeftSidebar state;
       showRightSidebar := negb (showRightSidebar state) |}
  else state.
End Reducer.

Arguments zoom {number} _.
Arguments selectedTab {number} _.
Arguments showLeftSidebar {number} _.
Arguments showRightSidebar {number} _.
Arguments type {number} _.
Arguments zoomLevel {number} _.
Arguments tab {number} _.
Arguments ui {number} _ _ _.
End UI.

(** * Object literals used as tables *)

(** [shapeRefsById] and [allShapesById] start as the object literal [{}] and
    are indexed by model ids.  Such an object has [Object.prototype] as its
    prototype, and these are the names of the properties it inherits from
    there; none of them is enumerable. *)
Definition Object_prototype : list string :=
  ["constructor"; "hasOwnProperty"; "isPrototypeOf"; "propertyIsEnumerable";
   "toLocaleString"; "toString"; "valueOf"; "__proto__";
   "__defineGetter__"; "__defineSetter__";
   "__lookupGetter__"; "__lookupSetter__"].

(** What a read [o[key]] finds: an own property, else a property of the
    prototype, else [undefined]. *)
Inductive Property (A : Type) :=
| Own (a : A)
| Inherited
| Undefined.
Arguments Own {A} a.
Arguments Inherited {A}.
Arguments Undefined {A}.

(** [o[key]], the own properties of [o] being given as a map. *)
Definition Object_get {A} (o : gmap string A) (key : string) : Property A :=
  match o !! key with
  | Some a => Own a
  | None => if bool_decide (key ∈ Object_prototype) then Inherited else Undefined
  end.

(** * The editor state *)

(** Scene elements, scene documents, [ShapeRef] objects and renderer objects
    are mutable JS objects; each is named by a handle.  An element's handle
    is also the value of its [id()]: svg.js numbers the elements it creates
    from a global counter. *)
Abbreviation Element := nat (only parsing).
Abbreviation Doc := nat (only parsing).
Abbreviation Loc := nat (only parsing).
Abbreviation Renderer := nat (only parsing).

(** The fields of a [ShapeRef].  [ref_renderer] is [None] when the
    constructor received [undefined] from a registry miss; [ref_shape] and
    [renderedElement] are [undefined] until the first [render]. *)
Record ShapeRef := {
  ref_doc : Doc;
  ref_renderer : option Renderer;
  showDebugMarkers : bool;
  ref_shape : option DiagramShape;
  renderedElement : option Element
}.

(** One invocation of [renderer.render(shape, showDebugMarkers)]. *)
Record RenderCall := {
  call_renderer : Renderer;
  call_shape : DiagramShape;
  call_debug : bool
}.

(** The editor component with everything it reaches.
    - [diagramDoc], [shapeRefsById], [shapeRefsByRenderElement]: the private
      fields of [Editor]; the two tables hold references to [ShapeRef]
      objects, which live in [heap] (address = index).
    - [scene]: the attached scene elements, each with its parent document,
      in document order (later entries paint on top).
    - [nextElement]: the id the next created element receives.
    - [contexts]: the document each renderer was last bound to.
    - [renderLog]: every [renderer.render] invocation so far. *)
Record Editor := {
  diagramDoc : option Doc;
  shapeRefsById : gmap string Loc;
  shapeRefsByRenderElement : gmap Element Loc;
  heap : list ShapeRef;
  scene : list (Element * Doc);
  nextElement : nat;
  contexts : gmap Renderer Doc;
  renderLog : list RenderCall
}.

(** Modelled from the spec: [rendererService.registeredRenderers] is the
    renderer registry of section 4.1, a pure lookup from a key to a renderer
    or to nothing; the class [RendererService] is not among the sources. *)
Record EditorProps := {
  rendererService : gmap string Renderer;
  selectedDiagram : option Diagram
}.

(** The state of a freshly constructed component. *)
Definition newEditor : Editor :=
  {| diagramDoc := None; shapeRefsById := ∅; shapeRefsByRenderElement := ∅;
     heap := []; scene := []; nextElement := 0; contexts := ∅; renderLog := [] |}.

Definition set_diagramDoc (v : option Doc) (st : Editor) : Editor :=
  {| diagramDoc := v; shapeRefsById := shapeRefsById st;
     shapeRefsByRenderElement := shapeRefsByRenderElement st; heap := heap st;
     scene := scene st; nextElement := nextElement st; contexts := contexts st;
     renderLog := renderLog st |}.

Definition set_shapeRefsById (v : gmap string Loc) (st : Editor) : Editor :=
  {| diagramDoc := diagramDoc st; shapeRefsById := v;
     shapeRefsByRenderElement := shapeRefsByRenderElement st; heap := heap st;
     scene := scene st; nextElement := nextElement st; contexts := contexts st;
     renderLog := renderLog st |}.

Definition set_shapeRefsByRenderElement (v : gmap Element Loc) (st : Editor) : Editor :=
  {| diagramDoc := diagramDoc st; shapeRefsById := shapeRefsById st;
     shapeRefsByRenderElement := v; heap := heap st;
     scene := scene st; nextElement := nextElement st; contexts := contexts st;
     renderLog := renderLog st |}.

Definition set_heap (v : list ShapeRef) (st : Editor) : Editor :=
  {| diagramDoc := diagramDoc st; shapeRefsById := shapeRefsById st;
     shapeRefsByRenderElement := shapeRefsByRenderElement st; heap := v;
     scene := scene st; nextElement := nextElement st; contexts := contexts st;
     renderLog := renderLog st |}.

Definition set_scene (v : list (Element * Doc)) (st : Editor) : Editor :=
  {| diagramDoc := diagramDoc st; shapeRefsById := shapeRefsById st;
     shapeRefsByRenderElement := shapeRefsByRenderElement st; heap := heap st;
     scene := v; nextElement := nextElement st; contexts := contexts st;
     renderLog := renderLog st |}.

Definition set_contexts (v : gmap Renderer Doc) (st : Editor) : Editor :=
  {| diagramDoc := diagramDoc st; shapeRefsById := shapeRefsById st;
     shapeRefsByRenderElement := shapeRefsByRenderElement st; heap := heap st;
     scene := scene st; nextElement := nextElement st; contexts := v;
     renderLog := renderLog st |}.

(** * A state monad with exceptions *)

Inductive exn := TypeError | RangeError.

Inductive result (A : Type) :=
| Return (a : A)
| Throw (e : exn).
Arguments Return {A} a.
Arguments Throw {A} e.

(** A computation runs on the editor state and either returns or throws; the
    state it leaves behind is kept in both cases. *)
Definition M (A : Type) : Type := Editor → result A * Editor.

Definition ret {A} (a : A) : M A := λ st, (Return a, st).

Definition throw {A} (e : exn) : M A := λ st, (Throw e, st).

Definition bind {A B} (m : M A) (k : A → M B) : M B :=
  λ st, match m st with
        | (Return a, st') => k a st'
        | (Throw e, st') => (Throw e, st')
        end.

Definition gets {A} (f : Editor → A) : M A := λ st, (Return (f st), st).

Definition modify (f : Editor → Editor) : M unit := λ st, (Return tt, f st).

Notation "'let*' x ':=' m 'in' k" := (bind m (λ x, k))
  (at level 10, x name, m at level 100, k at level 200).
Notation "m '>>' k" := (bind m (λ _, k))
  (at level 100, k at level 200, right associativity).

(** [for (let x of l) body(x)]: an exception leaves the loop. *)
Fixpoint forEach {A} (body : A → M unit) (l : list A) : M unit :=
  match l with
  | [] => ret tt
  | x :: l' => body x >> forEach body l'
  end.

(** * svg.js and the renderer plug-ins *)

(** [element.remove()]: takes the element out of its parent, if it has one. *)
Definition Element_remove (e : Element) : M unit :=
  modify (λ st, set_scene (filter (λ p, p.1 ≠ e) (scene st)) st).

(** [doc.add(element)]: [appendChild], which first takes the node out of its
    current parent and then makes it the last child of [doc]. *)
Definition Doc_add (doc : Doc) (e : Element) : M unit :=
  modify (λ st, set_scene (filter (λ p, p.1 ≠ e) (scene st) ++ [(e, doc)]) st).

(** Modelled from the spec: the [Renderer] capability of section 4.2, whose
    implementations are plug-ins outside the editor.  [setContext] binds the
    renderer to a scene document and has no other effect. *)
Definition Renderer_setContext (r : Renderer) (doc : Doc) : M unit :=
  modify (λ st, set_contexts (<[r := doc]> (contexts st)) st).

(** Modelled from the spec: [render(shape, showDebugMarkers)] of section 4.2
    produces a new scene element, with an id assigned at creation, inside the
    document the renderer is bound to, and touches no other element. *)
Definition Renderer_render (r : Renderer) (shape : DiagramShape) (dbg : bool)
    : M Element :=
  λ st,
    let e := nextElement st in
    let attached :=
      match contexts st !! r with
      | Some doc => [(e, doc)]
      | None => []
      end in
    (Return e,
     {| diagramDoc := diagramDoc st; shapeRefsById := shapeRefsById st;
        shapeRefsByRenderElement := shapeRefsByRenderElement st;
        heap := heap st; scene := scene st ++ attached;
        nextElement := S e; contexts := contexts st;
        renderLog := renderLog st ++
          [{| call_renderer := r; call_shape := shape; call_debug := dbg |}] |}).

(** * [ShapeRef] *)

(** Reading a field of the object at [this]; an [undefined] receiver throws. *)
Definition deref (this : Loc) : M ShapeRef :=
  λ st, match heap st !! this with
        | Some ref => (Return ref, st)
        | None => (Throw TypeError, st)
        end.

Definition set_renderedElement (e : Element) (ref : ShapeRef) : ShapeRef :=
  {| ref_doc := ref_doc ref; ref_renderer := ref_renderer ref;
     showDebugMarkers := showDebugMarkers ref; ref_shape := ref_shape ref;
     renderedElement := Some e |}.

Definition set_shape (shape : DiagramShape) (ref : ShapeRef) : ShapeRef :=
  {| ref_doc := ref_doc ref; ref_renderer := ref_renderer ref;
     showDebugMarkers := showDebugMarkers ref; ref_shape := Some shape;
     renderedElement := renderedElement ref |}.

(** Assignment to a field of the object at [this]. *)
Definition update (this : Loc) (f : ShapeRef → ShapeRef) : M unit :=
  let* ref := deref this in
  modify (λ st, set_heap (<[this := f ref]> (heap st)) st).

(** The object that [new ShapeRef(doc, renderer, showDebugMarkers)] builds. *)
Definition newShapeRef (doc : Doc) (renderer : option Renderer) (dbg : bool)
    : ShapeRef :=
  {| ref_doc := doc; ref_renderer := renderer; showDebugMarkers := dbg;
     ref_shape := None; renderedElement := None |}.

(** [new ShapeRef(doc, renderer, showDebugMarkers)]: the object is allocated
    at the next free address. *)
Definition ShapeRef_new (doc : Doc) (renderer : option Renderer) (dbg : bool)
    : M Loc :=
  λ st,
    (Return (length (heap st)),
     set_heap (heap st ++ [newShapeRef doc renderer dbg]) st).

(** [get renderId()]: [this.renderedElement.id()] *)
Definition ShapeRef_renderId (this : Loc) : M Element :=
  let* ref := deref this in
  match renderedElement ref with
  | Some e => ret e
  | None => throw TypeError
  end.

(** [remove()] *)
Definition ShapeRef_remove (this : Loc) : M unit :=
  let* ref := deref this in
  match renderedElement ref with
  | Some e => Element_remove e
  | None => ret tt
  end.

(** [this.shape !== shape || !this.renderedElement] *)
Definition mustRender (ref : ShapeRef) (shape : DiagramShape) : bool :=
  match ref_shape ref with
  | Some last => negb (same_object last shape)
  | None => true
  end
  || match renderedElement ref with
     | Some _ => false
     | None => true
     end.

(** [render(shape)] *)
Definition ShapeRef_render (this : Loc) (shape : DiagramShape) : M unit :=
  let* ref := deref this in
  (if mustRender ref shape then
     match ref_renderer ref with
     | Some renderer =>
         Renderer_setContext renderer (ref_doc ref) >>
         let* e := Renderer_render renderer shape (showDebugMarkers ref) in
         update this (set_renderedElement e)
     | None => throw TypeError
     end
   else
     match renderedElement ref with
     | Some e => Doc_add (ref_doc ref) e
     | None => throw TypeError
     end) >>
  update this (set_shape shape).

(** * [Editor] *)

Section Reconciler.
(** [process.env.NODE_ENV === 'production'] *)
Variable isProduction : bool.
Variable props : EditorProps.

(** [allShapes.forEach(item => allShapesById[item.id] = true)]: the own
    properties of [allShapesById].  (Under the name [__proto__] the
    assignment of [true] stores nothing; a read of that name is truthy all
    the same, see [pruneRef].) *)
Definition liveIds (allShapes : list DiagramShape) : gmap string bool :=
  foldl (λ allShapesById item, <[shape_id item := true]> allShapesById) ∅ allShapes.

(** The body of the [for ... in this.shapeRefsById] loop.  The loop
    enumerates own properties only, the inherited ones not being enumerable.
    [this.shapeRefsById.hasOwnProperty(id)] calls the inherited method,
    unless the table has an own property of that name: that is a [ShapeRef]
    and no function, and the call throws.  A key deleted before it is
    visited is no own property any more and is skipped.  The read
    [allShapesById[id]] is truthy for an own [true] and for an inherited
    property. *)
Definition pruneRef (allShapesById : gmap string bool) (id : string) : M unit :=
  let* table := gets shapeRefsById in
  match table !! "hasOwnProperty" with
  | Some _ => throw TypeError
  | None =>
      match table !! id with
      | None => ret tt
      | Some ref =>
          ShapeRef_remove ref >>
          match Object_get allShapesById id with
          | Own true | Inherited => ret tt
          | Own false | Undefined =>
              modify (λ st, set_shapeRefsById (delete id (shapeRefsById st)) st) >>
              let* renderId := ShapeRef_renderId ref in
              modify (λ st, set_shapeRefsByRenderElement
                              (delete renderId (shapeRefsByRenderElement st)) st)
          end
      end
  end.

(** The body of the [for (let shape of allShapes)] loop.  When the id names
    an inherited property and no own one, [this.shapeRefsById[shape.id]] is
    that property of [Object.prototype]: it is truthy, so no [ShapeRef] is
    built, and it has no [render], so the call [ref.render(shape)] throws. *)
Definition renderShape (doc : Doc) (shape : DiagramShape) : M unit :=
  let* table := gets shapeRefsById in
  let* ref :=
    match Object_get table (shape_id shape) with
    | Own ref => ret ref
    | Inherited => throw TypeError
    | Undefined =>
        let renderer := rendererService props !! shape_renderer shape in
        ShapeRef_new doc renderer (negb isProduction)
    end in
  ShapeRef_render ref shape >>
  let* renderId := ShapeRef_renderId ref in
  modify (λ st, set_shapeRefsByRenderElement
                  (<[renderId := ref]> (shapeRefsByRenderElement st)) st) >>
  modify (λ st, set_shapeRefsById (<[shape_id shape := ref]> (shapeRefsById st)) st).

(** The two loops of [renderDiagram], on an already flattened diagram.  The
    [for ... in] loop visits the keys that [shapeRefsById] has when the loop
    starts, each once; [pruneLoop_spec] below shows that the order of the
    visit does not matter. *)
Definition reconcile (doc : Doc) (allShapes : list DiagramShape) : M unit :=
  let allShapesById := liveIds allShapes in
  let* ids := gets (λ st, (map_to_list (shapeRefsById st)).*1) in
  forEach (pruneRef allShapesById) ids >>
  forEach (renderShape doc) allShapes.

(** [renderDiagram()].  A flattening that exhausts the call stack throws. *)
Definition renderDiagram (fuel : nat) : M unit :=
  let* diagramDoc := gets diagramDoc in
  match diagramDoc with
  | None => ret tt
  | Some doc =>
      match getFlattenShapes fuel (selectedDiagram props) with
      | Some allShapes => reconcile doc allShapes
      | None => throw RangeError
      end
  end.

(** [componentDidUpdate()] *)
Definition componentDidUpdate (fuel : nat) : M unit := renderDiagram fuel.

(** [initDiagramScope(doc)]; [forceUpdate()] re-renders the component,
    after which React calls [componentDidUpdate]. *)
Definition initDiagramScope (fuel : nat) (doc : Doc) : M unit :=
  modify (set_diagramDoc (Some doc)) >>
  renderDiagram fuel >>
  componentDidUpdate fuel.
End Reconciler.

(** * The action creators and the toast middleware *)

Module Actions.
Section Creators.
Variable number : Type.

(** The [message] object that [ui.ts] imports from antd. *)
Inductive AntdMessage := antd_message.

(** A plain action object: its [type] and the payload properties that the
    creators of [ui.ts] write; a property the object lacks reads as
    [undefined]. *)
Record Action := {
  type : string;
  text : option string;
  message : option AntdMessage;
  zoomLevel : option number;
  tab : option string
}.

Definition SHOW_INFO_TOAST : string := "SHOW_INFO_TOAST".

(** [showInfoToast(text, hideAfter = 3000)]; the second parameter is not
    used by the body. *)
Definition showInfoToast (text : string) (hideAfter : option number) : Action :=
  {| type := SHOW_INFO_TOAST; text := Some text; message := None;
     zoomLevel := None; tab := None |}.

Definition SHOW_ERROR_TOAST : string := "SHOW_ERROR_TOAST".

(** [showErrorToast(text, hideAfter = 3000)]: the object literal
    [{ type: SHOW_ERROR_TOAST, message }] takes the imported [message]. *)
Definition showErrorToast (text : string) (hideAfter : option number) : Action :=
  {| type := SHOW_ERROR_TOAST; text := None; message := Some antd_message;
     zoomLevel := None; tab := None |}.

Definition setZoom (zoomLevel : number) : Action :=
  {| type := UI.SET_ZOOM; text := None; message := None;
     zoomLevel := Some zoomLevel; tab := None |}.

Definition selectTab (tab : string) : Action :=
  {| type := UI.SELECT_TAB; text := None; message := None;
     zoomLevel := None; tab := Some tab |}.

Definition toggleLeftSidebar : Action :=
  {| type := UI.TOGGLE_LEFT_SIDEBAR; text := None; message := None;
     zoomLevel := None; tab := None |}.

Definition toggleRightSidebar : Action :=
  {| type := UI.TOGGlE_RIGHT_SIDEBAR; text := None; message := None;
     zoomLevel := None; tab := None |}.

(** One call of [message.info(content)] or [message.error(content)]. *)
Inductive Toast :=
| Info (content : option string)
| Error (content : option string).

(** The function [action => ...] that [toastMiddleware()] builds around
    [next].  The calls made on antd's [message] so far are threaded as a
    list, which [next] may extend as well. *)
Definition toastMiddleware {R : Type}
    (next : Action → list Toast → R * list Toast)
    (action : Action) (shown : list Toast) : R * list Toast :=
  let shown :=
    if String.eqb (type action) SHOW_INFO_TOAST then
      shown ++ [Info (text action)]
    else if String.eqb (type action) SHOW_ERROR_TOAST then
      shown ++ [Error (text action)]
    else shown in
  next action shown.

(** The reducer's view of an action object: [action.type], [action.zoomLevel]
    and [action.tab].  The typed reducer cannot hold [undefined]; where the
    object lacks a payload, the view takes it from [unread]. *)
Definition view (action : Action) (unread : UI.Action number) : UI.Action number :=
  {| UI.type := type action;
     UI.zoomLevel := default (UI.zoomLevel unread) (zoomLevel action);
     UI.tab := default (UI.tab unread) (tab action) |}.

End Creators.

Arguments type {number} _.
Arguments text {number} _.
Arguments message {number} _.
Arguments zoomLevel {number} _.
Arguments tab {number} _.
Arguments showInfoToast {number} _ _.
Arguments showErrorToast {number} _ _.
Arguments setZoom {number} _.
Arguments selectTab {number} _.
Arguments toggleLeftSidebar {number}.
Arguments toggleRightSidebar {number}.
Arguments toastMiddleware {number R} _ _ _.
Arguments view {number} _ _.
End Actions.

(** * Notions used in the statements *)

(** The state after a full re-render of the [ShapeRef] at [this]. *)
Definition rerendered (this : Loc) (ref : ShapeRef) (r : Renderer)
    (shape : DiagramShape) (st : Editor) : Editor :=
  {| diagramDoc := diagramDoc st;
     shapeRefsById := shapeRefsById st;
     shapeRefsByRenderElement := shapeRefsByRenderElement st;
     heap := <[this := set_shape shape (set_renderedElement (nextElement st) ref)]> (heap st);
     scene := scene st ++ [(nextElement st, ref_doc ref)];
     nextElement := S (nextElement st);
     contexts := <[r := ref_doc ref]> (contexts st);
     renderLog := renderLog st ++
       [{| call_renderer := r; call_shape := shape;
           call_debug := showDebugMarkers ref |}] |}.

(** The state after the cheap path: the element is re-attached. *)
Definition reattached (this : Loc) (ref : ShapeRef) (e : Element)
    (shape : DiagramShape) (st : Editor) : Editor :=
  set_heap (<[this := set_shape shape ref]> (heap st))
    (set_scene (filter (λ p, p.1 ≠ e) (scene st) ++ [(e, ref_doc ref)]) st).

(** The element currently owned by the [ShapeRef] registered under a model
    id, if there is one. *)
Definition elementOf (st : Editor) (id : string) : option Element :=
  shapeRefsById st !! id ≫= λ this, heap st !! this ≫= renderedElement.

(** The elements of all registered [ShapeRef]s. *)
Definition ownedElements (st : Editor) : list Element :=
  omap (elementOf st) (map_to_list (shapeRefsById st)).*1.

(** The children of a scene document, first inserted first. *)
Definition children (doc : Doc) (st : Editor) : list Element :=
  (filter (λ p, p.2 = doc) (scene st)).*1.

(** The children of a document that are elements of registered shapes. *)
Definition shapeElements (doc : Doc) (st : Editor) : list Element :=
  filter (λ e, e ∈ ownedElements st) (children doc st).

(** The renderer invocations made after the state [st0] was left. *)
Definition callsSince (st0 st : Editor) : list RenderCall :=
  drop (length (renderLog st0)) (renderLog st).

(** No own property of [shapeRefsById] has the name of a property that the
    table inherits. *)
Definition plain (st : Editor) : Prop :=
  ∀ id, id ∈ Object_prototype → shapeRefsById st !! id = None.

(** What holds of the editor between two passes: no id under which a
    [ShapeRef] is registered names a property of [Object.prototype]; no two
    ids share a [ShapeRef]; every registered [ShapeRef] exists, was built for
    the bound document with a resolved renderer and owns an element that
    svg.js has already numbered; no two registered refs own the same element;
    and every attached element has already been numbered. *)
Record wf (st : Editor) : Prop := {
  wf_plain : plain st;
  wf_table_inj : ∀ id1 id2 this,
    shapeRefsById st !! id1 = Some this →
    shapeRefsById st !! id2 = Some this → id1 = id2;
  wf_ref : ∀ id this,
    shapeRefsById st !! id = Some this →
    ∃ ref e r,
      heap st !! this = Some ref ∧ renderedElement ref = Some e ∧
      e < nextElement st ∧ ref_renderer ref = Some r ∧
      diagramDoc st = Some (ref_doc ref);
  wf_element_inj : ∀ id1 id2 e,
    elementOf st id1 = Some e → elementOf st id2 = Some e → id1 = id2;
  wf_scene : ∀ p, p ∈ scene st → p.1 < nextElement st
}.

(** The item mapping files every shape under the shape's own id. *)
Definition keyed (d : Diagram) : Prop :=
  ∀ k s, items d !! k = Some (ItemShape s) → shape_id s = k.

(** The ids that stay, among those that name no inherited property:
    [!allShapesById[id]] is false. *)
Definition live (allShapesById : gmap string bool) (id : string) : Prop :=
  allShapesById !! id = Some true.

Global Instance live_dec allShapesById id : Decision (live allShapesById id).
Proof. unfold live. apply _. Defined.

(** The elements of the refs that a pass unregisters. *)
Definition staleElements (allShapesById : gmap string bool) (st : Editor)
    : list Element :=
  omap (elementOf st)
    (filter (λ id, ¬ live allShapesById id) (map_to_list (shapeRefsById st)).*1).

(** What one returning iteration of the render loop on [shape] does: the ref
    at [this] — the one registered under the shape's id, or a new one — now
    holds [shape] and the element [e], is registered under the id, which
    names no inherited property, and under [e], and [e] is the last child of
    [doc]; either no renderer ran and [e]
    is the element the ref already had, or the renderer ran once, on
    [shape], and [e] is new. *)
Record stepped (doc : Doc) (shape : DiagramShape) (st st' : Editor)
    (this : Loc) (e : Element) : Prop := {
  stepped_doc : diagramDoc st' = diagramDoc st;
  stepped_byId :
    shapeRefsById st' = <[shape_id shape := this]> (shapeRefsById st);
  stepped_byElement :
    shapeRefsByRenderElement st' = <[e := this]> (shapeRefsByRenderElement st);
  stepped_this :
    shapeRefsById st !! shape_id shape = Some this ∨
    (shapeRefsById st !! shape_id shape = None ∧ this = length (heap st));
  stepped_plain : shape_id shape ∉ Object_prototype;
  stepped_ref :
    ∃ ref r, heap st' !! this = Some ref ∧ ref_shape ref = Some shape ∧
             renderedElement ref = Some e ∧ ref_doc ref = doc ∧
             ref_renderer ref = Some r;
  stepped_heap : ∀ l, l ≠ this → heap st' !! l = heap st !! l;
  stepped_scene : scene st' = filter (λ p, p.1 ≠ e) (scene st) ++ [(e, doc)];
  stepped_next : nextElement st ≤ nextElement st';
  stepped_how :
    (renderLog st' = renderLog st ∧ nextElement st' = nextElement st ∧
     elementOf st (shape_id shape) = Some e ∧
     ∃ ref0 last, heap st !! this = Some ref0 ∧ ref_shape ref0 = Some last ∧
                  shape_obj last = shape_obj shape) ∨
    (∃ r dbg,
       renderLog st' = renderLog st ++
         [{| call_renderer := r; call_shape := shape; call_debug := dbg |}] ∧
       e = nextElement st ∧ nextElement st' = S (nextElement st) ∧
       ∀ ref0, heap st !! this = Some ref0 → mustRender ref0 shape = true)
}.

(** The state in which an iteration that throws leaves the editor: as it
    was when the id names an inherited property, and with one more
    [ShapeRef], which no table holds, otherwise. *)
Definition thrownAt (isProduction : bool) (doc : Doc) (shape : DiagramShape)
    (st : Editor) : Editor :=
  if decide (shape_id shape ∈ Object_prototype) then st
  else set_heap (heap st ++ [newShapeRef doc None (negb isProduction)]) st.

(** The last two statements of the render loop body: the ref at [this] is
    registered under its element and under the shape's id. *)
Definition registeredAs (shape : DiagramShape) (this : Loc) (e : Element)
    (st : Editor) : Editor :=
  set_shapeRefsById (<[shape_id shape := this]> (shapeRefsById st))
    (set_shapeRefsByRenderElement (<[e := this]> (shapeRefsByRenderElement st)) st).

(** The [ShapeRef] registered under a model id, and the shape it rendered
    last. *)
Definition refOf (st : Editor) (id : string) : option ShapeRef :=
  shapeRefsById st !! id ≫= λ this, heap st !! this.

Definition shapeOf (st : Editor) (id : string) : option DiagramShape :=
  refOf st id ≫= ref_shape.

(** What holds inside the render loop of a pass, [sp] being the state the
    prune loop left and [visited] the shapes already handled: every visited
    shape is registered in both tables and its element is attached to the
    document; the renderer ran on visited shapes only; the refs of ids not
    yet visited are as the prune loop left them, their elements detached;
    an owned element is the one the ref had before or a new one. *)
Record looping (doc : Doc) (sp : Editor) (visited : list DiagramShape)
    (st : Editor) : Prop := {
  looping_wf : wf st;
  looping_doc : diagramDoc st = Some doc;
  looping_log : length (renderLog sp) ≤ length (renderLog st);
  looping_next : nextElement sp ≤ nextElement st;
  looping_attached : ∀ s, s ∈ visited →
    ∃ this e,
      shapeRefsById st !! shape_id s = Some this ∧
      shapeRefsByRenderElement st !! e = Some this ∧
      elementOf st (shape_id s) = Some e ∧ (e, doc) ∈ scene st;
  looping_calls : ∀ c, c ∈ callsSince sp st → call_shape c ∈ visited;
  looping_untouched : ∀ id, id ∉ shape_id <$> visited →
    shapeRefsById st !! id = shapeRefsById sp !! id ∧ refOf st id = refOf sp id;
  looping_detached : ∀ id e, id ∉ shape_id <$> visited →
    elementOf st id = Some e → e ∉ (scene st).*1;
  looping_kept : ∀ id this,
    shapeRefsById sp !! id = Some this → shapeRefsById st !! id = Some this;
  looping_owned : ∀ id e,
    elementOf st id = Some e → elementOf sp id = Some e ∨ nextElement sp ≤ e
}.

(** The attached scene ends with the elements of the visited shapes, in the
    order of the visit. *)
Definition ordered (doc : Doc) (sp : Editor) (visited : list DiagramShape)
    (st : Editor) : Prop :=
  ∃ es, scene st = scene sp ++ ((λ e, (e, doc)) <$> es) ∧
        Forall2 (λ s e, elementOf st (shape_id s) = Some e) visited es.

(** The renderer has run on the object [s] since [sp], and the ref under
    the id of [s] owns an element created since [sp]. *)
Definition rerenderedSince (sp : Editor) (s : DiagramShape) (st : Editor) : Prop :=
  (∃ c, c ∈ callsSince sp st ∧ shape_obj (call_shape c) = shape_obj s ∧
        shape_id (call_shape c) = shape_id s) ∧
  ∃ e, elementOf st (shape_id s) = Some e ∧ nextElement sp ≤ e.

(** The ref under the id of [s] last rendered another object. *)
Definition holdsOther (s : DiagramShape) (st : Editor) : Prop :=
  ∃ last, shapeOf st (shape_id s) = Some last ∧ shape_obj last ≠ shape_obj s.

(** [child items a b]: [a] is a group of the mapping and lists [b]. *)
Definition child (items : gmap string DiagramItem) (a b : string) : Prop :=
  ∃ g, items !! a = Some (ItemGroup g) ∧ b ∈ childIds g.

(** From [a] the traversal comes to a group that is among its own
    descendants. *)
Definition entersCycle (items : gmap string DiagramItem) (a : string) : Prop :=
  ∃ c, rtc (child items) a c ∧ tc (child items) c c.

(** * Example inputs *)

Definition flat_shape (obj : nat) (id : string) : DiagramShape :=
  {| shape_obj := obj; shape_id := id; shape_renderer := "Button";
     shape_appearance := [] |}.

Definition flat_diagram : Diagram :=
  {| items :=
       <["G1" := ItemGroup {| group_id := "G1"; childIds := ["S2"; "S3"] |}]>
       (<["S1" := ItemShape (flat_shape 1 "S1")]>
       (<["S2" := ItemShape (flat_shape 2 "S2")]>
       (<["S3" := ItemShape (flat_shape 3 "S3")]> ∅)));
     rootIds := ["G1"; "S1"] |}.

Definition dangling_diagram : Diagram :=
  {| items :=
       <["G1" := ItemGroup {| group_id := "G1"; childIds := ["S2"; "gone"; "S3"] |}]>
       (<["S1" := ItemShape (flat_shape 1 "S1")]>
       (<["S2" := ItemShape (flat_shape 2 "S2")]>
       (<["S3" := ItemShape (flat_shape 3 "S3")]> ∅)));
     rootIds := ["G1"; "S1"] |}.

Definition ui_state : UI.UIState nat :=
  {| UI.zoom := 1; UI.selectedTab := "shapes";
     UI.showLeftSidebar := true; UI.showRightSidebar := false |}.

Definition ui_action (type : string) : UI.Action nat :=
  {| UI.type := type; UI.zoomLevel := 2; UI.tab := "icons" |}.

(** A registry with one renderer, diagrams of root shapes, and an editor
    whose scene document has just been bound. *)
Definition demo_registry : gmap string Renderer := {[ "Button" := 7 ]}.

Definition demo_shape (obj : nat) (id renderer : string) : DiagramShape :=
  {| shape_obj := obj; shape_id := id; shape_renderer := renderer;
     shape_appearance := [] |}.

Definition demo_diagram (shapes : list DiagramShape) : Diagram :=
  {| items := list_to_map ((λ s, (shape_id s, ItemShape s)) <$> shapes);
     rootIds := shape_id <$> shapes |}.

Definition demo_props (shapes : list DiagramShape) : EditorProps :=
  {| rendererService := demo_registry;
     selectedDiagram := Some (demo_diagram shapes) |}.

Definition demo_pass (shapes : list DiagramShape) (st : Editor) : Editor :=
  (renderDiagram false (demo_props shapes) 1 st).2.

Definition demo_start : Editor := set_diagramDoc (Some 100) newEditor.

Definition demo_X1 : DiagramShape := demo_shape 1 "X" "Button".
Definition demo_X2 : DiagramShape := demo_shape 2 "X" "Button".
Definition demo_Y : DiagramShape := demo_shape 3 "Y" "Button".
Definition demo_Z : DiagramShape := demo_shape 4 "Z" "Missing".
Definition demo_W : DiagramShape := demo_shape 5 "W" "Button".

(** A shape whose id is the name of a property of [Object.prototype]. *)
Definition demo_C : DiagramShape := demo_shape 6 "constructor" "Button".

(** The editor after a first pass over [X; Y]. *)
Definition demo_drawn : Editor := demo_pass [demo_X1; demo_Y] demo_start.

(** The groups of [flat_diagram] rank above their children. *)
Definition flat_rank (id : string) : nat :=
  if String.eqb id "G1" then 1 else 0.

(** A diagram that files two shape objects with the same id under two
    keys. *)
Definition demo_unkeyed : EditorProps :=
  {| rendererService := demo_registry;
     selectedDiagram :=
       Some {| items := <["a" := ItemShape demo_X1]> (<["b" := ItemShape demo_X2]> ∅);
               rootIds := ["a"; "b"] |} |}.

(** A payload for the properties an action object lacks. *)
Definition ui_unread : UI.Action nat :=
  {| UI.type := "unread"; UI.zoomLevel := 9; UI.tab := "unread" |}.

(** Two groups that list each other, below a root shape. *)
Definition cyclic_diagram : Diagram :=
  {| items :=
       <["A" := ItemGroup {| group_id := "A"; childIds := ["S1"; "B"] |}]>
       (<["B" := ItemGroup {| group_id := "B"; childIds := ["A"] |}]>
       (<["S1" := ItemShape (flat_shape 1 "S1")]> ∅));
     rootIds := ["S1"; "A"] |}.

(** An editor bound to its document while another component has one element
    in the scene. *)
Definition demo_start_foreign : Editor :=
  {| diagramDoc := Some 100; shapeRefsById := ∅; shapeRefsByRenderElement := ∅;
     heap := []; scene := [(40, 100)]; nextElement := 50; contexts := ∅;
     renderLog := [] |}.

(** That editor after a pass over [X; Y], with one more element of the other
    component added on top. *)
Definition demo_foreign : Editor :=
  set_scene (scene (demo_pass [demo_X1; demo_Y] demo_start_foreign) ++ [(41, 100)])
    (demo_pass [demo_X1; demo_Y] demo_start_foreign).

(** * Flattening: proofs *)

Section Flatten.
Context (items : gmap string DiagramItem).

Lemma handleContainer_S fuel ids acc :
  handleContainer (S fuel) items ids acc =
  foldl (visitItem (handleContainer fuel items) items) (Some acc) ids.
Proof. reflexivity. Qed.

Lemma foldl_visitItem_None recurse ids :
  foldl (visitItem recurse items) None ids = None.
Proof. induction ids as [|id ids IH]; simpl; auto. Qed.

Lemma handleContainer_cons fuel id ids acc :
  handleContainer (S fuel) items (id :: ids) acc =
  match items !! id with
  | Some (ItemShape s) => handleContainer (S fuel) items ids (acc ++ [s])
  | Some (ItemGroup g) =>
      match handleContainer fuel items (childIds g) acc with
      | Some acc' => handleContainer (S fuel) items ids acc'
      | None => None
      end
  | None => handleContainer (S fuel) items ids acc
  end.
Proof.
  rewrite !handleContainer_S. simpl.
  destruct (items !! id) as [[s|g]|]; try reflexivity.
  destruct (handleContainer fuel items (childIds g) acc); simpl; auto.
  apply foldl_visitItem_None.
Qed.

Lemma handleContainer_nil fuel acc :
  handleContainer (S fuel) items [] acc = Some acc.
Proof. reflexivity. Qed.

(** Soundness: whatever the traversal returns extends the accumulator by a
    pre-order listing. *)
Lemma handleContainer_sound fuel :
  ∀ ids acc out,
    handleContainer fuel items ids acc = Some out →
    ∃ o, out = acc ++ o ∧ preorder items ids o.
Proof.
  induction fuel as [|fuel IHf]; [discriminate|].
  induction ids as [|id ids IH]; intros acc out H.
  - rewrite handleContainer_nil in H. injection H as <-.
    exists []. rewrite app_nil_r. split; [done | constructor].
  - rewrite handleContainer_cons in H.
    destruct (items !! id) as [[s|g]|] eqn:E.
    + apply IH in H as (o & -> & Ho).
      exists (s :: o). rewrite <- app_assoc. split; [done|].
      by apply preorder_shape.
    + destruct (handleContainer fuel items (childIds g) acc) as [acc'|] eqn:Eg;
        [|discriminate].
      apply IHf in Eg as (sub & -> & Hsub).
      apply IH in H as (o & -> & Ho).
      exists (sub ++ o). rewrite app_assoc. split; [done|].
      by eapply preorder_group.
    + apply IH in H as (o & -> & Ho).
      exists o. split; [done|]. by apply preorder_skip.
Qed.

(** Completeness: a pre-order listing is returned once the stack is deep
    enough, and at every larger depth. *)
Lemma handleContainer_complete ids out :
  preorder items ids out →
  ∃ fuel, ∀ fuel' acc, fuel ≤ fuel' →
    handleContainer fuel' items ids acc = Some (acc ++ out).
Proof.
  induction 1 as [|id s ids out Hs _ [n IH]
                  |id g ids sub out Hg _ [n1 IH1] _ [n2 IH2]
                  |id ids out Hn _ [n IH]].
  - exists 1. intros [|k] acc Hk; [lia|].
    by rewrite handleContainer_nil, app_nil_r.
  - exists (S n). intros [|k] acc Hk; [lia|].
    rewrite handleContainer_cons, Hs, IH by lia.
    by rewrite <- app_assoc.
  - exists (S (n1 `max` n2)). intros [|k] acc Hk; [lia|].
    rewrite handleContainer_cons, Hg, IH1 by lia.
    rewrite IH2 by lia. by rewrite app_assoc.
  - exists (S n). intros [|k] acc Hk; [lia|].
    rewrite handleContainer_cons, Hn. apply IH. lia.
Qed.

(** Termination: in a ranked diagram every traversal returns. *)
Lemma preorder_total rank :
  ranked items rank →
  ∀ ids, ∃ out, preorder items ids out.
Proof.
  intros Hr.
  assert (Hn : ∀ n ids, (∀ id, id ∈ ids → rank id < n) →
                        ∃ out, preorder items ids out).
  { induction n as [|n IHn]; intros ids.
    - destruct ids as [|id ids]; intros Hlt.
      + exists []. constructor.
      + specialize (Hlt id). ospecialize (Hlt _); [left|lia].
    - induction ids as [|id ids IH]; intros Hlt.
      + exists []. constructor.
      + destruct IH as [out Hout].
        { intros i Hi. apply Hlt. by right. }
        destruct (items !! id) as [[s|g]|] eqn:E.
        * exists (s :: out). by apply preorder_shape.
        * destruct (IHn (childIds g)) as [sub Hsub].
          { intros c Hc. specialize (Hr _ _ _ E Hc).
            specialize (Hlt id). ospecialize (Hlt _); [left|lia]. }
          exists (sub ++ out). by eapply preorder_group.
        * exists out. by apply preorder_skip. }
  intros ids.
  apply (Hn (S (foldr (λ id m, rank id `max` m) 0 ids))).
  intros id Hid. induction Hid; simpl; lia.
Qed.

(** An unresolved id in a list contributes nothing. *)
Lemma handleContainer_dangling fuel pre x post acc :
  items !! x = None →
  handleContainer fuel items (pre ++ x :: post) acc =
  handleContainer fuel items (pre ++ post) acc.
Proof.
  intros Hx. destruct fuel as [|fuel]; [done|].
  rewrite !handleContainer_S, !foldl_app. simpl.
  destruct (foldl _ (Some acc) pre) as [a|]; simpl; [|done].
  by rewrite Hx.
Qed.
End Flatten.

Lemma getFlattenShapes_iff_preorder d out :
  (∃ fuel, getFlattenShapes fuel (Some d) = Some out) ↔
  preorder (items d) (rootIds d) out.
Proof.
  simpl. split.
  - intros [fuel H]. apply handleContainer_sound in H as (o & -> & Ho). done.
  - intros H. apply handleContainer_complete in H as [fuel H].
    exists fuel. by apply (H fuel []).
Qed.

Lemma getFlattenShapes_total d rank :
  ranked (items d) rank → ∃ fuel out, getFlattenShapes fuel (Some d) = Some out.
Proof.
  intros Hr. destruct (preorder_total _ rank Hr (rootIds d)) as [out Hout].
  apply getFlattenShapes_iff_preorder in Hout as [fuel H]. eauto.
Qed.

(** A deeper stack never changes a result. *)
Lemma handleContainer_mono items fuel fuel' ids acc out :
  fuel ≤ fuel' →
  handleContainer fuel items ids acc = Some out →
  handleContainer fuel' items ids acc = Some out.
Proof.
  revert fuel' ids acc out.
  induction fuel as [|fuel IHf]; [discriminate|].
  intros [|fuel'] ids; [lia|]. intros acc out Hle. revert acc out.
  induction ids as [|id ids IH]; intros acc out H.
  - by rewrite handleContainer_nil in *.
  - rewrite handleContainer_cons in *.
    destruct (items !! id) as [[s|g]|]; auto.
    destruct (handleContainer fuel items (childIds g) acc) as [acc'|] eqn:E;
      [|discriminate].
    rewrite (IHf fuel' _ _ acc') by (done || lia). auto.
Qed.

(** Claim C1: flattening lists the shapes depth first, in root-list order: the
    results of [getFlattenShapes] are exactly the pre-order listings of the
    root ids (a shape is appended, a group is replaced by the listing of its
    children in their stored order); on a diagram whose groups are ranked the
    traversal returns; and roots [G1; S1] with [G1.children = [S2; S3]]
    flatten to [S2; S3; S1]. *)
Theorem getFlattenShapes_depth_first_preorder :
  (∀ d out,
     (∃ fuel, getFlattenShapes fuel (Some d) = Some out) ↔
     preorder (items d) (rootIds d) out) ∧
  (∀ d rank,
     ranked (items d) rank →
     ∃ fuel out, getFlattenShapes fuel (Some d) = Some out) ∧
  (∀ d G1 S1 S2 S3 g1 s1 s2 s3 fuel,
     rootIds d = [G1; S1] →
     items d !! G1 = Some (ItemGroup g1) →
     childIds g1 = [S2; S3] →
     items d !! S1 = Some (ItemShape s1) →
     items d !! S2 = Some (ItemShape s2) →
     items d !! S3 = Some (ItemShape s3) →
     2 ≤ fuel →
     getFlattenShapes fuel (Some d) = Some [s2; s3; s1]).
Proof.
  split; [exact getFlattenShapes_iff_preorder|].
  split; [exact getFlattenShapes_total|].
  intros d G1 S1 S2 S3 g1 s1 s2 s3 fuel Hroot HG1 Hch HS1 HS2 HS3 Hfuel.
  apply (handleContainer_mono _ 2); [done|].
  rewrite Hroot, handleContainer_cons, HG1, Hch.
  rewrite handleContainer_cons, HS2, handleContainer_cons, HS3.
  rewrite handleContainer_nil, handleContainer_cons, HS1.
  by rewrite handleContainer_nil.
Qed.

Lemma getFlattenShapes_depth_first_preorder_witness :
  (∃ fuel out, getFlattenShapes fuel (Some flat_diagram) = Some out) ∧
  getFlattenShapes 2 (Some flat_diagram) =
  Some [flat_shape 2 "S2"; flat_shape 3 "S3"; flat_shape 1 "S1"].
Proof.
  split.
  - apply (proj1 (proj2 getFlattenShapes_depth_first_preorder)
             flat_diagram flat_rank).
    intros gid g c Hg Hc. simpl in Hg.
    apply lookup_insert_Some in Hg as [[<- [= <-]]|[_ Hg]].
    + simpl in Hc.
      apply elem_of_cons in Hc as [->|Hc]; [vm_compute; lia|].
      apply elem_of_cons in Hc as [->|Hc]; [vm_compute; lia|].
      by apply elem_of_nil in Hc.
    + apply lookup_insert_Some in Hg as [[_ [=]]|[_ Hg]].
      apply lookup_insert_Some in Hg as [[_ [=]]|[_ Hg]].
      apply lookup_insert_Some in Hg as [[_ [=]]|[_ Hg]].
      by rewrite lookup_empty in Hg.
  - apply (proj2 (proj2 getFlattenShapes_depth_first_preorder)
             flat_diagram "G1" "S1" "S2" "S3"
             {| group_id := "G1"; childIds := ["S2"; "S3"] |});
      solve [reflexivity | lia].
Defined.

(** Shortening one group's child list by an unresolved id changes no
    traversal. *)
Lemma handleContainer_dangling_child items gid g pre x post :
  items !! gid = Some (ItemGroup g) →
  childIds g = pre ++ x :: post →
  items !! x = None →
  ∀ fuel ids acc,
    handleContainer fuel
      (<[gid := ItemGroup (withChildIds g (pre ++ post))]> items) ids acc =
    handleContainer fuel items ids acc.
Proof.
  intros Hg Hch Hx.
  induction fuel as [|fuel IHf]; [done|].
  induction ids as [|id ids IH]; intros acc; [done|].
  rewrite !handleContainer_cons.
  destruct (decide (id = gid)) as [->|Hne].
  - rewrite lookup_insert_eq, Hg. cbn [childIds withChildIds].
    rewrite IHf, Hch, (handleContainer_dangling _ _ pre x post) by done.
    destruct (handleContainer fuel items (pre ++ post) acc); auto.
  - rewrite lookup_insert_ne by done.
    destruct (items !! id) as [[s|g']|]; auto.
    rewrite IHf. destruct (handleContainer fuel items (childIds g') acc); auto.
Qed.

Lemma handleContainer_all_dangling items fuel ids acc :
  (∀ x, x ∈ ids → items !! x = None) →
  handleContainer (S fuel) items ids acc = Some acc.
Proof.
  induction ids as [|id ids IH]; intros H; [done|].
  rewrite handleContainer_cons, (H id) by left.
  apply IH. intros x Hx. apply H. by right.
Qed.

(** Claim C6: an id that does not resolve in the item mapping is skipped: with
    such an id in the root list, or in the child list of any group, the
    traversal gives at every stack depth the result it gives for the diagram
    with that id left out of the list, and a list of unresolved ids alone
    flattens to the empty sequence; no error arises from the id. *)
Theorem getFlattenShapes_dangling_tolerance :
  (∀ fuel d pre x post,
     items d !! x = None →
     getFlattenShapes fuel (Some (withRootIds d (pre ++ x :: post))) =
     getFlattenShapes fuel (Some (withRootIds d (pre ++ post)))) ∧
  (∀ fuel d gid g pre x post,
     items d !! gid = Some (ItemGroup g) →
     childIds g = pre ++ x :: post →
     items d !! x = None →
     getFlattenShapes fuel (Some d) =
     getFlattenShapes fuel
       (Some {| items := <[gid := ItemGroup (withChildIds g (pre ++ post))]> (items d);
                rootIds := rootIds d |})) ∧
  (∀ fuel d,
     (∀ x, x ∈ rootIds d → items d !! x = None) →
     getFlattenShapes (S fuel) (Some d) = Some []).
Proof.
  split; [|split].
  - intros fuel d pre x post Hx. simpl. by apply handleContainer_dangling.
  - intros fuel d gid g pre x post Hg Hch Hx. simpl.
    symmetry. by eapply handleContainer_dangling_child.
  - intros fuel d H. simpl. by apply handleContainer_all_dangling.
Qed.

Lemma getFlattenShapes_dangling_tolerance_witness :
  getFlattenShapes 2 (Some (withRootIds dangling_diagram (["G1"] ++ "lost" :: ["S1"]))) =
  getFlattenShapes 2 (Some (withRootIds dangling_diagram (["G1"] ++ ["S1"]))) ∧
  getFlattenShapes 2 (Some dangling_diagram) =
  getFlattenShapes 2
    (Some {| items :=
               <["G1" := ItemGroup
                   (withChildIds {| group_id := "G1"; childIds := ["S2"; "gone"; "S3"] |}
                      (["S2"] ++ ["S3"]))]> (items dangling_diagram);
             rootIds := rootIds dangling_diagram |}) ∧
  getFlattenShapes 1 (Some (withRootIds dangling_diagram ["lost"; "gone"])) = Some [].
Proof.
  split; [|split].
  - apply (proj1 getFlattenShapes_dangling_tolerance 2 dangling_diagram).
    reflexivity.
  - apply (proj1 (proj2 getFlattenShapes_dangling_tolerance) 2 dangling_diagram "G1"
             {| group_id := "G1"; childIds := ["S2"; "gone"; "S3"] |} ["S2"] "gone" ["S3"]);
      reflexivity.
  - apply (proj2 (proj2 getFlattenShapes_dangling_tolerance) 0
             (withRootIds dangling_diagram ["lost"; "gone"])).
    intros x Hx. simpl in Hx.
    apply elem_of_cons in Hx as [->|Hx]; [reflexivity|].
    apply elem_of_cons in Hx as [->|Hx]; [reflexivity|].
    by apply elem_of_nil in Hx.
Defined.

(** * The [ui] reducer: proofs *)

(** Claim C10: the reducer writes only the field named by the action type and
    hands back the given state for every other action type. *)
Theorem ui_changes_only_designated_field :
  ∀ (number : Type) (initialState state : UI.UIState number) (action : UI.Action number),
    (UI.type action = UI.SET_ZOOM →
       UI.ui initialState (Some state) action =
       {| UI.zoom := UI.zoomLevel action;
          UI.selectedTab := UI.selectedTab state;
          UI.showLeftSidebar := UI.showLeftSidebar state;
          UI.showRightSidebar := UI.showRightSidebar state |}) ∧
    (UI.type action = UI.SELECT_TAB →
       UI.ui initialState (Some state) action =
       {| UI.zoom := UI.zoom state;
          UI.selectedTab := UI.tab action;
          UI.showLeftSidebar := UI.showLeftSidebar state;
          UI.showRightSidebar := UI.showRightSidebar state |}) ∧
    (UI.type action = UI.TOGGLE_LEFT_SIDEBAR →
       UI.ui initialState (Some state) action =
       {| UI.zoom := UI.zoom state;
          UI.selectedTab := UI.selectedTab state;
          UI.showLeftSidebar := negb (UI.showLeftSidebar state);
          UI.showRightSidebar := UI.showRightSidebar state |}) ∧
    (UI.type action = UI.TOGGlE_RIGHT_SIDEBAR →
       UI.ui initialState (Some state) action =
       {| UI.zoom := UI.zoom state;
          UI.selectedTab := UI.selectedTab state;
          UI.showLeftSidebar := UI.showLeftSidebar state;
          UI.showRightSidebar := negb (UI.showRightSidebar state) |}) ∧
    (UI.type action ∉ [UI.SET_ZOOM; UI.SELECT_TAB; UI.TOGGLE_LEFT_SIDEBAR;
                       UI.TOGGlE_RIGHT_SIDEBAR] →
       UI.ui initialState (Some state) action = state).
Proof.
  intros number initialState state action. unfold UI.ui. simpl.
  repeat split.
  - by intros ->.
  - by intros ->.
  - by intros ->.
  - by intros ->.
  - intros Hn.
    repeat match goal with
    | |- context [String.eqb ?a ?b] =>
        destruct (String.eqb_spec a b) as [Heq|_];
        [exfalso; apply Hn; rewrite Heq; set_solver|]
    end.
    done.
Qed.

Lemma ui_changes_only_designated_field_witness :
  UI.ui ui_state (Some ui_state) (ui_action "SET_ZOOM") =
    {| UI.zoom := 2; UI.selectedTab := "shapes";
       UI.showLeftSidebar := true; UI.showRightSidebar := false |} ∧
  UI.ui ui_state (Some ui_state) (ui_action "SELECT_TAB") =
    {| UI.zoom := 1; UI.selectedTab := "icons";
       UI.showLeftSidebar := true; UI.showRightSidebar := false |} ∧
  UI.ui ui_state (Some ui_state) (ui_action "TOGGLE_LEFT_SIDEBAR") =
    {| UI.zoom := 1; UI.selectedTab := "shapes";
       UI.showLeftSidebar := false; UI.showRightSidebar := false |} ∧
  UI.ui ui_state (Some ui_state) (ui_action "TOGGle_RIGHT_SIDEBAR") =
    {| UI.zoom := 1; UI.selectedTab := "shapes";
       UI.showLeftSidebar := true; UI.showRightSidebar := true |} ∧
  UI.ui ui_state (Some ui_state) (ui_action "TOGGLE_RIGHT_SIDEBAR") = ui_state.
Proof.
  split; [|split; [|split; [|split]]].
  - apply (proj1 (ui_changes_only_designated_field nat ui_state ui_state
                    (ui_action "SET_ZOOM"))).
    reflexivity.
  - apply (proj1 (proj2 (ui_changes_only_designated_field nat ui_state ui_state
                           (ui_action "SELECT_TAB")))).
    reflexivity.
  - apply (proj1 (proj2 (proj2 (ui_changes_only_designated_field nat ui_state ui_state
                                  (ui_action "TOGGLE_LEFT_SIDEBAR"))))).
    reflexivity.
  - apply (proj1 (proj2 (proj2 (proj2 (ui_changes_only_designated_field nat ui_state
                                         ui_state (ui_action "TOGGle_RIGHT_SIDEBAR")))))).
    reflexivity.
  - apply (proj2 (proj2 (proj2 (proj2 (ui_changes_only_designated_field nat ui_state
                                         ui_state (ui_action "TOGGLE_RIGHT_SIDEBAR")))))).
    simpl. rewrite !not_elem_of_cons.
    repeat split; try discriminate. apply not_elem_of_nil.
Defined.

(** * The monad: stepping lemmas *)

Lemma bind_Return {A B} (m : M A) (k : A → M B) st a st' :
  m st = (Return a, st') → bind m k st = k a st'.
Proof. unfold bind. by intros ->. Qed.

Lemma bind_Throw {A B} (m : M A) (k : A → M B) st e st' :
  m st = (Throw e, st') → bind m k st = (Throw e, st').
Proof. unfold bind. by intros ->. Qed.

Lemma deref_Return st this ref :
  heap st !! this = Some ref → deref this st = (Return ref, st).
Proof. unfold deref. by intros ->. Qed.

Lemma update_Return st this ref f :
  heap st !! this = Some ref →
  update this f st = (Return tt, set_heap (<[this := f ref]> (heap st)) st).
Proof. intros H. unfold update. by rewrite (bind_Return _ _ _ _ _ (deref_Return _ _ _ H)). Qed.

(** The loop runs the body on each element in turn. *)
Lemma forEach_app {A} (body : A → M unit) l1 l2 st :
  forEach body (l1 ++ l2) st =
  match forEach body l1 st with
  | (Return _, st') => forEach body l2 st'
  | (Throw e, st') => (Throw e, st')
  end.
Proof.
  revert st. induction l1 as [|x l1 IH]; intros st; [done|].
  simpl. unfold bind. destruct (body x st) as [[[]|e] st1]; [apply IH|done].
Qed.

(** An invariant kept by the body whatever its outcome holds after the loop,
    whatever its outcome. *)
Lemma forEach_any_inv {A} (body : A → M unit) (I : Editor → Prop) l :
  (∀ x st r st', x ∈ l → I st → body x st = (r, st') → I st') →
  ∀ st r st', I st → forEach body l st = (r, st') → I st'.
Proof.
  induction l as [|x l IH]; intros Hstep st r st' HI H.
  - by injection H as <- <-.
  - simpl in H. unfold bind in H.
    destruct (body x st) as [[[]|e] st1] eqn:E.
    + eapply IH; [|by eapply Hstep; [left|..]|done].
      intros. eapply Hstep; [by right|done..].
    + injection H as <- <-. eapply Hstep; [left|done..].
Qed.

(** * [ShapeRef]: proofs *)

Lemma mustRender_true ref shape :
  mustRender ref shape = true ↔
  (∀ last, ref_shape ref = Some last → shape_obj last ≠ shape_obj shape) ∨
  renderedElement ref = None.
Proof.
  unfold mustRender, same_object.
  destruct (ref_shape ref) as [last|], (renderedElement ref) as [e|]; simpl.
  - rewrite orb_false_r, negb_true_iff, bool_decide_eq_false.
    split.
    + intros H. left. by intros ? [= <-].
    + intros [H|[=]]. by apply H.
  - rewrite orb_true_r. split; auto.
  - split; [|done]. intros _. left. by intros ? [=].
  - split; auto.
Qed.

Lemma mustRender_false ref shape :
  mustRender ref shape = false ↔
  ∃ last e, ref_shape ref = Some last ∧ shape_obj last = shape_obj shape ∧
            renderedElement ref = Some e.
Proof.
  unfold mustRender, same_object.
  destruct (ref_shape ref) as [last|], (renderedElement ref) as [e|]; simpl.
  - rewrite orb_false_r, negb_false_iff, bool_decide_eq_true.
    split.
    + intros H. eauto.
    + by intros (? & ? & [= <-] & ? & _).
  - rewrite orb_true_r. split; [done|]. by intros (? & ? & _ & _ & ?).
  - split; [done|]. by intros (? & ? & ? & _).
  - split; [done|]. by intros (? & ? & ? & _).
Qed.

Lemma ShapeRef_render_full st this ref r shape :
  heap st !! this = Some ref →
  ref_renderer ref = Some r →
  mustRender ref shape = true →
  ShapeRef_render this shape st = (Return tt, rerendered this ref r shape st).
Proof.
  intros Hthis Hr Hm. unfold ShapeRef_render.
  rewrite (bind_Return _ _ _ _ _ (deref_Return _ _ _ Hthis)), Hm, Hr.
  unfold bind at 1. unfold bind at 1.
  unfold Renderer_setContext, modify at 1.
  unfold bind at 1. unfold Renderer_render at 1.
  cbn [contexts set_contexts]. rewrite lookup_insert_eq.
  rewrite update_Return with (ref := ref) by done.
  cbn [heap set_heap nextElement].
  rewrite update_Return with (ref := set_renderedElement (nextElement st) ref).
  2:{ cbn [heap set_heap]. apply list_lookup_insert_eq. by eapply lookup_lt_Some. }
  unfold rerendered, set_heap. cbn. by rewrite list_insert_insert_eq.
Qed.

Lemma ShapeRef_render_cheap st this ref e shape :
  heap st !! this = Some ref →
  renderedElement ref = Some e →
  mustRender ref shape = false →
  ShapeRef_render this shape st = (Return tt, reattached this ref e shape st).
Proof.
  intros Hthis He Hm. unfold ShapeRef_render.
  rewrite (bind_Return _ _ _ _ _ (deref_Return _ _ _ Hthis)), Hm, He.
  unfold bind at 1, Doc_add, modify at 1.
  by rewrite update_Return with (ref := ref).
Qed.

Lemma ShapeRef_render_unresolved st this ref shape :
  heap st !! this = Some ref →
  ref_renderer ref = None →
  renderedElement ref = None →
  ShapeRef_render this shape st = (Throw TypeError, st).
Proof.
  intros Hthis Hr He. unfold ShapeRef_render.
  rewrite (bind_Return _ _ _ _ _ (deref_Return _ _ _ Hthis)).
  assert (mustRender ref shape = true) as -> by (apply mustRender_true; auto).
  by rewrite Hr.
Qed.

Lemma ShapeRef_remove_Return st this ref :
  heap st !! this = Some ref →
  ShapeRef_remove this st =
  (Return tt,
   match renderedElement ref with
   | Some e => set_scene (filter (λ p, p.1 ≠ e) (scene st)) st
   | None => st
   end).
Proof.
  intros Hthis. unfold ShapeRef_remove.
  rewrite (bind_Return _ _ _ _ _ (deref_Return _ _ _ Hthis)).
  by destruct (renderedElement ref).
Qed.

Lemma ShapeRef_renderId_Return st this ref e :
  heap st !! this = Some ref → renderedElement ref = Some e →
  ShapeRef_renderId this st = (Return e, st).
Proof.
  intros Hthis He. unfold ShapeRef_renderId.
  by rewrite (bind_Return _ _ _ _ _ (deref_Return _ _ _ Hthis)), He.
Qed.

Lemma filter_idemp {A} (P : A → Prop) `{∀ x, Decision (P x)} (l : list A) :
  filter P (filter P l) = filter P l.
Proof.
  induction l as [|x l IH]; [done|].
  rewrite filter_cons. destruct (decide (P x)); [|done].
  rewrite filter_cons. destruct (decide (P x)); [|done]. by rewrite IH.
Qed.

Lemma filter_id {A} (P : A → Prop) `{∀ x, Decision (P x)} (l : list A) :
  (∀ x, x ∈ l → P x) → filter P l = l.
Proof.
  induction l as [|x l IH]; intros Hl; [done|].
  rewrite filter_cons, decide_True by (apply Hl; left).
  f_equal. apply IH. intros y Hy. apply Hl. by right.
Qed.

(** Claim C8: [remove()] only detaches: it returns, changes nothing but the
    scene, from which it takes the rendered element (and nothing at all when
    there is no element); the [ShapeRef] keeps its element and its last
    shape, so rendering the same shape object next takes the cheap path,
    which invokes no renderer and puts the element back once, as the last
    child of the ref's document. *)
Theorem ShapeRef_remove_only_detaches :
  ∀ st this ref,
    heap st !! this = Some ref →
    ∃ st',
      ShapeRef_remove this st = (Return tt, st') ∧
      st' = match renderedElement ref with
            | Some e => set_scene (filter (λ p, p.1 ≠ e) (scene st)) st
            | None => st
            end ∧
      heap st' !! this = Some ref ∧
      (∀ shape last e,
         ref_shape ref = Some last →
         shape_obj last = shape_obj shape →
         renderedElement ref = Some e →
         ∃ st'',
           ShapeRef_render this shape st' = (Return tt, st'') ∧
           renderLog st'' = renderLog st ∧
           nextElement st'' = nextElement st ∧
           heap st'' = <[this := set_shape shape ref]> (heap st) ∧
           scene st'' = filter (λ p, p.1 ≠ e) (scene st) ++ [(e, ref_doc ref)]).
Proof.
  intros st this ref Hthis. eexists. split; [by apply ShapeRef_remove_Return|].
  split; [done|]. split; [by destruct (renderedElement ref)|].
  intros shape last e Hlast Hobj He. rewrite He.
  eexists. split.
  - apply ShapeRef_render_cheap with (ref := ref) (e := e); [done..|].
    apply mustRender_false. eauto.
  - unfold reattached. cbn. by rewrite filter_idemp.
Qed.

(** The [ShapeRef] half of claim C4: a shape that is not the object rendered last,
    or a ref that has no element yet, makes [render] bind the renderer to the
    ref's document, invoke [renderer.render(shape, showDebugMarkers)] and
    store the element it produced together with the shape. *)
Lemma ShapeRef_render_must_render st this ref r shape :
  heap st !! this = Some ref →
  ref_renderer ref = Some r →
  (∀ last, ref_shape ref = Some last → shape_obj last ≠ shape_obj shape) ∨
    renderedElement ref = None →
  ∃ st',
    ShapeRef_render this shape st = (Return tt, st') ∧
    contexts st' !! r = Some (ref_doc ref) ∧
    renderLog st' = renderLog st ++
      [{| call_renderer := r; call_shape := shape;
          call_debug := showDebugMarkers ref |}] ∧
    heap st' !! this =
      Some (set_shape shape (set_renderedElement (nextElement st) ref)) ∧
    nextElement st < nextElement st' ∧
    scene st' = scene st ++ [(nextElement st, ref_doc ref)].
Proof.
  intros Hthis Hr Hm. apply mustRender_true in Hm.
  eexists. split; [by apply ShapeRef_render_full|].
  unfold rerendered. cbn. split; [by rewrite lookup_insert_eq|].
  split; [done|]. split; [|split; [lia|done]].
  apply list_lookup_insert_eq. by eapply lookup_lt_Some.
Qed.

(** * [Editor]: proofs *)

(** Claim C9: before [initDiagramScope] has bound a scene document,
    [renderDiagram] returns at once and leaves the whole state as it was:
    both lookup tables, the scene, the [ShapeRef]s and the record of renderer
    invocations. *)
Theorem renderDiagram_without_doc_is_noop :
  ∀ isProduction props fuel st,
    diagramDoc st = None →
    renderDiagram isProduction props fuel st = (Return tt, st) ∧
    componentDidUpdate isProduction props fuel st = (Return tt, st).
Proof.
  intros isProduction props fuel st Hdoc.
  unfold componentDidUpdate, renderDiagram, bind, gets. by rewrite Hdoc.
Qed.

Lemma renderDiagram_without_doc_is_noop_witness :
  renderDiagram false
    {| rendererService := ∅; selectedDiagram := Some flat_diagram |} 2 newEditor =
    (Return tt, newEditor) ∧
  componentDidUpdate false
    {| rendererService := ∅; selectedDiagram := Some flat_diagram |} 2 newEditor =
    (Return tt, newEditor).
Proof.
  apply (renderDiagram_without_doc_is_noop false
           {| rendererService := ∅; selectedDiagram := Some flat_diagram |}
           2 newEditor).
  reflexivity.
Defined.

(** ** The prune loop *)

Lemma omap_cons {A B} (f : A → option B) x l :
  omap f (x :: l) = match f x with Some y => y :: omap f l | None => omap f l end.
Proof. reflexivity. Qed.

Lemma elementOf_Some st id e :
  elementOf st id = Some e ↔
  ∃ this ref, shapeRefsById st !! id = Some this ∧ heap st !! this = Some ref ∧
              renderedElement ref = Some e.
Proof.
  unfold elementOf. rewrite bind_Some. split.
  - intros (this & Hid & H). apply bind_Some in H as (ref & Href & He). eauto.
  - intros (this & ref & Hid & Href & He). exists this. split; [done|].
    apply bind_Some. eauto.
Qed.

Lemma elem_of_ownedElements st e :
  e ∈ ownedElements st ↔ ∃ id, elementOf st id = Some e.
Proof.
  unfold ownedElements. rewrite list_elem_of_omap. split.
  - intros (id & _ & H). eauto.
  - intros (id & H). exists id. split; [|done].
    apply elementOf_Some in H as (this & ref & Hid & _).
    apply list_elem_of_fmap. exists (id, this). split; [done|].
    by apply elem_of_map_to_list.
Qed.

Lemma wf_elementOf st id this :
  wf st → shapeRefsById st !! id = Some this →
  ∃ ref e r, heap st !! this = Some ref ∧ renderedElement ref = Some e ∧
             elementOf st id = Some e ∧ e < nextElement st ∧
             ref_renderer ref = Some r ∧ diagramDoc st = Some (ref_doc ref).
Proof.
  intros Hwf Hid. destruct (wf_ref _ Hwf _ _ Hid) as (ref & e & r & ? & ? & ? & ? & ?).
  exists ref, e, r. repeat split; try done. apply elementOf_Some. eauto.
Qed.

Lemma liveIds_spec shapes id :
  live (liveIds shapes) id ↔ id ∈ shape_id <$> shapes.
Proof.
  unfold live, liveIds.
  assert (H : ∀ m : gmap string bool,
             foldl (λ m' (item : DiagramShape), <[shape_id item := true]> m') m shapes
                     !! id = Some true ↔
                   id ∈ shape_id <$> shapes ∨ m !! id = Some true).
  { induction shapes as [|s shapes IH]; intros m; simpl.
    - rewrite elem_of_nil. tauto.
    - rewrite IH, elem_of_cons. destruct (decide (shape_id s = id)) as [<-|Hne].
      + rewrite lookup_insert_eq. tauto.
      + rewrite lookup_insert_ne by done. intuition congruence. }
  rewrite H, lookup_empty. split; [|tauto]. by intros [?|?].
Qed.

(** Reads of a table under a name that is no inherited property. *)
Lemma Object_get_plain {A} (o : gmap string A) key :
  key ∉ Object_prototype →
  Object_get o key = match o !! key with Some a => Own a | None => Undefined end.
Proof.
  intros Hn. unfold Object_get. destruct (o !! key); [done|].
  by rewrite bool_decide_eq_false_2.
Qed.

Lemma Object_get_own {A} (o : gmap string A) key a :
  o !! key = Some a → Object_get o key = Own a.
Proof. intros H. unfold Object_get. by rewrite H. Qed.

Lemma Object_get_inherited {A} (o : gmap string A) key :
  o !! key = None → key ∈ Object_prototype → Object_get o key = Inherited.
Proof. intros H Hin. unfold Object_get. by rewrite H, bool_decide_eq_true_2. Qed.

Lemma hasOwnProperty_inherited : ("hasOwnProperty" : string) ∈ Object_prototype.
Proof. right. left. Qed.

Lemma plain_registered st id this :
  plain st → shapeRefsById st !! id = Some this → id ∉ Object_prototype.
Proof. intros Hplain Hid Hin. apply Hplain in Hin. congruence. Qed.

(** One iteration of the prune loop on a registered ref that owns [e]. *)
Lemma pruneRef_Return allShapesById st id this ref e :
  plain st →
  shapeRefsById st !! id = Some this →
  heap st !! this = Some ref →
  renderedElement ref = Some e →
  pruneRef allShapesById id st =
  (Return tt,
   let st1 := set_scene (filter (λ p, p.1 ≠ e) (scene st)) st in
   if decide (live allShapesById id) then st1
   else set_shapeRefsByRenderElement (delete e (shapeRefsByRenderElement st))
          (set_shapeRefsById (delete id (shapeRefsById st)) st1)).
Proof.
  intros Hplain Hid Href He. unfold pruneRef, bind at 1, gets at 1.
  rewrite (Hplain _ hasOwnProperty_inherited), Hid.
  erewrite bind_Return by by apply ShapeRef_remove_Return.
  rewrite He. cbn zeta.
  rewrite (Object_get_plain _ _ (plain_registered _ _ _ Hplain Hid)).
  destruct (decide (live allShapesById id)) as [Hl|Hl]; unfold live in Hl.
  - by rewrite Hl.
  - assert (∀ k : M unit,
              match match allShapesById !! id with
                    | Some a => Own a
                    | None => Undefined
                    end with
              | Own true | Inherited => ret tt
              | _ => k
              end = k)
      as -> by (intros k; by destruct (allShapesById !! id) as [[]|]).
    unfold bind at 1, modify at 1.
    erewrite bind_Return
      by (eapply ShapeRef_renderId_Return; [exact Href|exact He]).
    done.
Qed.

(** The prune loop over distinct registered ids: it returns; it detaches the
    element of every ref it visits and unregisters the refs whose id is no
    longer live, from both tables; nothing else changes. *)
Lemma pruneLoop_spec allShapesById ids :
  ∀ st,
    plain st →
    NoDup ids →
    (∀ id, id ∈ ids → is_Some (elementOf st id)) →
    ∃ st',
      forEach (pruneRef allShapesById) ids st = (Return tt, st') ∧
      diagramDoc st' = diagramDoc st ∧ heap st' = heap st ∧
      nextElement st' = nextElement st ∧ contexts st' = contexts st ∧
      renderLog st' = renderLog st ∧
      scene st' = filter (λ p, p.1 ∉ omap (elementOf st) ids) (scene st) ∧
      (∀ id, shapeRefsById st' !! id =
             if decide (id ∈ ids ∧ ¬ live allShapesById id) then None
             else shapeRefsById st !! id) ∧
      (∀ e, shapeRefsByRenderElement st' !! e =
            if decide (e ∈ omap (elementOf st)
                             (filter (λ id, ¬ live allShapesById id) ids))
            then None else shapeRefsByRenderElement st !! e).
Proof.
  induction ids as [|id ids IH]; intros st Hplain Hnd Hreg.
  - exists st. split; [done|]. do 5 (split; [done|]). split; [|split].
    + simpl. symmetry. apply filter_id. intros p _. apply not_elem_of_nil.
    + intros id. rewrite decide_False; [done|]. rewrite elem_of_nil. tauto.
    + intros e. rewrite decide_False; [done|]. apply not_elem_of_nil.
  - apply NoDup_cons in Hnd as [Hnotin Hnd].
    destruct (Hreg id) as [e He]; [left|].
    pose proof He as He'.
    apply elementOf_Some in He' as (this & ref & Hid & Href & Hel).
    pose proof (pruneRef_Return allShapesById st id this ref e Hplain Hid Href Hel)
      as Hstep.
    cbn zeta in Hstep.
    set (st1 := if decide (live allShapesById id) then _ else _) in Hstep.
    assert (Hheap1 : heap st1 = heap st) by (subst st1; by case_decide).
    assert (Hplain1 : plain st1).
    { intros k Hk. subst st1. case_decide; cbn; [by apply Hplain|].
      apply lookup_delete_None. right. by apply Hplain. }
    assert (Htab1 : ∀ id', id' ≠ id →
              shapeRefsById st1 !! id' = shapeRefsById st !! id').
    { intros id' Hne. subst st1. case_decide; [done|]. cbn.
      by rewrite lookup_delete_ne. }
    assert (Hel1 : ∀ id', id' ∈ ids → elementOf st1 id' = elementOf st id').
    { intros id' Hin. unfold elementOf. rewrite Hheap1, Htab1; [done|].
      intros ->. done. }
    destruct (IH st1 Hplain1 Hnd) as (st' & Hrun & Hdoc & Hheap & Hnext & Hctx & Hlog
                              & Hscene & HbyId & HbyEl).
    { intros id' Hin. rewrite Hel1 by done. apply Hreg. by right. }
    assert (Homap : ∀ (P : string → Prop) `{∀ x, Decision (P x)},
              omap (elementOf st1) (filter P ids) = omap (elementOf st) (filter P ids)).
    { intros P ?. apply list_omap_ext. apply Forall2_same_length_lookup_2; [done|].
      intros i x y Hx Hy. rewrite Hx in Hy. injection Hy as <-.
      apply Hel1. apply list_elem_of_lookup_2 in Hx.
      by apply list_elem_of_filter in Hx as [_ ?]. }
    assert (Homap' : omap (elementOf st1) ids = omap (elementOf st) ids).
    { specialize (Homap (λ _, True) _). rewrite filter_id in Homap; done. }
    exists st'. split.
    { simpl. by rewrite (bind_Return _ _ _ _ _ Hstep). }
    rewrite Hdoc, Hheap, Hnext, Hctx, Hlog, Hscene, Homap'.
    split; [subst st1; by case_decide|].
    split; [done|].
    split; [subst st1; by case_decide|].
    split; [subst st1; by case_decide|].
    split; [subst st1; by case_decide|].
    split; [|split].
    + assert (scene st1 = filter (λ p, p.1 ≠ e) (scene st)) as ->
        by (subst st1; by case_decide).
      rewrite list_filter_filter. apply list_filter_iff.
      intros p. simpl. rewrite He. simpl. rewrite not_elem_of_cons. tauto.
    + intros id'. rewrite HbyId.
      destruct (decide (id' = id)) as [->|Hne].
      * rewrite decide_False by tauto.
        subst st1. destruct (decide (live allShapesById id)) as [Hl|Hl].
        -- rewrite decide_False by tauto. done.
        -- rewrite decide_True by (split; [left|done]). cbn.
           apply lookup_delete_eq.
      * rewrite Htab1 by done.
        destruct (decide (id' ∈ ids ∧ ¬ live allShapesById id')) as [[? ?]|Hn].
        -- rewrite decide_True; [done|]. split; [by right|done].
        -- rewrite decide_False; [done|]. rewrite elem_of_cons. tauto.
    + intros e'. rewrite HbyEl, Homap.
      rewrite filter_cons. subst st1.
      destruct (decide (live allShapesById id)) as [Hl|Hl].
      * rewrite (decide_False (P := ¬ live allShapesById id)) by tauto. done.
      * rewrite (decide_True (P := ¬ live allShapesById id)) by done.
        rewrite omap_cons, He.
        cbn [shapeRefsByRenderElement set_shapeRefsByRenderElement].
        destruct (decide (e' = e)) as [->|Hne].
        -- rewrite lookup_delete_eq.
           destruct (decide (e ∈ e :: omap (elementOf st)
                       (filter (λ id, ¬ live allShapesById id) ids))) as [?|Hn].
           ++ by case_decide.
           ++ exfalso. apply Hn. by left.
        -- rewrite lookup_delete_ne by done.
           destruct (decide (e' ∈ omap (elementOf st)
                                  (filter (λ id, ¬ live allShapesById id) ids)))
             as [Hin|Hn].
           ++ rewrite decide_True; [done|]. by right.
           ++ rewrite decide_False; [done|]. rewrite elem_of_cons. tauto.
Qed.

(** The prune loop of a pass, from a state between passes. *)
Lemma prune_spec allShapesById st :
  wf st →
  ∃ sp,
    forEach (pruneRef allShapesById) (map_to_list (shapeRefsById st)).*1 st =
      (Return tt, sp) ∧
    wf sp ∧
    diagramDoc sp = diagramDoc st ∧ heap sp = heap st ∧
    nextElement sp = nextElement st ∧ contexts sp = contexts st ∧
    renderLog sp = renderLog st ∧
    scene sp = filter (λ p, p.1 ∉ ownedElements st) (scene st) ∧
    (∀ id, shapeRefsById sp !! id =
           if decide (live allShapesById id) then shapeRefsById st !! id else None) ∧
    (∀ e, shapeRefsByRenderElement sp !! e =
          if decide (e ∈ staleElements allShapesById st) then None
          else shapeRefsByRenderElement st !! e) ∧
    (∀ id e, elementOf sp id = Some e → e ∉ (scene sp).*1).
Proof.
  intros Hwf.
  destruct (pruneLoop_spec allShapesById (map_to_list (shapeRefsById st)).*1 st)
    as (sp & Hrun & Hdoc & Hheap & Hnext & Hctx & Hlog & Hscene & HbyId & HbyEl).
  { exact (wf_plain _ Hwf). }
  { apply NoDup_fst_map_to_list. }
  { intros id Hin. apply list_elem_of_fmap in Hin as ([id' this] & -> & Hin).
    apply elem_of_map_to_list in Hin.
    destruct (wf_elementOf _ _ _ Hwf Hin) as (? & e & ? & _ & _ & He & _). eauto. }
  assert (HbyId' : ∀ id, shapeRefsById sp !! id =
            if decide (live allShapesById id) then shapeRefsById st !! id else None).
  { intros id. rewrite HbyId.
    destruct (decide (live allShapesById id)) as [Hl|Hl].
    - rewrite decide_False by tauto. done.
    - destruct (shapeRefsById st !! id) as [this|] eqn:E.
      + rewrite decide_True; [done|]. split; [|done].
        apply list_elem_of_fmap. exists (id, this). split; [done|].
        by apply elem_of_map_to_list.
      + by case_decide. }
  assert (Hsub : ∀ id this, shapeRefsById sp !! id = Some this →
                            shapeRefsById st !! id = Some this).
  { intros id this. rewrite HbyId'. by case_decide. }
  assert (Hel : ∀ id e, elementOf sp id = Some e → elementOf st id = Some e).
  { intros id e. rewrite !elementOf_Some. rewrite Hheap.
    intros (this & ref & Hid & Href & He). eauto 6. }
  exists sp. split; [done|]. split.
  { split.
    - intros id Hin. rewrite HbyId'. case_decide; [|done]. by apply (wf_plain _ Hwf).
    - intros id1 id2 this H1 H2. eapply (wf_table_inj _ Hwf); eauto.
    - intros id this Hid. rewrite Hheap, Hnext, Hdoc.
      eapply (wf_ref _ Hwf); eauto.
    - intros id1 id2 e H1 H2. eapply (wf_element_inj _ Hwf); eauto.
    - intros p Hp. rewrite Hnext. apply (wf_scene _ Hwf).
      rewrite Hscene in Hp. by apply list_elem_of_filter in Hp as [_ ?]. }
  do 5 (split; [done|]). split; [done|]. split; [done|]. split; [done|].
  intros id e He Hin. apply Hel in He.
  apply list_elem_of_fmap in Hin as ([e' d] & -> & Hin).
  rewrite Hscene in Hin. apply list_elem_of_filter in Hin as [Hn _].
  apply Hn. simpl. apply elem_of_ownedElements. eauto.
Qed.

(** ** One iteration of the render loop *)

Section RenderShape.
Context (isProduction : bool) (props : EditorProps).
Context (doc : Doc) (shape : DiagramShape).

Lemma renderShape_existing st this stR ref e :
  shapeRefsById st !! shape_id shape = Some this →
  ShapeRef_render this shape st = (Return tt, stR) →
  heap stR !! this = Some ref →
  renderedElement ref = Some e →
  renderShape isProduction props doc shape st =
  (Return tt, registeredAs shape this e stR).
Proof.
  intros Hid Hrender Href He.
  unfold renderShape, bind at 1, gets at 1. rewrite (Object_get_own _ _ _ Hid).
  unfold bind at 1, ret at 1.
  rewrite (bind_Return _ _ _ _ _ Hrender).
  by rewrite (bind_Return _ _ _ _ _ (ShapeRef_renderId_Return _ _ _ _ Href He)).
Qed.

Lemma renderShape_new st stR ref e :
  shapeRefsById st !! shape_id shape = None →
  shape_id shape ∉ Object_prototype →
  ShapeRef_render (length (heap st)) shape
    (set_heap (heap st ++
       [newShapeRef doc (rendererService props !! shape_renderer shape)
          (negb isProduction)]) st) = (Return tt, stR) →
  heap stR !! length (heap st) = Some ref →
  renderedElement ref = Some e →
  renderShape isProduction props doc shape st =
  (Return tt, registeredAs shape (length (heap st)) e stR).
Proof.
  intros Hid Hown Hrender Href He.
  unfold renderShape, bind at 1, gets at 1. rewrite (Object_get_plain _ _ Hown), Hid.
  unfold bind at 1, ShapeRef_new at 1.
  fold (newShapeRef doc (rendererService props !! shape_renderer shape)
          (negb isProduction)).
  rewrite (bind_Return _ _ _ _ _ Hrender).
  by rewrite (bind_Return _ _ _ _ _ (ShapeRef_renderId_Return _ _ _ _ Href He)).
Qed.

(** A shape with no ref and no registry entry: the new [ShapeRef] is built
    around [undefined], and its [render] throws before anything is drawn
    or registered. *)
Lemma renderShape_unresolved st :
  shapeRefsById st !! shape_id shape = None →
  shape_id shape ∉ Object_prototype →
  rendererService props !! shape_renderer shape = None →
  renderShape isProduction props doc shape st =
  (Throw TypeError,
   set_heap (heap st ++ [newShapeRef doc None (negb isProduction)]) st).
Proof.
  intros Hid Hown Hreg.
  unfold renderShape, bind at 1, gets at 1.
  rewrite (Object_get_plain _ _ Hown), Hid, Hreg.
  unfold bind at 1, ShapeRef_new at 1.
  fold (newShapeRef doc None (negb isProduction)).
  erewrite bind_Throw; [done|].
  apply ShapeRef_render_unresolved with (ref := newShapeRef doc None (negb isProduction));
    [|done..].
  cbn [heap set_heap]. by apply list_lookup_middle.
Qed.

(** A shape with no ref whose id names an inherited property: the read of
    the table yields that property, and the call of its [render] throws with
    nothing built, drawn or registered. *)
Lemma renderShape_inherited st :
  shapeRefsById st !! shape_id shape = None →
  shape_id shape ∈ Object_prototype →
  renderShape isProduction props doc shape st = (Throw TypeError, st).
Proof.
  intros Hid Hin.
  unfold renderShape, bind at 1, gets at 1.
  by rewrite (Object_get_inherited _ _ Hid Hin).
Qed.

Lemma filter_fresh (sc : list (Element * Doc)) e :
  (∀ p, p ∈ sc → p.1 < e) → filter (λ p, p.1 ≠ e) sc = sc.
Proof. intros H. apply filter_id. intros p Hp. apply H in Hp. lia. Qed.

(** Every iteration from a state between passes either returns as
    described by [stepped], or meets a shape without ref that has an id
    naming an inherited property or has no registry entry, and throws. *)
Lemma renderShape_cases st :
  wf st →
  diagramDoc st = Some doc →
  (∃ st' this e,
     renderShape isProduction props doc shape st = (Return tt, st') ∧
     stepped doc shape st st' this e) ∨
  (shapeRefsById st !! shape_id shape = None ∧
   (shape_id shape ∈ Object_prototype ∨
    rendererService props !! shape_renderer shape = None) ∧
   renderShape isProduction props doc shape st =
     (Throw TypeError, thrownAt isProduction doc shape st)).
Proof.
  intros Hwf Hdoc.
  destruct (shapeRefsById st !! shape_id shape) as [this|] eqn:Hid.
  - left.
    pose proof (plain_registered _ _ _ (wf_plain _ Hwf) Hid) as Hown.
    destruct (wf_elementOf _ _ _ Hwf Hid)
      as (ref & e & r & Href & He & Hel & Hlt & Hr & Hd).
    assert (ref_doc ref = doc) as Hrd by congruence.
    assert (Hlen : this < length (heap st)) by by eapply lookup_lt_Some.
    destruct (mustRender ref shape) eqn:Hm.
    + exists (registeredAs shape this (nextElement st)
                (rerendered this ref r shape st)), this, (nextElement st).
      split.
      { eapply renderShape_existing; [done|by apply ShapeRef_render_full|..].
        - cbn. by apply list_lookup_insert_eq.
        - done. }
      split; cbn; try done.
      * by left.
      * exists (set_shape shape (set_renderedElement (nextElement st) ref)), r.
        split; [by apply list_lookup_insert_eq|done].
      * intros l Hl. by apply list_lookup_insert_ne.
      * rewrite Hrd. f_equal. symmetry. apply filter_fresh, (wf_scene _ Hwf).
      * lia.
      * right. exists r, (showDebugMarkers ref). repeat split; try done.
        intros ref0. rewrite Href. by intros [= <-].
    + exists (registeredAs shape this e (reattached this ref e shape st)), this, e.
      split.
      { eapply renderShape_existing; [done|by apply ShapeRef_render_cheap|..].
        - cbn. by apply list_lookup_insert_eq.
        - done. }
      apply mustRender_false in Hm as (last & e' & Hlast & Hobj & He').
      split; cbn; try done.
      * by left.
      * exists (set_shape shape ref), r.
        split; [by apply list_lookup_insert_eq|done].
      * intros l Hl. by apply list_lookup_insert_ne.
      * by rewrite Hrd.
      * left. repeat split; try done. eauto.
  - destruct (decide (shape_id shape ∈ Object_prototype)) as [Hin|Hown].
    { right. split; [done|]. split; [by left|].
      unfold thrownAt. rewrite decide_True by done.
      by apply renderShape_inherited. }
    destruct (rendererService props !! shape_renderer shape) as [r|] eqn:Hreg.
    + left.
      set (new := newShapeRef doc (Some r) (negb isProduction)).
      set (st0 := set_heap (heap st ++ [new]) st).
      assert (Hnew : heap st0 !! length (heap st) = Some new).
      { subst st0. cbn. by apply list_lookup_middle. }
      exists (registeredAs shape (length (heap st)) (nextElement st)
                (rerendered (length (heap st)) new r shape st0)),
             (length (heap st)), (nextElement st).
      split.
      { eapply renderShape_new; [done|done| |..].
        - rewrite Hreg. fold new. fold st0.
          apply ShapeRef_render_full; [done..|].
          apply mustRender_true. by right.
        - cbn. apply list_lookup_insert_eq. rewrite length_app. simpl. lia.
        - done. }
      split; cbn; try done.
      * right. done.
      * exists (set_shape shape (set_renderedElement (nextElement st) new)), r.
        split; [|done].
        apply list_lookup_insert_eq. rewrite length_app. simpl. lia.
      * intros l Hl. rewrite list_lookup_insert_ne by done.
        destruct (decide (l < length (heap st))).
        -- by rewrite lookup_app_l.
        -- rewrite !lookup_ge_None_2; [done|lia|].
           rewrite length_app. simpl. lia.
      * f_equal. symmetry. apply filter_fresh, (wf_scene _ Hwf).
      * lia.
      * right. exists r, (negb isProduction). repeat split; try done.
        intros ref0 H. apply lookup_lt_Some in H. lia.
    + right. split; [done|]. split; [by right|].
      unfold thrownAt. rewrite decide_False by done.
      by apply renderShape_unresolved.
Qed.
End RenderShape.

(** ** Consequences of one returning iteration *)

Lemma elementOf_refOf st id : elementOf st id = refOf st id ≫= renderedElement.
Proof. unfold elementOf, refOf. by destruct (shapeRefsById st !! id). Qed.

Lemma refOf_Some st id ref :
  refOf st id = Some ref ↔
  ∃ this, shapeRefsById st !! id = Some this ∧ heap st !! this = Some ref.
Proof. unfold refOf. by rewrite bind_Some. Qed.

Section Stepped.
Context (doc : Doc) (shape : DiagramShape) (st st' : Editor).
Context (this : Loc) (e : Element).
Context (Hwf : wf st) (Hdoc : diagramDoc st = Some doc).
Context (Hstep : stepped doc shape st st' this e).

Lemma stepped_refOf_this :
  ∃ ref r, refOf st' (shape_id shape) = Some ref ∧ ref_shape ref = Some shape ∧
           renderedElement ref = Some e ∧ ref_doc ref = doc ∧
           ref_renderer ref = Some r.
Proof.
  destruct (stepped_ref _ _ _ _ _ _ Hstep) as (ref & r & Href & ?).
  exists ref, r. split; [|done]. apply refOf_Some. exists this.
  by rewrite (stepped_byId _ _ _ _ _ _ Hstep), lookup_insert_eq.
Qed.

Lemma stepped_elementOf_this : elementOf st' (shape_id shape) = Some e.
Proof.
  destruct stepped_refOf_this as (ref & r & Href & _ & He & _).
  by rewrite elementOf_refOf, Href.
Qed.

Lemma stepped_shapeOf_this : shapeOf st' (shape_id shape) = Some shape.
Proof.
  destruct stepped_refOf_this as (ref & r & Href & Hs & _).
  unfold shapeOf. by rewrite Href.
Qed.

(** The refs registered under other ids are other objects. *)
Lemma stepped_this_fresh id l :
  id ≠ shape_id shape → shapeRefsById st !! id = Some l → l ≠ this.
Proof.
  intros Hne Hid ->.
  destruct (stepped_this _ _ _ _ _ _ Hstep) as [Hthis|[_ ->]].
  - apply Hne. by eapply (wf_table_inj _ Hwf).
  - destruct (wf_ref _ Hwf _ _ Hid) as (ref & _ & _ & Href & _).
    apply lookup_lt_Some in Href. lia.
Qed.

Lemma stepped_byId_other id :
  id ≠ shape_id shape → shapeRefsById st' !! id = shapeRefsById st !! id.
Proof.
  intros Hne. rewrite (stepped_byId _ _ _ _ _ _ Hstep).
  by apply lookup_insert_ne.
Qed.

Lemma stepped_refOf_other id :
  id ≠ shape_id shape → refOf st' id = refOf st id.
Proof.
  intros Hne. unfold refOf. rewrite stepped_byId_other by done.
  destruct (shapeRefsById st !! id) as [l|] eqn:Hid; [|done]. simpl.
  apply (stepped_heap _ _ _ _ _ _ Hstep). by eapply stepped_this_fresh.
Qed.

Lemma stepped_elementOf_other id :
  id ≠ shape_id shape → elementOf st' id = elementOf st id.
Proof. intros Hne. by rewrite !elementOf_refOf, stepped_refOf_other. Qed.

Lemma stepped_shapeOf_other id :
  id ≠ shape_id shape → shapeOf st' id = shapeOf st id.
Proof. intros Hne. unfold shapeOf. by rewrite stepped_refOf_other. Qed.

Lemma stepped_element_lt : e < nextElement st'.
Proof.
  destruct (stepped_how _ _ _ _ _ _ Hstep)
    as [(_ & -> & He & _)|(r & dbg & _ & -> & -> & _)]; [|lia].
  apply elementOf_Some in He as (l & ref & Hid & Href & He).
  destruct (wf_ref _ Hwf _ _ Hid) as (ref' & e' & _ & Href' & He' & Hlt & _).
  congruence.
Qed.

(** The element of the iteration belongs to no ref registered under
    another id. *)
Lemma stepped_element_other id :
  id ≠ shape_id shape → elementOf st id ≠ Some e.
Proof.
  intros Hne He.
  destruct (stepped_how _ _ _ _ _ _ Hstep)
    as [(_ & _ & He' & _)|(r & dbg & _ & -> & _)].
  - apply Hne. by eapply (wf_element_inj _ Hwf).
  - apply elementOf_Some in He as (l & ref & Hid & Href & He).
    destruct (wf_ref _ Hwf _ _ Hid) as (ref' & e' & _ & Href' & He' & Hlt & _).
    assert (e' = nextElement st) by congruence. lia.
Qed.

Lemma stepped_wf : wf st'.
Proof.
  split.
  - intros id Hin. rewrite (stepped_byId _ _ _ _ _ _ Hstep).
    apply lookup_insert_None. split; [by apply (wf_plain _ Hwf)|].
    intros <-. by apply (stepped_plain _ _ _ _ _ _ Hstep).
  - intros id1 id2 l H1 H2.
    destruct (decide (id1 = shape_id shape)) as [->|Hn1],
             (decide (id2 = shape_id shape)) as [->|Hn2]; [done|..].
    + rewrite (stepped_byId _ _ _ _ _ _ Hstep), lookup_insert_eq in H1.
      injection H1 as <-. rewrite stepped_byId_other in H2 by done.
      by destruct (stepped_this_fresh id2 this).
    + rewrite (stepped_byId _ _ _ _ _ _ Hstep), lookup_insert_eq in H2.
      injection H2 as <-. rewrite stepped_byId_other in H1 by done.
      by destruct (stepped_this_fresh id1 this).
    + rewrite stepped_byId_other in H1, H2 by done.
      by eapply (wf_table_inj _ Hwf).
  - intros id l Hid.
    destruct (decide (id = shape_id shape)) as [->|Hne].
    + rewrite (stepped_byId _ _ _ _ _ _ Hstep), lookup_insert_eq in Hid.
      injection Hid as <-.
      destruct (stepped_ref _ _ _ _ _ _ Hstep) as (ref & r & Href & _ & He & Hd & Hr).
      exists ref, e, r. repeat split; try done.
      * apply stepped_element_lt.
      * by rewrite (stepped_doc _ _ _ _ _ _ Hstep), Hd.
    + rewrite stepped_byId_other in Hid by done.
      destruct (wf_ref _ Hwf _ _ Hid) as (ref & e' & r & Href & He & Hlt & Hr & Hd).
      exists ref, e', r.
      rewrite (stepped_heap _ _ _ _ _ _ Hstep) by by eapply stepped_this_fresh.
      rewrite (stepped_doc _ _ _ _ _ _ Hstep).
      pose proof (stepped_next _ _ _ _ _ _ Hstep). repeat split; try done. lia.
  - intros id1 id2 e0 H1 H2.
    destruct (decide (id1 = shape_id shape)) as [->|Hn1],
             (decide (id2 = shape_id shape)) as [->|Hn2]; [done|..].
    + rewrite stepped_elementOf_this in H1. injection H1 as <-.
      rewrite stepped_elementOf_other in H2 by done.
      by destruct (stepped_element_other id2).
    + rewrite stepped_elementOf_this in H2. injection H2 as <-.
      rewrite stepped_elementOf_other in H1 by done.
      by destruct (stepped_element_other id1).
    + rewrite stepped_elementOf_other in H1, H2 by done.
      by eapply (wf_element_inj _ Hwf).
  - intros p. rewrite (stepped_scene _ _ _ _ _ _ Hstep), elem_of_app.
    intros [Hp|Hp].
    + apply list_elem_of_filter in Hp as [_ Hp].
      apply (wf_scene _ Hwf) in Hp.
      pose proof (stepped_next _ _ _ _ _ _ Hstep). lia.
    + apply list_elem_of_singleton in Hp as ->. apply stepped_element_lt.
Qed.

Lemma stepped_scene_elem p :
  p ∈ scene st' ↔ (p ∈ scene st ∧ p.1 ≠ e) ∨ p = (e, doc).
Proof.
  rewrite (stepped_scene _ _ _ _ _ _ Hstep), elem_of_app,
    list_elem_of_filter, list_elem_of_singleton. tauto.
Qed.

Lemma stepped_callsSince st0 :
  length (renderLog st0) ≤ length (renderLog st) →
  ∀ c, c ∈ callsSince st0 st' →
       c ∈ callsSince st0 st ∨ (call_shape c = shape ∧ e = nextElement st).
Proof.
  intros Hlen c. unfold callsSince.
  destruct (stepped_how _ _ _ _ _ _ Hstep)
    as [(-> & _)|(r & dbg & -> & He & _)]; [by left|].
  rewrite drop_app_le by done. rewrite elem_of_app, list_elem_of_singleton.
  intros [H| ->]; [by left|right; by split].
Qed.

Lemma stepped_log_length : length (renderLog st) ≤ length (renderLog st').
Proof.
  destruct (stepped_how _ _ _ _ _ _ Hstep)
    as [(-> & _)|(r & dbg & -> & _)]; [done|].
  rewrite length_app. lia.
Qed.
End Stepped.

(** ** Loops with invariants *)

(** An invariant indexed by the elements already visited holds after a loop
    that returns, when every returning iteration extends it. *)
Lemma forEach_Return_visited {A} (body : A → M unit)
    (I : list A → Editor → Prop) l :
  (∀ visited x rest st st',
     l = visited ++ x :: rest → I visited st →
     body x st = (Return tt, st') → I (visited ++ [x]) st') →
  ∀ st st', I [] st → forEach body l st = (Return tt, st') → I l st'.
Proof.
  intros Hstep.
  assert (H : ∀ todo visited st st',
            l = visited ++ todo → I visited st →
            forEach body todo st = (Return tt, st') → I l st').
  { induction todo as [|x todo IH]; intros visited st st' Hl HI Hrun.
    - injection Hrun as <-. by rewrite Hl, app_nil_r.
    - simpl in Hrun. unfold bind in Hrun.
      destruct (body x st) as [[[]|ex] st1] eqn:E; [|discriminate].
      apply (IH (visited ++ [x]) st1 st'); [|by eapply Hstep|done].
      by rewrite <- app_assoc. }
  intros st st'. by apply (H l []).
Qed.

(** When every iteration returns and extends the invariant, the loop
    returns. *)
Lemma forEach_total_visited {A} (body : A → M unit)
    (I : list A → Editor → Prop) l :
  (∀ visited x rest st,
     l = visited ++ x :: rest → I visited st →
     ∃ st', body x st = (Return tt, st') ∧ I (visited ++ [x]) st') →
  ∀ st, I [] st → ∃ st', forEach body l st = (Return tt, st') ∧ I l st'.
Proof.
  intros Hstep.
  assert (H : ∀ todo visited st,
            l = visited ++ todo → I visited st →
            ∃ st', forEach body todo st = (Return tt, st') ∧ I l st').
  { induction todo as [|x todo IH]; intros visited st Hl HI.
    - exists st. by rewrite Hl, app_nil_r.
    - destruct (Hstep visited x todo st Hl HI) as (st1 & Hx & HI1).
      destruct (IH (visited ++ [x]) st1) as (st' & Hrun & HI'); [|done|].
      { by rewrite <- app_assoc. }
      exists st'. split; [|done]. simpl. by rewrite (bind_Return _ _ _ _ _ Hx). }
  intros st. by apply (H l []).
Qed.

(** ** The render loop *)

Section RenderLoop.
Context (isProduction : bool) (props : EditorProps) (doc : Doc).

Lemma renderShape_Return_stepped shape st st' :
  wf st → diagramDoc st = Some doc →
  renderShape isProduction props doc shape st = (Return tt, st') →
  ∃ this e, stepped doc shape st st' this e.
Proof.
  intros Hwf Hdoc Hrun.
  destruct (renderShape_cases isProduction props doc shape st Hwf Hdoc)
    as [(st'' & this & e & Hrun' & Hstep)|(_ & _ & Hrun')].
  - rewrite Hrun in Hrun'. injection Hrun' as <-. eauto.
  - rewrite Hrun in Hrun'. discriminate.
Qed.

Lemma looping_start sp :
  wf sp → diagramDoc sp = Some doc →
  (∀ id e, elementOf sp id = Some e → e ∉ (scene sp).*1) →
  looping doc sp [] sp.
Proof.
  intros Hwf Hdoc Hdet. split; try done.
  - intros s Hs. by apply elem_of_nil in Hs.
  - intros c. unfold callsSince. rewrite drop_all. by intros ?%elem_of_nil.
  - intros id e _. apply Hdet.
  - intros id e He. by left.
Qed.

Lemma looping_step sp visited shape st st' this e :
  looping doc sp visited st →
  stepped doc shape st st' this e →
  looping doc sp (visited ++ [shape]) st'.
Proof.
  intros Hl Hstep.
  pose proof (looping_wf _ _ _ _ Hl) as Hwf.
  pose proof (looping_doc _ _ _ _ Hl) as Hdoc.
  assert (Hnotin : ∀ id, id ∉ (shape_id <$> (visited ++ [shape])) →
                         (id ∉ shape_id <$> visited) ∧ (id ≠ shape_id shape)).
  { intros id. rewrite fmap_app, elem_of_app. simpl.
    rewrite list_elem_of_singleton. tauto. }
  split.
  - by eapply stepped_wf.
  - by rewrite (stepped_doc _ _ _ _ _ _ Hstep).
  - pose proof (stepped_log_length _ _ _ _ _ _ Hstep).
    pose proof (looping_log _ _ _ _ Hl). lia.
  - pose proof (stepped_next _ _ _ _ _ _ Hstep).
    pose proof (looping_next _ _ _ _ Hl). lia.
  - intros s Hs.
    destruct (decide (shape_id s = shape_id shape)) as [Heq|Hne].
    + exists this, e. rewrite Heq.
      rewrite (stepped_byId _ _ _ _ _ _ Hstep), lookup_insert_eq.
      rewrite (stepped_byElement _ _ _ _ _ _ Hstep), lookup_insert_eq.
      repeat split; try done.
      * by eapply stepped_elementOf_this.
      * eapply stepped_scene_elem; [done|]. by right.
    + apply elem_of_app in Hs as [Hs|Hs];
        [|apply list_elem_of_singleton in Hs; by subst].
      destruct (looping_attached _ _ _ _ Hl s Hs) as (l & e' & Hid & Hel & He' & Hsc).
      assert (e' ≠ e).
      { intros ->. by eapply (stepped_element_other doc shape st st' this e). }
      exists l, e'.
      rewrite (stepped_byId_other doc shape st st' this e) by done.
      rewrite (stepped_byElement _ _ _ _ _ _ Hstep), lookup_insert_ne by done.
      rewrite (stepped_elementOf_other doc shape st st' this e) by done.
      repeat split; try done.
      eapply stepped_scene_elem; [done|]. by left.
  - intros c Hc.
    eapply stepped_callsSince in Hc as [Hc|[-> _]];
      [| |done|by apply (looping_log _ _ _ _ Hl)].
    + apply elem_of_app. left. by apply (looping_calls _ _ _ _ Hl).
    + apply elem_of_app. right. by apply list_elem_of_singleton.
  - intros id [Hv Hne]%Hnotin.
    rewrite (stepped_byId_other doc shape st st' this e) by done.
    rewrite (stepped_refOf_other doc shape st st' this e) by done.
    by apply (looping_untouched _ _ _ _ Hl).
  - intros id e' [Hv Hne]%Hnotin.
    rewrite (stepped_elementOf_other doc shape st st' this e) by done.
    intros He' Hin.
    apply list_elem_of_fmap in Hin as ([e0 d] & Heq & Hin).
    simpl in Heq. subst e'.
    eapply stepped_scene_elem in Hin as [[Hin _]|Heq]; [| |done].
    + apply (looping_detached _ _ _ _ Hl id e0 Hv He').
      apply list_elem_of_fmap. by exists (e0, d).
    + injection Heq as Heq _. rewrite Heq in He'.
      by eapply stepped_element_other with (id := id).
  - intros id l Hid. apply (looping_kept _ _ _ _ Hl) in Hid.
    destruct (decide (id = shape_id shape)) as [->|Hne].
    + rewrite (stepped_byId _ _ _ _ _ _ Hstep), lookup_insert_eq.
      destruct (stepped_this _ _ _ _ _ _ Hstep) as [?|[? _]]; congruence.
    + by rewrite (stepped_byId_other doc shape st st' this e).
  - intros id e' He'.
    pose proof (looping_next _ _ _ _ Hl) as Hnext.
    destruct (decide (id = shape_id shape)) as [->|Hne].
    + erewrite stepped_elementOf_this in He' by done. injection He' as <-.
      destruct (stepped_how _ _ _ _ _ _ Hstep)
        as [(_ & _ & He & _)|(r & dbg & _ & -> & _)]; [|right; lia].
      by apply (looping_owned _ _ _ _ Hl).
    + rewrite (stepped_elementOf_other doc shape st st' this e) in He' by done.
      by apply (looping_owned _ _ _ _ Hl).
Qed.

(** A render loop that returns. *)
Lemma renderLoop_Return sp shapes st' :
  wf sp → diagramDoc sp = Some doc →
  (∀ id e, elementOf sp id = Some e → e ∉ (scene sp).*1) →
  forEach (renderShape isProduction props doc) shapes sp = (Return tt, st') →
  looping doc sp shapes st'.
Proof.
  intros Hwf Hdoc Hdet.
  apply (forEach_Return_visited _ (looping doc sp)); [|by apply looping_start].
  intros visited x rest st st1 _ Hl Hrun.
  destruct (renderShape_Return_stepped x st st1) as (this & e & Hstep);
    [by apply (looping_wf _ _ _ _ Hl)|by apply (looping_doc _ _ _ _ Hl)|done|].
  by eapply looping_step.
Qed.

(** The render loop returns when every shape has a ref from before the
    pass, or an id that names no inherited property and a renderer in the
    registry. *)
Lemma renderLoop_total sp shapes :
  wf sp → diagramDoc sp = Some doc →
  (∀ id e, elementOf sp id = Some e → e ∉ (scene sp).*1) →
  (∀ s, s ∈ shapes →
        is_Some (shapeRefsById sp !! shape_id s) ∨
        ((shape_id s ∉ Object_prototype) ∧
         is_Some (rendererService props !! shape_renderer s))) →
  ∃ st',
    forEach (renderShape isProduction props doc) shapes sp = (Return tt, st') ∧
    looping doc sp shapes st'.
Proof.
  intros Hwf Hdoc Hdet Hok.
  apply (forEach_total_visited _ (looping doc sp)); [|by apply looping_start].
  intros visited x rest st Hshapes Hl.
  destruct (renderShape_cases isProduction props doc x st)
    as [(st1 & this & e & Hrun & Hstep)|(Hid & Hwhy & _)];
    [by apply (looping_wf _ _ _ _ Hl)|by apply (looping_doc _ _ _ _ Hl)|..].
  - exists st1. split; [done|]. by eapply looping_step.
  - exfalso. destruct (Hok x) as [[l Hl']|[Hown [r Hr]]].
    + rewrite Hshapes. apply elem_of_app. right. left.
    + apply (looping_kept _ _ _ _ Hl) in Hl'. congruence.
    + destruct Hwhy as [Hin|Hreg]; [done|congruence].
Qed.
End RenderLoop.

(** ** A whole pass *)

Section Pass.
Context (isProduction : bool) (props : EditorProps).

Lemma renderDiagram_reconcile fuel st doc shapes :
  diagramDoc st = Some doc →
  getFlattenShapes fuel (selectedDiagram props) = Some shapes →
  renderDiagram isProduction props fuel st =
  reconcile isProduction props doc shapes st.
Proof.
  intros Hdoc Hflat. unfold renderDiagram, bind at 1, gets at 1.
  by rewrite Hdoc, Hflat.
Qed.

(** A pass from a state between passes is the render loop run on the
    state the prune loop returns. *)
Lemma reconcile_pruned st doc shapes :
  wf st → diagramDoc st = Some doc →
  ∃ sp,
    reconcile isProduction props doc shapes st =
      forEach (renderShape isProduction props doc) shapes sp ∧
    wf sp ∧ diagramDoc sp = Some doc ∧ heap sp = heap st ∧
    nextElement sp = nextElement st ∧ renderLog sp = renderLog st ∧
    scene sp = filter (λ p, p.1 ∉ ownedElements st) (scene st) ∧
    (∀ id, shapeRefsById sp !! id =
           if decide (id ∈ shape_id <$> shapes) then shapeRefsById st !! id
           else None) ∧
    (∀ e, shapeRefsByRenderElement sp !! e =
          if decide (e ∈ staleElements (liveIds shapes) st) then None
          else shapeRefsByRenderElement st !! e) ∧
    (∀ id e, elementOf sp id = Some e → e ∉ (scene sp).*1).
Proof.
  intros Hwf Hdoc.
  destruct (prune_spec (liveIds shapes) st Hwf)
    as (sp & Hrun & Hwfp & Hdocp & Hheap & Hnext & _ & Hlog & Hscene & HbyId
        & HbyEl & Hdet).
  exists sp. split.
  { unfold reconcile, bind at 1, gets at 1.
    by rewrite (bind_Return _ _ _ _ _ Hrun). }
  split; [done|]. split; [congruence|]. do 4 (split; [done|]).
  split; [|done].
  intros id. rewrite HbyId.
  destruct (decide (live (liveIds shapes) id)) as [Hl|Hl];
    rewrite liveIds_spec in Hl; by case_decide.
Qed.

Lemma pruned_refOf st sp (shapes : list DiagramShape) id :
  heap sp = heap st →
  (∀ id, shapeRefsById sp !! id =
         if decide (id ∈ shape_id <$> shapes) then shapeRefsById st !! id
         else None) →
  refOf sp id = if decide (id ∈ shape_id <$> shapes) then refOf st id else None.
Proof.
  intros Hheap HbyId. unfold refOf. rewrite HbyId, Hheap. by case_decide.
Qed.

Lemma pruned_elementOf st sp (shapes : list DiagramShape) id e :
  heap sp = heap st →
  (∀ id, shapeRefsById sp !! id =
         if decide (id ∈ shape_id <$> shapes) then shapeRefsById st !! id
         else None) →
  elementOf sp id = Some e → elementOf st id = Some e.
Proof.
  intros Hheap HbyId. rewrite !elementOf_refOf.
  rewrite (pruned_refOf st sp shapes) by done. by case_decide.
Qed.
End Pass.

(** ** Paint order *)

Lemma filter_none {A} (P : A → Prop) `{∀ x, Decision (P x)} (l : list A) :
  (∀ x, x ∈ l → ¬ P x) → filter P l = [].
Proof.
  induction l as [|x l IH]; intros Hl; [done|].
  rewrite filter_cons, decide_False by (apply Hl; left).
  apply IH. intros y Hy. apply Hl. by right.
Qed.

Section PaintOrder.
Context (isProduction : bool) (props : EditorProps) (doc : Doc).

Lemma ordered_step sp visited shape st st' this e :
  looping doc sp visited st →
  ordered doc sp visited st →
  shape_id shape ∉ shape_id <$> visited →
  stepped doc shape st st' this e →
  ordered doc sp (visited ++ [shape]) st'.
Proof.
  intros Hl (es & Hscene & Hes) Hnew Hstep.
  pose proof (looping_wf _ _ _ _ Hl) as Hwf.
  assert (Hdet : ∀ p, p ∈ scene st → p.1 ≠ e).
  { intros p Hp Heq.
    destruct (stepped_how _ _ _ _ _ _ Hstep)
      as [(_ & _ & He & _)|(r & dbg & _ & He & _)].
    - apply (looping_detached _ _ _ _ Hl _ _ Hnew He).
      apply list_elem_of_fmap. by exists p.
    - apply (wf_scene _ Hwf) in Hp. lia. }
  exists (es ++ [e]). split.
  - rewrite (stepped_scene _ _ _ _ _ _ Hstep), filter_id by done.
    by rewrite Hscene, fmap_app, app_assoc.
  - apply Forall2_app.
    + apply Forall2_same_length_lookup. split; [by eapply Forall2_length|].
      intros i s e' Hs He'.
      rewrite (stepped_elementOf_other doc shape st st' this e); [|done..|].
      * exact (Forall2_lookup_lr _ _ _ _ _ _ Hes Hs He').
      * intros Heq. apply Hnew. rewrite <- Heq.
        apply list_elem_of_fmap_2. by eapply list_elem_of_lookup_2.
    + constructor; [|constructor]. by eapply stepped_elementOf_this.
Qed.

(** With pairwise distinct ids, the render loop appends the elements of
    the shapes to the pruned scene in the order of the list. *)
Lemma renderLoop_ordered sp shapes st' :
  wf sp → diagramDoc sp = Some doc →
  (∀ id e, elementOf sp id = Some e → e ∉ (scene sp).*1) →
  NoDup (shape_id <$> shapes) →
  forEach (renderShape isProduction props doc) shapes sp = (Return tt, st') →
  looping doc sp shapes st' ∧ ordered doc sp shapes st'.
Proof.
  intros Hwf Hdoc Hdet Hnd.
  apply (forEach_Return_visited _
           (λ visited st, looping doc sp visited st ∧ ordered doc sp visited st)).
  - intros visited x rest st st1 Hshapes [Hl Hord] Hrun.
    destruct (renderShape_Return_stepped isProduction props doc x st st1)
      as (this & e & Hstep);
      [by apply (looping_wf _ _ _ _ Hl)|by apply (looping_doc _ _ _ _ Hl)|done|].
    split; [by eapply looping_step|].
    eapply ordered_step; [done..| |done].
    rewrite Hshapes, fmap_app in Hnd. apply NoDup_app in Hnd as (_ & Hnd & _).
    intros Hin. apply (Hnd _ Hin). simpl. left.
  - split; [by apply looping_start|].
    exists []. simpl. by rewrite app_nil_r.
Qed.
End PaintOrder.

(** Claim C7: after a pass that returns, on a diagram whose flattened shapes
    have pairwise distinct ids, the scene is what the prune loop left of it
    (the old scene without any element of a registered ref) followed by the
    elements of the flattened shapes in flattened order; so the shape
    elements among the children of the scene document are exactly those
    elements, first flattened first and last flattened on top. *)
Theorem renderDiagram_paint_order_is_flatten_order :
  ∀ isProduction props fuel st st' doc shapes,
    wf st →
    diagramDoc st = Some doc →
    getFlattenShapes fuel (selectedDiagram props) = Some shapes →
    NoDup (shape_id <$> shapes) →
    renderDiagram isProduction props fuel st = (Return tt, st') →
    ∃ es,
      Forall2 (λ s e, elementOf st' (shape_id s) = Some e) shapes es ∧
      scene st' = filter (λ p, p.1 ∉ ownedElements st) (scene st) ++
                  ((λ e, (e, doc)) <$> es) ∧
      shapeElements doc st' = es.
Proof.
  intros isProduction props fuel st st' doc shapes Hwf Hdoc Hflat Hnd Hrun.
  rewrite (renderDiagram_reconcile _ _ _ _ doc shapes) in Hrun by done.
  destruct (reconcile_pruned isProduction props st doc shapes Hwf Hdoc)
    as (sp & Hrec & Hwfp & Hdocp & Hheap & Hnext & Hlog & Hscene & HbyId & _ & Hdet).
  rewrite Hrec in Hrun.
  destruct (renderLoop_ordered isProduction props doc sp shapes st')
    as [Hl (es & Hsc & Hes)]; [done..|].
  exists es. split; [done|]. split; [by rewrite Hsc, Hscene|].
  unfold shapeElements, children. rewrite Hsc, filter_app, fmap_app, filter_app.
  rewrite (filter_id _ ((λ e, (e, doc)) <$> es)).
  2:{ intros p Hp. apply list_elem_of_fmap in Hp as (e & -> & _). done. }
  assert (Hfst : ∀ l : list nat, ((λ e : nat, (e, doc)) <$> l).*1 = l).
  { induction l as [|e l IH]; [done|]. rewrite !fmap_cons. by f_equal. }
  change es with ([] ++ es) at 2. f_equal.
  - apply filter_none. intros e He Hown.
    apply list_elem_of_fmap in He as (p & -> & Hp).
    apply list_elem_of_filter in Hp as [_ Hp].
    rewrite Hscene in Hp. apply list_elem_of_filter in Hp as [Hnot Hp].
    apply elem_of_ownedElements in Hown as [id Hid].
    destruct (looping_owned _ _ _ _ Hl _ _ Hid) as [Hold|Hfresh].
    + apply Hnot. apply elem_of_ownedElements. exists id.
      by eapply pruned_elementOf.
    + apply (wf_scene _ Hwf) in Hp. lia.
  - rewrite Hfst. apply filter_id.
    intros e He. apply elem_of_ownedElements.
    apply list_elem_of_lookup in He as [i He].
    destruct (Forall2_lookup_r _ _ _ _ _ Hes He) as (s & _ & Hs). eauto.
Qed.

(** ** The invariant between passes *)

Lemma refOf_alloc st ref id :
  wf st → refOf (set_heap (heap st ++ [ref]) st) id = refOf st id.
Proof.
  intros Hwf. unfold refOf. cbn.
  destruct (shapeRefsById st !! id) as [this|] eqn:Hid; [|done]. simpl.
  destruct (wf_ref _ Hwf _ _ Hid) as (ref' & _ & _ & Href & _).
  apply lookup_app_l. by eapply lookup_lt_Some.
Qed.

Lemma elementOf_alloc st ref id :
  wf st → elementOf (set_heap (heap st ++ [ref]) st) id = elementOf st id.
Proof. intros Hwf. by rewrite !elementOf_refOf, refOf_alloc. Qed.

Lemma wf_alloc st ref : wf st → wf (set_heap (heap st ++ [ref]) st).
Proof.
  intros Hwf. split.
  - apply (wf_plain _ Hwf).
  - apply (wf_table_inj _ Hwf).
  - intros id this Hid. cbn in *.
    destruct (wf_ref _ Hwf _ _ Hid) as (ref' & e & r & Href & ?).
    exists ref', e, r. split; [|done].
    rewrite lookup_app_l; [done|]. by eapply lookup_lt_Some.
  - intros id1 id2 e. rewrite !elementOf_alloc by done.
    apply (wf_element_inj _ Hwf).
  - apply (wf_scene _ Hwf).
Qed.

Lemma wf_thrownAt isProduction doc shape st :
  wf st → wf (thrownAt isProduction doc shape st).
Proof. intros Hwf. unfold thrownAt. case_decide; [done|by apply wf_alloc]. Qed.

Lemma elementOf_thrownAt isProduction doc shape st id :
  wf st → elementOf (thrownAt isProduction doc shape st) id = elementOf st id.
Proof.
  intros Hwf. unfold thrownAt. case_decide; [done|by apply elementOf_alloc].
Qed.

(** An iteration on a shape without ref throws when the id names an
    inherited property or the registry has no renderer for the shape. *)
Lemma renderShape_throws isProduction props doc shape st :
  shapeRefsById st !! shape_id shape = None →
  shape_id shape ∈ Object_prototype ∨
    rendererService props !! shape_renderer shape = None →
  renderShape isProduction props doc shape st =
  (Throw TypeError, thrownAt isProduction doc shape st).
Proof.
  intros Hid Hwhy. unfold thrownAt.
  destruct (decide (shape_id shape ∈ Object_prototype)) as [Hin|Hown].
  - by apply renderShape_inherited.
  - destruct Hwhy as [?|Hreg]; [done|]. by apply renderShape_unresolved.
Qed.

Lemma wf_newEditor : wf newEditor.
Proof.
  split; simpl.
  - intros id _. apply lookup_empty.
  - intros id1 id2 this H. by rewrite lookup_empty in H.
  - intros id this H. by rewrite lookup_empty in H.
  - intros id1 id2 e H. unfold elementOf in H. simpl in H.
    by rewrite lookup_empty in H.
  - intros p H. by apply elem_of_nil in H.
Qed.

(** Binding the document of an editor that has registered nothing yet. *)
Lemma wf_set_diagramDoc st doc :
  wf st → shapeRefsById st = ∅ → wf (set_diagramDoc (Some doc) st).
Proof.
  intros Hwf Hempty. split.
  - apply (wf_plain _ Hwf).
  - apply (wf_table_inj _ Hwf).
  - intros id this Hid. cbn in Hid. by rewrite Hempty, lookup_empty in Hid.
  - apply (wf_element_inj _ Hwf).
  - apply (wf_scene _ Hwf).
Qed.

(** Every pass keeps the invariant, whether it returns or throws. *)
Lemma renderDiagram_wf isProduction props fuel st r st' :
  wf st →
  renderDiagram isProduction props fuel st = (r, st') →
  wf st' ∧ diagramDoc st' = diagramDoc st.
Proof.
  intros Hwf Hrun. unfold renderDiagram, bind at 1, gets at 1 in Hrun.
  destruct (diagramDoc st) as [doc|] eqn:Hdoc.
  2:{ by injection Hrun as <- <-. }
  destruct (getFlattenShapes fuel (selectedDiagram props)) as [shapes|].
  2:{ by injection Hrun as <- <-. }
  destruct (reconcile_pruned isProduction props st doc shapes Hwf Hdoc)
    as (sp & Hrec & Hwfp & Hdocp & _).
  rewrite Hrec in Hrun.
  cut (wf st' ∧ diagramDoc st' = Some doc); [done|].
  revert Hrun.
  apply (forEach_any_inv _ (λ s, wf s ∧ diagramDoc s = Some doc)); [|done].
  intros x s r' s' _ [Hw Hd] Hx.
  destruct (renderShape_cases isProduction props doc x s Hw Hd)
    as [(s1 & this & e & Hx' & Hstep)|(_ & _ & Hx')];
    rewrite Hx in Hx'; injection Hx' as -> ->.
  - split; [by eapply stepped_wf|].
    by rewrite (stepped_doc _ _ _ _ _ _ Hstep).
  - split; [by apply wf_thrownAt|].
    unfold thrownAt. by case_decide.
Qed.

(** The first binding of the scene document, with the two passes that
    follow it, leads from the new editor into the invariant. *)
Lemma initDiagramScope_wf isProduction props fuel doc st r st' :
  wf st → shapeRefsById st = ∅ →
  initDiagramScope isProduction props fuel doc st = (r, st') →
  wf st' ∧ diagramDoc st' = Some doc.
Proof.
  intros Hwf Hempty. unfold initDiagramScope, componentDidUpdate.
  unfold bind at 1, modify at 1. unfold bind at 1.
  pose proof (wf_set_diagramDoc st doc Hwf Hempty) as Hwf0.
  destruct (renderDiagram isProduction props fuel (set_diagramDoc (Some doc) st))
    as [[[]|ex] st1] eqn:Hrun1;
    destruct (renderDiagram_wf _ _ _ _ _ _ Hwf0 Hrun1) as [Hwf1 Hdoc1].
  - intros Hrun2.
    destruct (renderDiagram_wf _ _ _ _ _ _ Hwf1 Hrun2) as [Hwf2 Hdoc2].
    split; [done|]. by rewrite Hdoc2, Hdoc1.
  - intros [= <- <-]. done.
Qed.

(** ** A shape that cannot be rendered *)

(** A flattened shape that has no [ShapeRef], neither from before the pass
    nor from an earlier shape of this pass, and whose renderer key is missing
    from the registry or whose id names a property of [Object.prototype],
    aborts the pass with an exception, provided that every earlier shape can
    be rendered (it has a [ShapeRef] from before the pass, or an id that names
    no inherited property and a renderer in the registry): every earlier
    shape is registered in both tables with its element attached to the
    document; the failing shape is not registered; the renderer was invoked
    on earlier shapes only; and the element of any ref whose id is not among
    the earlier shapes stays detached. *)
Theorem renderDiagram_aborts_at_unrenderable_shape :
  ∀ isProduction props fuel st doc pre s post,
    wf st →
    diagramDoc st = Some doc →
    getFlattenShapes fuel (selectedDiagram props) = Some (pre ++ s :: post) →
    shape_id s ∈ Object_prototype ∨
      rendererService props !! shape_renderer s = None →
    shapeRefsById st !! shape_id s = None →
    shape_id s ∉ shape_id <$> pre →
    (∀ p, p ∈ pre →
          is_Some (shapeRefsById st !! shape_id p) ∨
          ((shape_id p ∉ Object_prototype) ∧
           is_Some (rendererService props !! shape_renderer p))) →
    ∃ st',
      renderDiagram isProduction props fuel st = (Throw TypeError, st') ∧
      (∀ p, p ∈ pre →
         ∃ this e,
           shapeRefsById st' !! shape_id p = Some this ∧
           shapeRefsByRenderElement st' !! e = Some this ∧
           elementOf st' (shape_id p) = Some e ∧ (e, doc) ∈ scene st') ∧
      shapeRefsById st' !! shape_id s = None ∧
      (∀ c, c ∈ callsSince st st' → call_shape c ∈ pre) ∧
      (∀ id e, id ∉ shape_id <$> pre →
               elementOf st' id = Some e → e ∉ (scene st').*1).
Proof.
  intros isProduction props fuel st doc pre s post
    Hwf Hdoc Hflat Hwhy Hnoref Hnew Hpre.
  rewrite (renderDiagram_reconcile _ _ _ _ doc (pre ++ s :: post)) by done.
  destruct (reconcile_pruned isProduction props st doc (pre ++ s :: post) Hwf Hdoc)
    as (sp & -> & Hwfp & Hdocp & Hheap & Hnext & Hlog & Hscene & HbyId & _ & Hdet).
  destruct (renderLoop_total isProduction props doc sp pre)
    as (st1 & Hrun & Hl); [done..| |].
  { intros p Hp. destruct (Hpre p Hp) as [Href|?]; [left|by right].
    rewrite HbyId, decide_True; [done|].
    apply list_elem_of_fmap_2, elem_of_app. by left. }
  pose proof (looping_wf _ _ _ _ Hl) as Hwf1.
  assert (Hs : shapeRefsById st1 !! shape_id s = None).
  { destruct (looping_untouched _ _ _ _ Hl _ Hnew) as [-> _].
    rewrite HbyId. by case_decide. }
  exists (thrownAt isProduction doc s st1). split.
  { rewrite forEach_app, Hrun. simpl.
    by erewrite bind_Throw by by apply renderShape_throws. }
  assert (Hsame : shapeRefsById (thrownAt isProduction doc s st1) = shapeRefsById st1 ∧
                  shapeRefsByRenderElement (thrownAt isProduction doc s st1) =
                    shapeRefsByRenderElement st1 ∧
                  scene (thrownAt isProduction doc s st1) = scene st1 ∧
                  renderLog (thrownAt isProduction doc s st1) = renderLog st1).
  { unfold thrownAt. by case_decide. }
  destruct Hsame as (-> & -> & -> & Hlog1).
  split; [|split; [done|split]].
  - intros p Hp.
    destruct (looping_attached _ _ _ _ Hl p Hp) as (this & e & ? & ? & ? & ?).
    exists this, e. by rewrite elementOf_thrownAt.
  - intros c Hc. apply (looping_calls _ _ _ _ Hl).
    unfold callsSince in *. rewrite Hlog1 in Hc. by rewrite Hlog.
  - intros id e Hid. rewrite elementOf_thrownAt by done.
    by apply (looping_detached _ _ _ _ Hl).
Qed.

(** ** An unchanged diagram *)

Lemma preorder_resolves items ids out s :
  preorder items ids out → s ∈ out → ∃ k, items !! k = Some (ItemShape s).
Proof.
  induction 1 as [|id s' ids out Hs _ IH|id g ids sub out Hg _ IH1 _ IH2
                  |id ids out Hn _ IH]; intros Hin.
  - by apply elem_of_nil in Hin.
  - apply elem_of_cons in Hin as [->|Hin]; eauto.
  - apply elem_of_app in Hin as [Hin|Hin]; eauto.
  - eauto.
Qed.

(** In a keyed diagram, flattened shapes with the same id are the same
    shape. *)
Lemma getFlattenShapes_keyed fuel props shapes :
  (∀ d, selectedDiagram props = Some d → keyed d) →
  getFlattenShapes fuel (selectedDiagram props) = Some shapes →
  ∀ s t, s ∈ shapes → t ∈ shapes → shape_id s = shape_id t → s = t.
Proof.
  intros Hkeyed Hflat s t Hs Ht Hid.
  destruct (selectedDiagram props) as [d|] eqn:Hd.
  2:{ injection Hflat as <-. by apply elem_of_nil in Hs. }
  specialize (Hkeyed d eq_refl).
  assert (Hpre : preorder (items d) (rootIds d) shapes)
    by (apply getFlattenShapes_iff_preorder; eauto).
  destruct (preorder_resolves _ _ _ s Hpre Hs) as [ks Hks].
  destruct (preorder_resolves _ _ _ t Hpre Ht) as [kt Hkt].
  pose proof (Hkeyed _ _ Hks). pose proof (Hkeyed _ _ Hkt).
  assert (ks = kt) by congruence. subst. congruence.
Qed.

Lemma shapeOf_Some st id s :
  shapeOf st id = Some s ↔
  ∃ this ref, shapeRefsById st !! id = Some this ∧ heap st !! this = Some ref ∧
              ref_shape ref = Some s.
Proof.
  unfold shapeOf. rewrite bind_Some. split.
  - intros (ref & (this & ? & ?)%refOf_Some & ?). eauto.
  - intros (this & ref & ? & ? & ?). exists ref. split; [|done].
    apply refOf_Some. eauto.
Qed.

Section Unchanged.
Context (isProduction : bool) (props : EditorProps) (doc : Doc).
Context (shapes : list DiagramShape).
Context (Hsame : ∀ s t, s ∈ shapes → t ∈ shapes → shape_id s = shape_id t → s = t).

(** After a pass that returns, every ref holds the shape it was handed. *)
Lemma renderLoop_lastShape sp st' :
  wf sp → diagramDoc sp = Some doc →
  (∀ id e, elementOf sp id = Some e → e ∉ (scene sp).*1) →
  forEach (renderShape isProduction props doc) shapes sp = (Return tt, st') →
  wf st' ∧ diagramDoc st' = Some doc ∧
  ∀ s, s ∈ shapes → shapeOf st' (shape_id s) = Some s.
Proof.
  intros Hwf Hdoc Hdet Hrun.
  cut (looping doc sp shapes st' ∧
       ∀ s, s ∈ shapes → shapeOf st' (shape_id s) = Some s).
  { intros [Hl ?]. split; [by apply (looping_wf _ _ _ _ Hl)|].
    split; [by apply (looping_doc _ _ _ _ Hl)|done]. }
  revert Hrun.
  apply (forEach_Return_visited _
           (λ visited st, looping doc sp visited st ∧
              ∀ s, s ∈ visited → shapeOf st (shape_id s) = Some s)).
  - intros visited x rest st st1 Hshapes [Hl Hlast] Hrun.
    destruct (renderShape_Return_stepped isProduction props doc x st st1)
      as (this & e & Hstep);
      [by apply (looping_wf _ _ _ _ Hl)|by apply (looping_doc _ _ _ _ Hl)|done|].
    split; [by eapply looping_step|].
    intros s Hs.
    destruct (decide (shape_id s = shape_id x)) as [Heq|Hne].
    + assert (s = x) as ->.
      { apply Hsame; [|rewrite Hshapes, elem_of_app; right; left|done].
        apply elem_of_app in Hs as [Hs| ->%list_elem_of_singleton];
          rewrite Hshapes, elem_of_app; [by left|right; left]. }
      by eapply stepped_shapeOf_this.
    + apply elem_of_app in Hs as [Hs| ->%list_elem_of_singleton]; [|done].
      erewrite stepped_shapeOf_other; [by apply Hlast|..|done|done].
      * by apply (looping_wf _ _ _ _ Hl).
  - split; [by apply looping_start|]. intros s Hs. by apply elem_of_nil in Hs.
Qed.

(** When every ref already holds its shape, the render loop only
    re-attaches. *)
Lemma renderLoop_cheap sp :
  wf sp → diagramDoc sp = Some doc →
  (∀ id e, elementOf sp id = Some e → e ∉ (scene sp).*1) →
  (∀ s, s ∈ shapes → shapeOf sp (shape_id s) = Some s) →
  ∃ st',
    forEach (renderShape isProduction props doc) shapes sp = (Return tt, st') ∧
    looping doc sp shapes st' ∧
    renderLog st' = renderLog sp ∧ nextElement st' = nextElement sp ∧
    ∀ s, s ∈ shapes →
      shapeOf st' (shape_id s) = Some s ∧
      elementOf st' (shape_id s) = elementOf sp (shape_id s) ∧
      shapeRefsById st' !! shape_id s = shapeRefsById sp !! shape_id s.
Proof.
  intros Hwf Hdoc Hdet Hlast.
  destruct (forEach_total_visited (renderShape isProduction props doc)
    (λ visited st, looping doc sp visited st ∧
       renderLog st = renderLog sp ∧ nextElement st = nextElement sp ∧
       ∀ s, s ∈ shapes →
         shapeOf st (shape_id s) = Some s ∧
         elementOf st (shape_id s) = elementOf sp (shape_id s) ∧
         shapeRefsById st !! shape_id s = shapeRefsById sp !! shape_id s)
    shapes) with sp as (st' & Hrun & Hl & ?).
  - intros visited x rest st Hshapes (Hl & Hlog & Hnext & Hall).
    assert (Hx : x ∈ shapes) by (rewrite Hshapes, elem_of_app; right; left).
    pose proof (looping_wf _ _ _ _ Hl) as Hwfs.
    destruct (Hall x Hx) as (Hxs & Hxe & Hxid).
    apply shapeOf_Some in Hxs as (l & ref0 & Hid & Href0 & Hshape0).
    destruct (wf_elementOf _ _ _ Hwfs Hid) as (ref0' & e0 & r0 & Href0' & He0 & _).
    assert (ref0' = ref0) as -> by congruence.
    destruct (renderShape_cases isProduction props doc x st)
      as [(st1 & this & e & Hrun & Hstep)|(Hnone & _)];
      [done|by apply (looping_doc _ _ _ _ Hl)| |congruence].
    exists st1. split; [done|]. split; [by eapply looping_step|].
    assert (this = l) as ->.
    { destruct (stepped_this _ _ _ _ _ _ Hstep) as [?|[? _]]; congruence. }
    destruct (stepped_how _ _ _ _ _ _ Hstep)
      as [(Hlog1 & Hnext1 & He & _)|(r & dbg & _ & _ & _ & Hmust)].
    2:{ specialize (Hmust _ Href0).
        assert (mustRender ref0 x = false); [|congruence].
        apply mustRender_false. eauto. }
    split; [congruence|]. split; [congruence|].
    intros s Hs. destruct (Hall s Hs) as (Hss & Hse & Hsid).
    destruct (decide (shape_id s = shape_id x)) as [Heq|Hne].
    + assert (s = x) as -> by by apply Hsame.
      split; [by eapply stepped_shapeOf_this|].
      split.
      * erewrite stepped_elementOf_this by done. congruence.
      * rewrite (stepped_byId _ _ _ _ _ _ Hstep), lookup_insert_eq. congruence.
    + erewrite stepped_shapeOf_other, stepped_elementOf_other,
        stepped_byId_other by done.
      done.
  - split; [by apply looping_start|]. split; [done|]. split; [done|].
    intros s Hs. split; [by apply Hlast|done].
  - exists st'. split; [done|]. split; [done|]. done.
Qed.
End Unchanged.

(** Claim C2: a second pass over the same snapshot, in which the item mapping
    files every shape under its own id, invokes no renderer: it returns, the
    record of [render] invocations is the one the first pass left, no new
    element is created, and every flattened shape keeps its [ShapeRef] and
    its element, the element being attached to the document again and the
    last shape of the ref being that same shape. *)
Theorem renderDiagram_unchanged_snapshot_reattaches :
  ∀ isProduction props fuel st0 st1 doc shapes,
    wf st0 →
    diagramDoc st0 = Some doc →
    getFlattenShapes fuel (selectedDiagram props) = Some shapes →
    (∀ d, selectedDiagram props = Some d → keyed d) →
    renderDiagram isProduction props fuel st0 = (Return tt, st1) →
    ∃ st2,
      renderDiagram isProduction props fuel st1 = (Return tt, st2) ∧
      renderLog st2 = renderLog st1 ∧
      nextElement st2 = nextElement st1 ∧
      ∀ s, s ∈ shapes →
        ∃ this e,
          shapeRefsById st1 !! shape_id s = Some this ∧
          shapeRefsById st2 !! shape_id s = Some this ∧
          elementOf st1 (shape_id s) = Some e ∧
          elementOf st2 (shape_id s) = Some e ∧
          (e, doc) ∈ scene st2 ∧
          shapeOf st2 (shape_id s) = Some s.
Proof.
  intros isProduction props fuel st0 st1 doc shapes Hwf0 Hdoc0 Hflat Hkeyed Hrun1.
  pose proof (getFlattenShapes_keyed _ _ _ Hkeyed Hflat) as Hsame.
  rewrite (renderDiagram_reconcile _ _ _ _ doc shapes) in Hrun1 by done.
  destruct (reconcile_pruned isProduction props st0 doc shapes Hwf0 Hdoc0)
    as (sp0 & Hrec0 & Hwfp0 & Hdocp0 & _ & _ & _ & _ & _ & _ & Hdet0).
  rewrite Hrec0 in Hrun1.
  destruct (renderLoop_lastShape isProduction props doc shapes Hsame sp0 st1)
    as (Hwf1 & Hdoc1 & Hlast1); [done..|].
  rewrite (renderDiagram_reconcile _ _ _ _ doc shapes) by done.
  destruct (reconcile_pruned isProduction props st1 doc shapes Hwf1 Hdoc1)
    as (sp1 & -> & Hwfp1 & Hdocp1 & Hheap1 & Hnext1 & Hlog1 & _ & HbyId1 & _ & Hdet1).
  assert (Href1 : ∀ s, s ∈ shapes → refOf sp1 (shape_id s) = refOf st1 (shape_id s)).
  { intros s Hs. rewrite (pruned_refOf st1 sp1 shapes) by done.
    rewrite decide_True; [done|]. by apply list_elem_of_fmap_2. }
  destruct (renderLoop_cheap isProduction props doc shapes Hsame sp1)
    as (st2 & Hrun2 & Hl2 & Hlog2 & Hnext2 & Hall2); [done..| |].
  { intros s Hs. unfold shapeOf. rewrite Href1 by done. by apply Hlast1. }
  exists st2. split; [done|]. split; [congruence|]. split; [congruence|].
  intros s Hs.
  destruct (Hall2 s Hs) as (Hshape & Helem & Hid).
  destruct (looping_attached _ _ _ _ Hl2 s Hs) as (this & e & Hid2 & _ & He2 & Hsc).
  exists this, e.
  assert (shapeRefsById sp1 !! shape_id s = shapeRefsById st1 !! shape_id s) as Hk.
  { rewrite HbyId1, decide_True; [done|]. by apply list_elem_of_fmap_2. }
  split; [congruence|]. split; [done|]. split; [|done].
  rewrite <- He2, Helem, !elementOf_refOf. by rewrite Href1.
Qed.

(** ** A replaced shape *)

Section Replaced.
Context (isProduction : bool) (props : EditorProps) (doc : Doc).
Context (s : DiagramShape).

Lemma callsSince_stepped sp shape st st' this e c :
  length (renderLog sp) ≤ length (renderLog st) →
  stepped doc shape st st' this e →
  c ∈ callsSince sp st → c ∈ callsSince sp st'.
Proof.
  intros Hlen Hstep. unfold callsSince.
  destruct (stepped_how _ _ _ _ _ _ Hstep)
    as [(-> & _)|(r & dbg & -> & _)]; [done|].
  rewrite drop_app_le by done. rewrite elem_of_app. by left.
Qed.

Lemma rerenderedSince_step sp visited shape st st' this e :
  looping doc sp visited st →
  stepped doc shape st st' this e →
  rerenderedSince sp s st → rerenderedSince sp s st'.
Proof.
  intros Hl Hstep [(c & Hc & Hobj) (e0 & He0 & Hle)].
  pose proof (looping_wf _ _ _ _ Hl) as Hwf.
  split.
  - exists c. split; [|done].
    eapply callsSince_stepped; [|done..]. by apply (looping_log _ _ _ _ Hl).
  - destruct (decide (shape_id s = shape_id shape)) as [Heq|Hne].
    + exists e. rewrite Heq. split; [by eapply stepped_elementOf_this|].
      destruct (stepped_how _ _ _ _ _ _ Hstep)
        as [(_ & _ & He & _)|(r & dbg & _ & -> & _)].
      * rewrite <- Heq in He. congruence.
      * apply (looping_next _ _ _ _ Hl).
    + exists e0. split; [|done].
      by erewrite stepped_elementOf_other.
Qed.

Lemma replaced_step sp visited shape st st' this e :
  looping doc sp visited st →
  stepped doc shape st st' this e →
  holdsOther s st ∨ rerenderedSince sp s st →
  (holdsOther s st' ∨ rerenderedSince sp s st') ∧
  (shape = s → rerenderedSince sp s st').
Proof.
  intros Hl Hstep Hinv.
  pose proof (looping_wf _ _ _ _ Hl) as Hwf.
  destruct (decide (shape_id s = shape_id shape)) as [Heq|Hne].
  2:{ split; [|by intros ->].
      destruct Hinv as [(last & Hlast & Hobj)|Hre].
      - left. exists last. split; [|done]. by erewrite stepped_shapeOf_other.
      - right. by eapply rerenderedSince_step. }
  destruct (decide (shape_obj shape = shape_obj s)) as [Hobj|Hobj].
  2:{ split; [|by intros ->]. left. exists shape. split; [|done].
      rewrite Heq. by eapply stepped_shapeOf_this. }
  cut (rerenderedSince sp s st'); [by auto|].
  destruct Hinv as [(last & Hlast & Hother)|Hre];
    [|by eapply rerenderedSince_step].
  apply shapeOf_Some in Hlast as (l & ref0 & Hid & Href0 & Hshape0).
  rewrite Heq in Hid.
  assert (this = l) as ->.
  { destruct (stepped_this _ _ _ _ _ _ Hstep) as [?|[? _]]; congruence. }
  destruct (stepped_how _ _ _ _ _ _ Hstep)
    as [(_ & _ & _ & ref0' & last' & Href0' & Hshape0' & Hobj')
       |(r & dbg & Hlog & -> & _)].
  { exfalso. apply Hother. congruence. }
  split.
  - exists {| call_renderer := r; call_shape := shape; call_debug := dbg |}.
    split; [|by split]. unfold callsSince. rewrite Hlog.
    rewrite drop_app_le by apply (looping_log _ _ _ _ Hl).
    apply elem_of_app. right. by apply list_elem_of_singleton.
  - exists (nextElement st). rewrite Heq.
    split; [by eapply stepped_elementOf_this|].
    apply (looping_next _ _ _ _ Hl).
Qed.

(** A shape handed to a ref that last rendered another object is rendered
    anew by a loop that returns. *)
Lemma renderLoop_replaced sp shapes st' :
  wf sp → diagramDoc sp = Some doc →
  (∀ id e, elementOf sp id = Some e → e ∉ (scene sp).*1) →
  holdsOther s sp →
  s ∈ shapes →
  forEach (renderShape isProduction props doc) shapes sp = (Return tt, st') →
  looping doc sp shapes st' ∧ rerenderedSince sp s st'.
Proof.
  intros Hwf Hdoc Hdet Hother Hs Hrun.
  cut (looping doc sp shapes st' ∧
       (holdsOther s st' ∨ rerenderedSince sp s st') ∧
       (s ∈ shapes → rerenderedSince sp s st')).
  { intros (? & _ & H). auto. }
  revert Hrun.
  apply (forEach_Return_visited _
           (λ visited st, looping doc sp visited st ∧
              (holdsOther s st ∨ rerenderedSince sp s st) ∧
              (s ∈ visited → rerenderedSince sp s st))).
  - intros visited x rest st st1 _ (Hl & Hinv & Hvis) Hrun.
    destruct (renderShape_Return_stepped isProduction props doc x st st1)
      as (this & e & Hstep);
      [by apply (looping_wf _ _ _ _ Hl)|by apply (looping_doc _ _ _ _ Hl)|done|].
    destruct (replaced_step sp visited x st st1 this e Hl Hstep Hinv) as [Hinv1 Hx].
    split; [by eapply looping_step|]. split; [done|].
    intros [Hin| ->%list_elem_of_singleton]%elem_of_app; [|by apply Hx].
    eapply rerenderedSince_step; [done..|]. by apply Hvis.
  - split; [by apply looping_start|]. split; [by left|].
    by intros ?%elem_of_nil.
Qed.
End Replaced.

(** Claim C4: [ShapeRef.render] re-renders whenever the shape is not the object
    rendered last or the ref has no element: the renderer is bound to the
    ref's document, [renderer.render(shape, showDebugMarkers)] is invoked and
    the ref takes the new element and the shape.  Hence in a pass that
    returns, a flattened shape whose ref last rendered another object (the
    shape was replaced under the same id) is rendered by the renderer, and
    its ref ends with an element created in this pass, attached to the
    document. *)
Theorem render_again_on_replacement :
  (∀ st this ref r shape,
     heap st !! this = Some ref →
     ref_renderer ref = Some r →
     (∀ last, ref_shape ref = Some last → shape_obj last ≠ shape_obj shape) ∨
       renderedElement ref = None →
     ∃ st',
       ShapeRef_render this shape st = (Return tt, st') ∧
       contexts st' !! r = Some (ref_doc ref) ∧
       renderLog st' = renderLog st ++
         [{| call_renderer := r; call_shape := shape;
             call_debug := showDebugMarkers ref |}] ∧
       heap st' !! this =
         Some (set_shape shape (set_renderedElement (nextElement st) ref)) ∧
       nextElement st < nextElement st' ∧
       scene st' = scene st ++ [(nextElement st, ref_doc ref)]) ∧
  (∀ isProduction props fuel st st' doc shapes s last,
     wf st →
     diagramDoc st = Some doc →
     getFlattenShapes fuel (selectedDiagram props) = Some shapes →
     s ∈ shapes →
     shapeOf st (shape_id s) = Some last →
     shape_obj last ≠ shape_obj s →
     renderDiagram isProduction props fuel st = (Return tt, st') →
     (∃ c, c ∈ callsSince st st' ∧ shape_obj (call_shape c) = shape_obj s ∧
           shape_id (call_shape c) = shape_id s) ∧
     ∃ e, elementOf st' (shape_id s) = Some e ∧ nextElement st ≤ e ∧
          (e, doc) ∈ scene st').
Proof.
  split; [exact ShapeRef_render_must_render|].
  intros isProduction props fuel st st' doc shapes s last
    Hwf Hdoc Hflat Hs Hlast Hobj Hrun.
  rewrite (renderDiagram_reconcile _ _ _ _ doc shapes) in Hrun by done.
  destruct (reconcile_pruned isProduction props st doc shapes Hwf Hdoc)
    as (sp & Hrec & Hwfp & Hdocp & Hheap & Hnext & Hlog & _ & HbyId & _ & Hdet).
  rewrite Hrec in Hrun.
  destruct (renderLoop_replaced isProduction props doc s sp shapes st')
    as [Hl [(c & Hc & Hcs) (e & He & Hle)]]; [done..| |done|done|].
  { exists last. split; [|done]. unfold shapeOf.
    rewrite (pruned_refOf st sp shapes), decide_True by
      (done || by apply list_elem_of_fmap_2).
    done. }
  split.
  - exists c. split; [|done]. unfold callsSince in *. by rewrite <- Hlog.
  - destruct (looping_attached _ _ _ _ Hl s Hs) as (this & e' & _ & _ & He' & Hsc).
    exists e. split; [done|]. split; [lia|]. congruence.
Qed.

(** ** A removed shape *)

(** The part of stale removal that the code achieves: once an id is gone
    from the flattened list, whatever the outcome of the pass, the id is
    out of [shapeRefsById], the ref's current render id is out of
    [shapeRefsByRenderElement], and its element is detached. *)
Lemma renderDiagram_stale_unregistered isProduction props fuel st doc shapes id e r st' :
  wf st →
  diagramDoc st = Some doc →
  getFlattenShapes fuel (selectedDiagram props) = Some shapes →
  elementOf st id = Some e →
  id ∉ shape_id <$> shapes →
  renderDiagram isProduction props fuel st = (r, st') →
  shapeRefsById st' !! id = None ∧
  shapeRefsByRenderElement st' !! e = None ∧
  e ∉ (scene st').*1.
Proof.
  intros Hwf Hdoc Hflat He Hgone Hrun.
  rewrite (renderDiagram_reconcile _ _ _ _ doc shapes) in Hrun by done.
  destruct (reconcile_pruned isProduction props st doc shapes Hwf Hdoc)
    as (sp & Hrec & Hwfp & Hdocp & Hheap & Hnext & _ & Hscene & HbyId & HbyEl & Hdet).
  rewrite Hrec in Hrun.
  pose proof He as He'.
  apply elementOf_Some in He' as (this & ref & Hid & Href & Hel).
  cut (wf st' ∧ diagramDoc st' = Some doc ∧ shapeRefsById st' !! id = None ∧
       shapeRefsByRenderElement st' !! e = None ∧ (e ∉ (scene st').*1) ∧
       (∀ id', elementOf st' id' ≠ Some e) ∧ e < nextElement st').
  { intros (_ & _ & ? & ? & ? & _). done. }
  revert Hrun.
  apply (forEach_any_inv _
    (λ s, wf s ∧ diagramDoc s = Some doc ∧ shapeRefsById s !! id = None ∧
          shapeRefsByRenderElement s !! e = None ∧ (e ∉ (scene s).*1) ∧
          (∀ id', elementOf s id' ≠ Some e) ∧ e < nextElement s)).
  - intros x s r' s' Hx (Hw & Hd & Hnone & Hnoel & Hnosc & Hnoown & Hlt) Hrunx.
    destruct (renderShape_cases isProduction props doc x s Hw Hd)
      as [(s1 & l & ex & Hx' & Hstep)|(_ & _ & Hx')];
      rewrite Hrunx in Hx'; injection Hx' as -> ->.
    + assert (Hne : id ≠ shape_id x).
      { intros ->. apply Hgone. by apply list_elem_of_fmap_2. }
      assert (Hex : ex ≠ e).
      { intros ->.
        destruct (stepped_how _ _ _ _ _ _ Hstep)
          as [(_ & _ & Hown & _)|(r0 & dbg & _ & Hfresh & _)]; [|lia].
        by apply (Hnoown (shape_id x)). }
      split; [by eapply stepped_wf|].
      split; [by rewrite (stepped_doc _ _ _ _ _ _ Hstep)|].
      split; [by erewrite stepped_byId_other|].
      split.
      { by rewrite (stepped_byElement _ _ _ _ _ _ Hstep), lookup_insert_ne. }
      split.
      { intros Hin. apply list_elem_of_fmap in Hin as ([e0 d] & Heq & Hin).
        simpl in Heq. subst e0.
        eapply stepped_scene_elem in Hin as [[Hin _]|[= ? _]]; [| |done].
        - apply Hnosc. apply list_elem_of_fmap. by exists (e, d).
        - done. }
      split.
      { intros id' Hown.
        destruct (decide (id' = shape_id x)) as [->|Hne'].
        - erewrite stepped_elementOf_this in Hown by done. congruence.
        - erewrite stepped_elementOf_other in Hown by done. by apply (Hnoown id'). }
      pose proof (stepped_next _ _ _ _ _ _ Hstep). lia.
    + unfold thrownAt. case_decide; [done|].
      split; [by apply wf_alloc|]. do 4 (split; [done|]).
      split; [|done]. intros id'. rewrite elementOf_alloc by done. apply Hnoown.
  - assert (Hpid : shapeRefsById sp !! id = None).
    { rewrite HbyId. by case_decide. }
    split; [done|]. split; [done|]. split; [done|].
    split.
    { rewrite HbyEl, decide_True; [done|].
      apply list_elem_of_omap. exists id. split; [|done].
      apply list_elem_of_filter. split.
      - by rewrite liveIds_spec.
      - apply list_elem_of_fmap. exists (id, this). split; [done|].
        by apply elem_of_map_to_list. }
    split.
    { intros Hin. apply list_elem_of_fmap in Hin as ([e0 d] & Heq & Hin).
      simpl in Heq. subst e0. rewrite Hscene in Hin.
      apply list_elem_of_filter in Hin as [Hnot _]. apply Hnot.
      apply elem_of_ownedElements. eauto. }
    split.
    { intros id' Hown.
      assert (id' = id).
      { eapply (wf_element_inj _ Hwf); [|done]. by eapply pruned_elementOf. }
      subst id'. apply elementOf_Some in Hown as (? & ? & ? & _). congruence. }
    rewrite Hnext.
    destruct (wf_ref _ Hwf _ _ Hid) as (ref' & e' & _ & Href' & Hel' & Hlt & _).
    congruence.
Qed.

(** Claim C3 fails on the code: a shape that was replaced once under its id and
    then removed.  The first pass draws [X] as element 0 of the [ShapeRef]
    at address 0; the second pass, given a new shape object under the id
    [X], re-renders into element 1 and registers the ref under 1, leaving
    the entry under 0; the third pass, [X] being gone, drops the id and the
    entry under 1, and detaches element 1, but [shapeRefsByRenderElement]
    still maps 0 to the ref of [X]. *)
Theorem renderDiagram_leaves_replaced_render_id :
  let st1 := demo_pass [demo_X1] demo_start in
  let st2 := demo_pass [demo_X2] st1 in
  let st3 := demo_pass [] st2 in
  renderDiagram false (demo_props [demo_X1]) 1 demo_start = (Return tt, st1) ∧
  renderDiagram false (demo_props [demo_X2]) 1 st1 = (Return tt, st2) ∧
  renderDiagram false (demo_props []) 1 st2 = (Return tt, st3) ∧
  shapeRefsById st2 !! "X" = Some 0 ∧
  elementOf st1 "X" = Some 0 ∧
  elementOf st2 "X" = Some 1 ∧
  shapeRefsById st3 !! "X" = None ∧
  shapeRefsByRenderElement st3 !! 1 = None ∧
  scene st3 = [] ∧
  shapeRefsByRenderElement st3 !! 0 = Some 0.
Proof. vm_compute. repeat split. Qed.

(** Claim C5 fails on the code: a shape whose id is [constructor], with a
    renderer in the registry, ahead of a shape [Z] whose renderer key the
    registry lacks.  In the new editor the read
    [this.shapeRefsById["constructor"]] yields the function that every
    object literal inherits; no [ShapeRef] is built for the first shape and
    the call of [render] on that function throws.  The pass stops at the
    shape before [Z] and leaves the editor as it was: the first shape is not
    rendered, not attached and not registered.  With [W] for the first id
    the pass stops at [Z], and the first shape is rendered, attached and
    registered. *)
Theorem renderDiagram_inherited_id_aborts_before_registry_miss :
  let props := demo_props [demo_C; demo_Z] in
  getFlattenShapes 1 (selectedDiagram props) = Some [demo_C; demo_Z] ∧
  rendererService props !! shape_renderer demo_C = Some 7 ∧
  rendererService props !! shape_renderer demo_Z = None ∧
  shapeRefsById demo_start !! shape_id demo_Z = None ∧
  renderDiagram false props 1 demo_start = (Throw TypeError, demo_start) ∧
  shapeRefsById demo_start !! shape_id demo_C = None ∧
  shapeRefsByRenderElement demo_start = ∅ ∧
  heap demo_start = [] ∧
  scene demo_start = [] ∧
  renderLog demo_start = [] ∧
  let st' := demo_pass [demo_W; demo_Z] demo_start in
  renderDiagram false (demo_props [demo_W; demo_Z]) 1 demo_start =
    (Throw TypeError, st') ∧
  shapeRefsById st' !! shape_id demo_W = Some 0 ∧
  shapeRefsByRenderElement st' !! 0 = Some 0 ∧
  elementOf st' (shape_id demo_W) = Some 0 ∧
  scene st' = [(0, 100)] ∧
  call_shape <$> renderLog st' = [demo_W] ∧
  shapeRefsById st' !! shape_id demo_Z = None.
Proof. vm_compute. repeat split. Qed.

(** ** The example editor *)

Lemma demo_diagram_keyed shapes : keyed (demo_diagram shapes).
Proof.
  intros k s H. simpl in H. apply elem_of_list_to_map_2 in H.
  apply list_elem_of_fmap in H as (s' & [= -> ->] & _). done.
Qed.

Lemma demo_props_keyed shapes d :
  selectedDiagram (demo_props shapes) = Some d → keyed d.
Proof. intros [= <-]. apply demo_diagram_keyed. Qed.

Lemma wf_demo_start : wf demo_start.
Proof. apply wf_set_diagramDoc; [apply wf_newEditor|done]. Qed.

Lemma wf_demo_drawn : wf demo_drawn.
Proof.
  apply (renderDiagram_wf false (demo_props [demo_X1; demo_Y]) 1
           demo_start (Return tt) demo_drawn wf_demo_start).
  vm_compute. reflexivity.
Qed.

Lemma renderDiagram_unchanged_snapshot_reattaches_witness :
  ∃ st2,
    renderDiagram false (demo_props [demo_X1; demo_Y]) 1 demo_drawn = (Return tt, st2) ∧
    renderLog st2 = renderLog demo_drawn ∧
    nextElement st2 = nextElement demo_drawn ∧
    ∀ s, s ∈ [demo_X1; demo_Y] →
      ∃ this e,
        shapeRefsById demo_drawn !! shape_id s = Some this ∧
        shapeRefsById st2 !! shape_id s = Some this ∧
        elementOf demo_drawn (shape_id s) = Some e ∧
        elementOf st2 (shape_id s) = Some e ∧
        (e, 100) ∈ scene st2 ∧
        shapeOf st2 (shape_id s) = Some s.
Proof.
  apply (renderDiagram_unchanged_snapshot_reattaches false
           (demo_props [demo_X1; demo_Y]) 1 demo_start demo_drawn 100
           [demo_X1; demo_Y]).
  - exact wf_demo_start.
  - reflexivity.
  - reflexivity.
  - apply demo_props_keyed.
  - vm_compute. reflexivity.
Defined.

Lemma render_again_on_replacement_witness :
  (∃ st',
     ShapeRef_render 0 demo_X2 demo_drawn = (Return tt, st') ∧
     contexts st' !! 7 = Some 100 ∧
     renderLog st' = renderLog demo_drawn ++
       [{| call_renderer := 7; call_shape := demo_X2; call_debug := true |}] ∧
     heap st' !! 0 =
       Some {| ref_doc := 100; ref_renderer := Some 7; showDebugMarkers := true;
               ref_shape := Some demo_X2; renderedElement := Some 2 |} ∧
     2 < nextElement st' ∧
     scene st' = scene demo_drawn ++ [(2, 100)]) ∧
  ((∃ c, c ∈ callsSince demo_drawn (demo_pass [demo_X2; demo_Y] demo_drawn) ∧
         shape_obj (call_shape c) = 2 ∧ shape_id (call_shape c) = "X") ∧
   ∃ e, elementOf (demo_pass [demo_X2; demo_Y] demo_drawn) "X" = Some e ∧
        2 ≤ e ∧ (e, 100) ∈ scene (demo_pass [demo_X2; demo_Y] demo_drawn)).
Proof.
  split.
  - apply (proj1 render_again_on_replacement demo_drawn 0
             {| ref_doc := 100; ref_renderer := Some 7; showDebugMarkers := true;
                ref_shape := Some demo_X1; renderedElement := Some 0 |}
             7 demo_X2).
    + reflexivity.
    + reflexivity.
    + left. intros last [= <-]. simpl. lia.
  - apply (proj2 render_again_on_replacement false
             (demo_props [demo_X2; demo_Y]) 1 demo_drawn
             (demo_pass [demo_X2; demo_Y] demo_drawn) 100
             [demo_X2; demo_Y] demo_X2 demo_X1).
    + exact wf_demo_drawn.
    + reflexivity.
    + reflexivity.
    + left.
    + reflexivity.
    + simpl. lia.
    + vm_compute. reflexivity.
Defined.

Lemma renderDiagram_aborts_at_unrenderable_shape_witness :
  ∃ st',
    renderDiagram false (demo_props [demo_Y; demo_Z; demo_W]) 1 demo_drawn =
      (Throw TypeError, st') ∧
    (∀ p, p ∈ [demo_Y] →
       ∃ this e,
         shapeRefsById st' !! shape_id p = Some this ∧
         shapeRefsByRenderElement st' !! e = Some this ∧
         elementOf st' (shape_id p) = Some e ∧ (e, 100) ∈ scene st') ∧
    shapeRefsById st' !! "Z" = None ∧
    (∀ c, c ∈ callsSince demo_drawn st' → call_shape c ∈ [demo_Y]) ∧
    (∀ id e, id ∉ shape_id <$> [demo_Y] →
             elementOf st' id = Some e → e ∉ (scene st').*1).
Proof.
  apply (renderDiagram_aborts_at_unrenderable_shape false
           (demo_props [demo_Y; demo_Z; demo_W]) 1 demo_drawn 100
           [demo_Y] demo_Z [demo_W]).
  - exact wf_demo_drawn.
  - reflexivity.
  - reflexivity.
  - right. reflexivity.
  - reflexivity.
  - simpl. rewrite list_elem_of_singleton. discriminate.
  - intros p ->%list_elem_of_singleton. left. by exists 1.
Defined.

Lemma renderDiagram_paint_order_is_flatten_order_witness :
  ∃ es,
    Forall2 (λ s e, elementOf (demo_pass [demo_Y; demo_X2; demo_W] demo_drawn)
                      (shape_id s) = Some e)
            [demo_Y; demo_X2; demo_W] es ∧
    scene (demo_pass [demo_Y; demo_X2; demo_W] demo_drawn) =
      filter (λ p, p.1 ∉ ownedElements demo_drawn) (scene demo_drawn) ++
      ((λ e, (e, 100)) <$> es) ∧
    shapeElements 100 (demo_pass [demo_Y; demo_X2; demo_W] demo_drawn) = es.
Proof.
  apply (renderDiagram_paint_order_is_flatten_order false
           (demo_props [demo_Y; demo_X2; demo_W]) 1 demo_drawn
           (demo_pass [demo_Y; demo_X2; demo_W] demo_drawn) 100
           [demo_Y; demo_X2; demo_W]).
  - exact wf_demo_drawn.
  - reflexivity.
  - reflexivity.
  - simpl. repeat constructor; rewrite ?elem_of_cons, ?elem_of_nil; intuition discriminate.
  - vm_compute. reflexivity.
Defined.

Lemma ShapeRef_remove_only_detaches_witness :
  ∃ st',
    ShapeRef_remove 0 demo_drawn = (Return tt, st') ∧
    scene st' = [(1, 100)] ∧
    heap st' !! 0 =
      Some {| ref_doc := 100; ref_renderer := Some 7; showDebugMarkers := true;
              ref_shape := Some demo_X1; renderedElement := Some 0 |} ∧
    ∃ st'',
      ShapeRef_render 0 demo_X1 st' = (Return tt, st'') ∧
      renderLog st'' = renderLog demo_drawn ∧
      nextElement st'' = nextElement demo_drawn ∧
      scene st'' = [(1, 100); (0, 100)].
Proof.
  destruct (ShapeRef_remove_only_detaches demo_drawn 0
              {| ref_doc := 100; ref_renderer := Some 7; showDebugMarkers := true;
                 ref_shape := Some demo_X1; renderedElement := Some 0 |})
    as (st' & Hrun & Hst' & Hheap & Hnext).
  { reflexivity. }
  exists st'. split; [exact Hrun|]. split; [by rewrite Hst'|].
  split; [exact Hheap|].
  destruct (Hnext demo_X1 demo_X1 0) as (st'' & Hrender & Hlog & Hnum & _ & Hscene);
    [reflexivity..|].
  exists st''. split; [exact Hrender|]. split; [exact Hlog|]. split; [exact Hnum|].
  rewrite Hscene. reflexivity.
Defined.

(** ** The hypotheses on the diagram *)

(** An id that occurs twice in the flattened list has one element, attached
    where the id occurs last: here [X; Y; X] leaves element 1 of [Y] below
    element 0 of [X]. *)
Lemma renderDiagram_repeated_id_attaches_once :
  renderDiagram false (demo_props [demo_X1; demo_Y; demo_X1]) 1 demo_start =
    (Return tt, demo_pass [demo_X1; demo_Y; demo_X1] demo_start) ∧
  scene (demo_pass [demo_X1; demo_Y; demo_X1] demo_start) = [(1, 100); (0, 100)].
Proof. vm_compute. split; reflexivity. Qed.

(** When the item mapping files two shape objects under one id, the ref of
    the id holds the later one after a pass, and the next pass over the same
    snapshot renders both again. *)
Lemma renderDiagram_unkeyed_renders_again :
  getFlattenShapes 1 (selectedDiagram demo_unkeyed) = Some [demo_X1; demo_X2] ∧
  let st1 := (renderDiagram false demo_unkeyed 1 demo_start).2 in
  let st2 := (renderDiagram false demo_unkeyed 1 st1).2 in
  renderDiagram false demo_unkeyed 1 demo_start = (Return tt, st1) ∧
  renderDiagram false demo_unkeyed 1 st1 = (Return tt, st2) ∧
  length (renderLog st1) = 2 ∧ length (renderLog st2) = 4.
Proof. vm_compute. repeat split. Qed.

(** * The action creators, the reducer and the toast middleware *)

Section Dispatch.
Context {number : Type}.
Implicit Types (state initialState : UI.UIState number).
Implicit Types (unread : UI.Action number) (action : Actions.Action number).

Lemma ui_view_toggleLeft initialState state unread :
  UI.ui initialState (Some state) (Actions.view Actions.toggleLeftSidebar unread) =
  {| UI.zoom := UI.zoom state; UI.selectedTab := UI.selectedTab state;
     UI.showLeftSidebar := negb (UI.showLeftSidebar state);
     UI.showRightSidebar := UI.showRightSidebar state |}.
Proof. reflexivity. Qed.

Lemma ui_view_toggleRight initialState state unread :
  UI.ui initialState (Some state) (Actions.view Actions.toggleRightSidebar unread) =
  {| UI.zoom := UI.zoom state; UI.selectedTab := UI.selectedTab state;
     UI.showLeftSidebar := UI.showLeftSidebar state;
     UI.showRightSidebar := negb (UI.showRightSidebar state) |}.
Proof. reflexivity. Qed.

Lemma ui_view_setZoom initialState state unread z :
  UI.ui initialState (Some state) (Actions.view (Actions.setZoom z) unread) =
  {| UI.zoom := z; UI.selectedTab := UI.selectedTab state;
     UI.showLeftSidebar := UI.showLeftSidebar state;
     UI.showRightSidebar := UI.showRightSidebar state |}.
Proof. reflexivity. Qed.

Lemma ui_view_selectTab initialState state unread t :
  UI.ui initialState (Some state) (Actions.view (Actions.selectTab t) unread) =
  {| UI.zoom := UI.zoom state; UI.selectedTab := t;
     UI.showLeftSidebar := UI.showLeftSidebar state;
     UI.showRightSidebar := UI.showRightSidebar state |}.
Proof. reflexivity. Qed.

(** Dispatching [toggleLeftSidebar()] twice, or [toggleRightSidebar()]
    twice, gives back the state. *)
Theorem ui_toggle_twice_restores :
  ∀ initialState state unread1 unread2,
    UI.ui initialState
      (Some (UI.ui initialState (Some state)
               (Actions.view Actions.toggleLeftSidebar unread1)))
      (Actions.view Actions.toggleLeftSidebar unread2) = state ∧
    UI.ui initialState
      (Some (UI.ui initialState (Some state)
               (Actions.view Actions.toggleRightSidebar unread1)))
      (Actions.view Actions.toggleRightSidebar unread2) = state.
Proof.
  intros initialState [z t l r] unread1 unread2.
  rewrite !ui_view_toggleLeft, !ui_view_toggleRight. simpl.
  by rewrite !negb_involutive.
Qed.

(** Of two [setZoom] actions, or two [selectTab] actions, dispatched in a
    row only the second shows in the state. *)
Theorem ui_last_write_wins :
  ∀ initialState state unread1 unread2 z1 z2 t1 t2,
    UI.ui initialState
      (Some (UI.ui initialState (Some state)
               (Actions.view (Actions.setZoom z1) unread1)))
      (Actions.view (Actions.setZoom z2) unread2) =
    UI.ui initialState (Some state) (Actions.view (Actions.setZoom z2) unread2) ∧
    UI.ui initialState
      (Some (UI.ui initialState (Some state)
               (Actions.view (Actions.selectTab t1) unread1)))
      (Actions.view (Actions.selectTab t2) unread2) =
    UI.ui initialState (Some state) (Actions.view (Actions.selectTab t2) unread2).
Proof.
  intros. by rewrite !ui_view_setZoom, !ui_view_selectTab.
Qed.

(** Two actions of the four creators that differ in type may be dispatched
    in either order. *)
Theorem ui_creators_commute :
  ∀ initialState state unread1 unread2 z t action1 action2,
    action1 ∈ [Actions.setZoom z; Actions.selectTab t;
               Actions.toggleLeftSidebar; Actions.toggleRightSidebar] →
    action2 ∈ [Actions.setZoom z; Actions.selectTab t;
               Actions.toggleLeftSidebar; Actions.toggleRightSidebar] →
    Actions.type action1 ≠ Actions.type action2 →
    UI.ui initialState
      (Some (UI.ui initialState (Some state) (Actions.view action1 unread1)))
      (Actions.view action2 unread2) =
    UI.ui initialState
      (Some (UI.ui initialState (Some state) (Actions.view action2 unread2)))
      (Actions.view action1 unread1).
Proof.
  intros initialState state unread1 unread2 z t action1 action2 H1 H2 Hne.
  repeat (apply elem_of_cons in H1 as [->|H1]);
    try (by apply elem_of_nil in H1);
    repeat (apply elem_of_cons in H2 as [->|H2]);
    try (by apply elem_of_nil in H2);
    try done;
    by rewrite ?ui_view_setZoom, ?ui_view_selectTab, ?ui_view_toggleLeft,
         ?ui_view_toggleRight.
Qed.

(** The middleware hands every action, unchanged, to [next] and returns what
    [next] returns; before that it makes one call on [message] when the
    type is one of the two toast types, and none otherwise. *)
Theorem toastMiddleware_forwards_every_action :
  ∀ (R : Type) (next : Actions.Action number → list Actions.Toast → R * list Actions.Toast)
    action shown,
    ∃ toasts,
      Actions.toastMiddleware next action shown = next action (shown ++ toasts) ∧
      length toasts ≤ 1 ∧
      (toasts = [] ↔
       Actions.type action ≠ Actions.SHOW_INFO_TOAST ∧
       Actions.type action ≠ Actions.SHOW_ERROR_TOAST).
Proof.
  intros R next action shown. unfold Actions.toastMiddleware.
  destruct (String.eqb_spec (Actions.type action) Actions.SHOW_INFO_TOAST) as [Hi|Hi].
  { eexists. split; [done|]. split; [simpl; lia|]. split; [done|]. tauto. }
  destruct (String.eqb_spec (Actions.type action) Actions.SHOW_ERROR_TOAST) as [He|He].
  { eexists. split; [done|]. split; [simpl; lia|]. split; [done|]. tauto. }
  exists []. rewrite app_nil_r. split; [done|]. split; [simpl; lia|]. tauto.
Qed.

(** [showInfoToast(text)] makes the middleware call [message.info(text)]
    once, whatever [hideAfter] is, and the reducer leaves the state alone. *)
Theorem showInfoToast_shows_the_text :
  ∀ (R : Type) (next : Actions.Action number → list Actions.Toast → R * list Actions.Toast)
    text hideAfter shown initialState state unread,
    Actions.toastMiddleware next (Actions.showInfoToast text hideAfter) shown =
      next (Actions.showInfoToast text None) (shown ++ [Actions.Info (Some text)]) ∧
    UI.ui initialState (Some state)
      (Actions.view (Actions.showInfoToast text hideAfter) unread) = state.
Proof. intros. by split. Qed.

(** [showErrorToast(text)] builds the same action for every text: the
    action carries antd's [message] and no [text], so the middleware calls
    [message.error(undefined)]; the reducer leaves the state alone. *)
Theorem showErrorToast_loses_the_text :
  ∀ (R : Type) (next : Actions.Action number → list Actions.Toast → R * list Actions.Toast)
    text hideAfter text' hideAfter' shown initialState state unread,
    Actions.showErrorToast (number := number) text hideAfter =
      Actions.showErrorToast text' hideAfter' ∧
    Actions.text (Actions.showErrorToast (number := number) text hideAfter) = None ∧
    Actions.message (Actions.showErrorToast (number := number) text hideAfter) =
      Some Actions.antd_message ∧
    Actions.toastMiddleware next (Actions.showErrorToast text hideAfter) shown =
      next (Actions.showErrorToast text hideAfter) (shown ++ [Actions.Error None]) ∧
    UI.ui initialState (Some state)
      (Actions.view (Actions.showErrorToast text hideAfter) unread) = state.
Proof. intros. by repeat split. Qed.
End Dispatch.

Lemma ui_creators_commute_witness :
  UI.ui ui_state
    (Some (UI.ui ui_state (Some ui_state) (Actions.view (Actions.setZoom 4) ui_unread)))
    (Actions.view Actions.toggleRightSidebar ui_unread) =
  UI.ui ui_state
    (Some (UI.ui ui_state (Some ui_state)
             (Actions.view Actions.toggleRightSidebar ui_unread)))
    (Actions.view (Actions.setZoom 4) ui_unread).
Proof.
  apply (ui_creators_commute ui_state ui_state ui_unread ui_unread 4 "icons").
  - left.
  - right. right. right. left.
  - simpl. discriminate.
Defined.
(** * Flattening: further properties *)

Section FlattenMore.
Context (items : gmap string DiagramItem).

(** The accumulator is only ever extended. *)
Lemma handleContainer_acc fuel :
  ∀ ids acc,
    handleContainer fuel items ids acc =
    (λ out, acc ++ out) <$> handleContainer fuel items ids [].
Proof.
  induction fuel as [|fuel IHf]; [done|].
  induction ids as [|id ids IH]; intros acc.
  - rewrite !handleContainer_nil. simpl. by rewrite app_nil_r.
  - rewrite !handleContainer_cons.
    destruct (items !! id) as [[s|g]|] eqn:E.
    + rewrite (IH (acc ++ [s])), (IH ([] ++ [s])).
      destruct (handleContainer (S fuel) items ids []) as [out|];
        cbv [fmap option_fmap option_map]; [|done].
      by rewrite <- app_assoc.
    + rewrite (IHf (childIds g) acc).
      destruct (handleContainer fuel items (childIds g) []) as [sub|];
        cbv [fmap option_fmap option_map]; [|done].
      rewrite (IH (acc ++ sub)), (IH sub).
      destruct (handleContainer (S fuel) items ids []) as [out|];
        cbv [fmap option_fmap option_map]; [|done].
      by rewrite <- app_assoc.
    + apply IH.
Qed.

Lemma handleContainer_app fuel ids1 ids2 acc :
  handleContainer fuel items (ids1 ++ ids2) acc =
  match handleContainer fuel items ids1 acc with
  | Some acc' => handleContainer fuel items ids2 acc'
  | None => None
  end.
Proof.
  destruct fuel as [|fuel]; [done|].
  rewrite !handleContainer_S, foldl_app.
  destruct (foldl _ (Some acc) ids1); [done|]. apply foldl_visitItem_None.
Qed.

(** A list fails as soon as it holds a group whose children fail. *)
Lemma handleContainer_through fuel ids a g :
  a ∈ ids →
  items !! a = Some (ItemGroup g) →
  (∀ acc, handleContainer fuel items (childIds g) acc = None) →
  ∀ acc, handleContainer (S fuel) items ids acc = None.
Proof.
  intros Hin Ha Hchildren.
  induction ids as [|id ids IH]; intros acc; [by apply elem_of_nil in Hin|].
  rewrite handleContainer_cons.
  destruct (decide (id = a)) as [->|Hne].
  - by rewrite Ha, Hchildren.
  - apply elem_of_cons in Hin as [->|Hin]; [done|].
    destruct (items !! id) as [[s|g']|]; try by apply IH.
    destruct (handleContainer fuel items (childIds g') acc); [by apply IH|done].
Qed.

Lemma entersCycle_child a :
  entersCycle items a →
  ∃ g b, items !! a = Some (ItemGroup g) ∧ b ∈ childIds g ∧ entersCycle items b.
Proof.
  intros (c & Hac & Hcc).
  destruct Hac as [a|a y c [g [Ha Hy]] Hyc].
  - inversion Hcc as [? ? [g [Ha Hb]]|? y ? [g [Ha Hy]] Hya]; subst.
    + exists g, a. repeat split; try done. exists a. split; [done|].
      apply tc_once. by exists g.
    + exists g, y. repeat split; try done. exists y. split; [done|].
      eapply tc_r; [done|]. by exists g.
  - exists g, y. repeat split; try done. by exists c.
Qed.

Lemma handleContainer_entersCycle fuel :
  ∀ ids a acc,
    a ∈ ids → entersCycle items a → handleContainer fuel items ids acc = None.
Proof.
  induction fuel as [|fuel IHf]; [done|].
  intros ids a acc Hin Hcyc.
  destruct (entersCycle_child a Hcyc) as (g & b & Ha & Hb & Hbcyc).
  eapply handleContainer_through; [done..|].
  intros acc'. by eapply IHf.
Qed.

Lemma preorder_app ids1 ids2 out :
  preorder items (ids1 ++ ids2) out ↔
  ∃ out1 out2, out = out1 ++ out2 ∧
               preorder items ids1 out1 ∧ preorder items ids2 out2.
Proof.
  split.
  - revert out. induction ids1 as [|id ids1 IH]; intros out H.
    + exists [], out. repeat split; [constructor|done].
    + simpl in H.
      inversion H as [|? s ? o Hs Ho|? g ? sub o Hg Hsub Ho|? ? o Hn Ho]; subst;
        destruct (IH _ Ho) as (o1 & o2 & -> & H1 & H2).
      * exists (s :: o1), o2. repeat split; [by constructor|done].
      * exists (sub ++ o1), o2. rewrite app_assoc.
        repeat split; [by eapply preorder_group|done].
      * exists o1, o2. repeat split; [by apply preorder_skip|done].
  - intros (out1 & out2 & -> & H1 & H2).
    induction H1; simpl; [done|..].
    + by apply preorder_shape.
    + rewrite <- app_assoc. by eapply preorder_group.
    + by apply preorder_skip.
Qed.

Lemma preorder_group_inline a g out :
  items !! a = Some (ItemGroup g) →
  preorder items [a] out ↔ preorder items (childIds g) out.
Proof.
  intros Ha. split.
  - intros H.
    inversion H as [|? s ? o Hs Ho|? g' ? sub o Hg Hsub Ho|? ? o Hn Ho]; subst;
      try congruence.
    inversion Ho; subst. rewrite app_nil_r.
    assert (g' = g) by congruence. by subst.
  - intros H. rewrite <- (app_nil_r out).
    eapply preorder_group; [done..|constructor].
Qed.
End FlattenMore.

(** Flattening a concatenated root list gives the concatenation: at a given
    stack depth the traversal of [ids1 ++ ids2] returns exactly when both
    traversals return, with their results joined. *)
Theorem getFlattenShapes_append :
  ∀ fuel d ids1 ids2 out,
    getFlattenShapes fuel (Some (withRootIds d (ids1 ++ ids2))) = Some out ↔
    ∃ out1 out2,
      out = out1 ++ out2 ∧
      getFlattenShapes fuel (Some (withRootIds d ids1)) = Some out1 ∧
      getFlattenShapes fuel (Some (withRootIds d ids2)) = Some out2.
Proof.
  intros fuel d ids1 ids2 out. simpl. rewrite handleContainer_app. split.
  - destruct (handleContainer fuel (items d) ids1 []) as [out1|]; [|done].
    rewrite handleContainer_acc.
    destruct (handleContainer fuel (items d) ids2 []) as [out2|]; [|done].
    intros [= <-]. eauto.
  - intros (out1 & out2 & -> & -> & H2). by rewrite handleContainer_acc, H2.
Qed.

(** A root from which the traversal comes to a group that is its own
    descendant exhausts the call stack at every depth, and a pass on such a
    diagram throws before it has touched the editor. *)
Theorem getFlattenShapes_cycle_overflows :
  ∀ d a,
    a ∈ rootIds d →
    entersCycle (items d) a →
    ∀ fuel,
      getFlattenShapes fuel (Some d) = None ∧
      ∀ isProduction props st doc,
        selectedDiagram props = Some d →
        diagramDoc st = Some doc →
        renderDiagram isProduction props fuel st = (Throw RangeError, st).
Proof.
  intros d a Hroot Hcyc fuel.
  assert (Hflat : getFlattenShapes fuel (Some d) = None).
  { simpl. by eapply handleContainer_entersCycle. }
  split; [done|].
  intros isProduction props st doc Hd Hdoc.
  unfold renderDiagram, bind, gets. by rewrite Hdoc, Hd, Hflat.
Qed.

Lemma getFlattenShapes_cycle_overflows_witness :
  getFlattenShapes 50 (Some cyclic_diagram) = None ∧
  renderDiagram false
    {| rendererService := demo_registry; selectedDiagram := Some cyclic_diagram |}
    50 demo_drawn = (Throw RangeError, demo_drawn).
Proof.
  assert (HA : child (items cyclic_diagram) "A" "B").
  { eexists. split; [reflexivity|]. right. left. }
  assert (HB : child (items cyclic_diagram) "B" "A").
  { eexists. split; [reflexivity|]. left. }
  destruct (getFlattenShapes_cycle_overflows cyclic_diagram "A") with (fuel := 50)
    as [Hflat Hpass].
  - right. left.
  - exists "A". split; [constructor|]. eapply tc_l; [exact HA|]. by apply tc_once.
  - split; [exact Hflat|]. by apply (Hpass false _ demo_drawn 100).
Defined.

(** In a list of ids a group stands for its children: the traversal returns
    the same sequences for a list and for the list in which a group id is
    replaced by the group's child ids. *)
Theorem getFlattenShapes_group_is_transparent :
  ∀ d a g pre post out,
    items d !! a = Some (ItemGroup g) →
    (∃ fuel, getFlattenShapes fuel (Some (withRootIds d (pre ++ a :: post))) = Some out) ↔
    (∃ fuel, getFlattenShapes fuel
               (Some (withRootIds d (pre ++ childIds g ++ post))) = Some out).
Proof.
  intros d a g pre post out Ha.
  rewrite !getFlattenShapes_iff_preorder. simpl.
  change (a :: post) with ([a] ++ post).
  rewrite !preorder_app.
  split; intros (o1 & o23 & -> & H1 & (o2 & o3 & -> & H2 & H3)%preorder_app);
    exists o1, (o2 ++ o3); (split; [done|]); (split; [done|]);
    apply preorder_app; exists o2, o3; (split; [done|]); (split; [|done]);
    by eapply preorder_group_inline.
Qed.

Lemma getFlattenShapes_group_is_transparent_witness :
  (∃ fuel, getFlattenShapes fuel
             (Some (withRootIds flat_diagram (["S1"] ++ "G1" :: ["S1"]))) =
           Some [flat_shape 1 "S1"; flat_shape 2 "S2"; flat_shape 3 "S3";
                 flat_shape 1 "S1"]) ↔
  (∃ fuel, getFlattenShapes fuel
             (Some (withRootIds flat_diagram (["S1"] ++ ["S2"; "S3"] ++ ["S1"]))) =
           Some [flat_shape 1 "S1"; flat_shape 2 "S2"; flat_shape 3 "S3";
                 flat_shape 1 "S1"]).
Proof.
  apply (getFlattenShapes_group_is_transparent flat_diagram "G1"
           {| group_id := "G1"; childIds := ["S2"; "S3"] |}).
  reflexivity.
Defined.

(** The flattened sequence holds shapes of the item mapping only, and it
    holds every shape that a root id names. *)
Theorem getFlattenShapes_lists_items_only :
  ∀ fuel d out,
    getFlattenShapes fuel (Some d) = Some out →
    (∀ s, s ∈ out → ∃ k, items d !! k = Some (ItemShape s)) ∧
    (∀ k s, k ∈ rootIds d → items d !! k = Some (ItemShape s) → s ∈ out).
Proof.
  intros fuel d out Hflat.
  assert (Hpre : preorder (items d) (rootIds d) out)
    by (apply getFlattenShapes_iff_preorder; eauto).
  split.
  - intros s Hs. by eapply preorder_resolves.
  - clear Hflat. intros k s Hk Hks.
    induction Hpre as [|id s' ids out Hs _ IH|id g ids sub out Hg _ _ _ IH
                       |id ids out Hn _ IH].
    + by apply elem_of_nil in Hk.
    + apply elem_of_cons in Hk as [->|Hk].
      * assert (s' = s) by congruence. subst. left.
      * right. by apply IH.
    + apply elem_of_app. right.
      apply elem_of_cons in Hk as [->|Hk]; [congruence|]. by apply IH.
    + apply elem_of_cons in Hk as [->|Hk]; [congruence|]. by apply IH.
Qed.

Lemma getFlattenShapes_lists_items_only_witness :
  (∀ s, s ∈ [flat_shape 2 "S2"; flat_shape 3 "S3"; flat_shape 1 "S1"] →
        ∃ k, items flat_diagram !! k = Some (ItemShape s)) ∧
  (∀ k s, k ∈ rootIds flat_diagram →
          items flat_diagram !! k = Some (ItemShape s) →
          s ∈ [flat_shape 2 "S2"; flat_shape 3 "S3"; flat_shape 1 "S1"]).
Proof.
  apply (getFlattenShapes_lists_items_only 2 flat_diagram).
  reflexivity.
Defined.
(** * Passes: further properties *)

Lemma Editor_eq (a b : Editor) :
  diagramDoc a = diagramDoc b → shapeRefsById a = shapeRefsById b →
  shapeRefsByRenderElement a = shapeRefsByRenderElement b →
  heap a = heap b → scene a = scene b → nextElement a = nextElement b →
  contexts a = contexts b → renderLog a = renderLog b → a = b.
Proof. destruct a, b. simpl. by intros -> -> -> -> -> -> -> ->. Qed.

Section Tables.
Context (isProduction : bool) (props : EditorProps) (doc : Doc).

(** The render loop registers ids of its shapes only. *)
Lemma renderLoop_keys sp shapes st' :
  wf sp → diagramDoc sp = Some doc →
  (∀ id e, elementOf sp id = Some e → e ∉ (scene sp).*1) →
  forEach (renderShape isProduction props doc) shapes sp = (Return tt, st') →
  looping doc sp shapes st' ∧
  ∀ id this, shapeRefsById st' !! id = Some this →
             id ∈ shape_id <$> shapes ∨ shapeRefsById sp !! id = Some this.
Proof.
  intros Hwf Hdoc Hdet.
  apply (forEach_Return_visited _
           (λ visited st, looping doc sp visited st ∧
              ∀ id this, shapeRefsById st !! id = Some this →
                id ∈ shape_id <$> visited ∨ shapeRefsById sp !! id = Some this)).
  - intros visited x rest st st1 _ [Hl Hkeys] Hrun.
    destruct (renderShape_Return_stepped isProduction props doc x st st1)
      as (this & e & Hstep);
      [by apply (looping_wf _ _ _ _ Hl)|by apply (looping_doc _ _ _ _ Hl)|done|].
    split; [by eapply looping_step|].
    intros id l. rewrite (stepped_byId _ _ _ _ _ _ Hstep), fmap_app, elem_of_app.
    destruct (decide (id = shape_id x)) as [->|Hne].
    + intros _. left. right. simpl. left.
    + rewrite lookup_insert_ne by done. intros [?|?]%Hkeys; auto.
  - split; [by apply looping_start|]. auto.
Qed.
End Tables.

(** After a pass that returns, [shapeRefsById] has exactly the ids of the
    flattened shapes as its keys. *)
Theorem renderDiagram_registers_exactly_the_flattened_ids :
  ∀ isProduction props fuel st st' doc shapes,
    wf st →
    diagramDoc st = Some doc →
    getFlattenShapes fuel (selectedDiagram props) = Some shapes →
    renderDiagram isProduction props fuel st = (Return tt, st') →
    ∀ id, is_Some (shapeRefsById st' !! id) ↔ id ∈ shape_id <$> shapes.
Proof.
  intros isProduction props fuel st st' doc shapes Hwf Hdoc Hflat Hrun id.
  rewrite (renderDiagram_reconcile _ _ _ _ doc shapes) in Hrun by done.
  destruct (reconcile_pruned isProduction props st doc shapes Hwf Hdoc)
    as (sp & Hrec & Hwfp & Hdocp & _ & _ & _ & _ & HbyId & _ & Hdet).
  rewrite Hrec in Hrun.
  destruct (renderLoop_keys isProduction props doc sp shapes st') as [Hl Hkeys];
    [done..|].
  split.
  - intros [this Hid]. destruct (Hkeys _ _ Hid) as [?|Hsp]; [done|].
    rewrite HbyId in Hsp. by case_decide.
  - intros (s & -> & Hs)%list_elem_of_fmap.
    destruct (looping_attached _ _ _ _ Hl s Hs) as (this & _ & Hid & _). eauto.
Qed.

Lemma renderDiagram_registers_exactly_the_flattened_ids_witness :
  (is_Some (shapeRefsById (demo_pass [demo_Y; demo_X2; demo_W] demo_drawn) !! "W") ↔
   "W" ∈ shape_id <$> [demo_Y; demo_X2; demo_W]) ∧
  (is_Some (shapeRefsById (demo_pass [demo_Y; demo_X2; demo_W] demo_drawn) !! "Z") ↔
   "Z" ∈ shape_id <$> [demo_Y; demo_X2; demo_W]).
Proof.
  split;
    apply (renderDiagram_registers_exactly_the_flattened_ids false
             (demo_props [demo_Y; demo_X2; demo_W]) 1 demo_drawn
             (demo_pass [demo_Y; demo_X2; demo_W] demo_drawn) 100);
    [exact wf_demo_drawn | reflexivity | reflexivity | vm_compute; reflexivity
    |exact wf_demo_drawn | reflexivity | reflexivity | vm_compute; reflexivity].
Defined.

(** After a pass that returns, the two tables agree: the [ShapeRef]
    registered under an id owns an element, is registered under that
    element's id as well, and the element is attached to the document. *)
Theorem renderDiagram_tables_agree :
  ∀ isProduction props fuel st st' doc shapes,
    wf st →
    diagramDoc st = Some doc →
    getFlattenShapes fuel (selectedDiagram props) = Some shapes →
    renderDiagram isProduction props fuel st = (Return tt, st') →
    ∀ id this,
      shapeRefsById st' !! id = Some this →
      ∃ e, elementOf st' id = Some e ∧
           shapeRefsByRenderElement st' !! e = Some this ∧
           (e, doc) ∈ scene st'.
Proof.
  intros isProduction props fuel st st' doc shapes Hwf Hdoc Hflat Hrun id this Hid.
  rewrite (renderDiagram_reconcile _ _ _ _ doc shapes) in Hrun by done.
  destruct (reconcile_pruned isProduction props st doc shapes Hwf Hdoc)
    as (sp & Hrec & Hwfp & Hdocp & _ & _ & _ & _ & HbyId & _ & Hdet).
  rewrite Hrec in Hrun.
  destruct (renderLoop_keys isProduction props doc sp shapes st') as [Hl Hkeys];
    [done..|].
  assert (Hin : id ∈ shape_id <$> shapes).
  { destruct (Hkeys _ _ Hid) as [?|Hsp]; [done|].
    rewrite HbyId in Hsp. by case_decide. }
  apply list_elem_of_fmap in Hin as (s & -> & Hs).
  destruct (looping_attached _ _ _ _ Hl s Hs) as (this' & e & Hid' & ? & ? & ?).
  exists e. assert (this' = this) by congruence. by subst.
Qed.

Lemma renderDiagram_tables_agree_witness :
  ∃ e, elementOf (demo_pass [demo_Y; demo_X2; demo_W] demo_drawn) "X" = Some e ∧
       shapeRefsByRenderElement (demo_pass [demo_Y; demo_X2; demo_W] demo_drawn) !! e =
         Some 0 ∧
       (e, 100) ∈ scene (demo_pass [demo_Y; demo_X2; demo_W] demo_drawn).
Proof.
  apply (renderDiagram_tables_agree false
           (demo_props [demo_Y; demo_X2; demo_W]) 1 demo_drawn
           (demo_pass [demo_Y; demo_X2; demo_W] demo_drawn) 100
           [demo_Y; demo_X2; demo_W]).
  - exact wf_demo_drawn.
  - reflexivity.
  - reflexivity.
  - vm_compute. reflexivity.
  - reflexivity.
Defined.

(** A pass over no shapes at all (no diagram selected, or nothing flattened)
    returns, empties [shapeRefsById] and detaches every element of a
    registered ref; it creates nothing and invokes no renderer.  Without a
    diagram the flattening is empty at any stack depth. *)
Theorem renderDiagram_without_shapes_clears :
  (∀ fuel, getFlattenShapes fuel None = Some []) ∧
  (∀ isProduction props fuel st doc,
     wf st →
     diagramDoc st = Some doc →
     getFlattenShapes fuel (selectedDiagram props) = Some [] →
     ∃ st',
       renderDiagram isProduction props fuel st = (Return tt, st') ∧
       shapeRefsById st' = ∅ ∧
       scene st' = filter (λ p, p.1 ∉ ownedElements st) (scene st) ∧
       heap st' = heap st ∧ nextElement st' = nextElement st ∧
       renderLog st' = renderLog st).
Proof.
  split; [done|].
  intros isProduction props fuel st doc Hwf Hdoc Hflat.
  rewrite (renderDiagram_reconcile _ _ _ _ doc []) by done.
  destruct (reconcile_pruned isProduction props st doc [] Hwf Hdoc)
    as (sp & -> & _ & _ & Hheap & Hnext & Hlog & Hscene & HbyId & _).
  exists sp. split; [done|]. split; [|done].
  apply map_eq. intros id. rewrite HbyId, lookup_empty.
  rewrite decide_False; [done|]. simpl. apply not_elem_of_nil.
Qed.

Lemma renderDiagram_without_shapes_clears_witness :
  ∃ st',
    renderDiagram false {| rendererService := demo_registry; selectedDiagram := None |}
      0 demo_drawn = (Return tt, st') ∧
    shapeRefsById st' = ∅ ∧
    scene st' = filter (λ p, p.1 ∉ ownedElements demo_drawn) (scene demo_drawn) ∧
    heap st' = heap demo_drawn ∧ nextElement st' = nextElement demo_drawn ∧
    renderLog st' = renderLog demo_drawn.
Proof.
  apply (proj2 renderDiagram_without_shapes_clears false
           {| rendererService := demo_registry; selectedDiagram := None |}
           0 demo_drawn 100).
  - exact wf_demo_drawn.
  - reflexivity.
  - reflexivity.
Defined.

(** The invariant [wf] holds of the new editor, survives the first binding
    of the scene document with its two passes, and survives every later
    pass, whether the pass returns or throws. *)
Theorem editor_invariant_is_kept :
  wf newEditor ∧
  (∀ isProduction props fuel doc r st',
     initDiagramScope isProduction props fuel doc newEditor = (r, st') →
     wf st' ∧ diagramDoc st' = Some doc) ∧
  (∀ isProduction props fuel st r st',
     wf st →
     renderDiagram isProduction props fuel st = (r, st') →
     wf st' ∧ diagramDoc st' = diagramDoc st).
Proof.
  split; [exact wf_newEditor|]. split.
  - intros isProduction props fuel doc r st' Hrun.
    by eapply initDiagramScope_wf; [exact wf_newEditor| |exact Hrun].
  - intros isProduction props fuel st r st' Hwf Hrun. by eapply renderDiagram_wf.
Qed.

Lemma editor_invariant_is_kept_witness :
  (wf (initDiagramScope false (demo_props [demo_Z; demo_Y]) 1 100 newEditor).2 ∧
   diagramDoc (initDiagramScope false (demo_props [demo_Z; demo_Y]) 1 100 newEditor).2 =
     Some 100) ∧
  (wf (demo_pass [demo_Y; demo_Z; demo_W] demo_drawn) ∧
   diagramDoc (demo_pass [demo_Y; demo_Z; demo_W] demo_drawn) = diagramDoc demo_drawn).
Proof.
  split.
  - apply (proj1 (proj2 editor_invariant_is_kept) false (demo_props [demo_Z; demo_Y])
             1 100 (Throw TypeError)).
    vm_compute. reflexivity.
  - apply (proj2 (proj2 editor_invariant_is_kept) false
             (demo_props [demo_Y; demo_Z; demo_W]) 1 demo_drawn (Throw TypeError)).
    + exact wf_demo_drawn.
    + vm_compute. reflexivity.
Defined.

Lemma renderDiagram_stale_unregistered_witness :
  shapeRefsById (demo_pass [demo_Y] demo_drawn) !! "X" = None ∧
  shapeRefsByRenderElement (demo_pass [demo_Y] demo_drawn) !! 0 = None ∧
  0 ∉ (scene (demo_pass [demo_Y] demo_drawn)).*1.
Proof.
  apply (renderDiagram_stale_unregistered false (demo_props [demo_Y]) 1 demo_drawn
           100 [demo_Y] "X" 0 (Return tt)).
  - exact wf_demo_drawn.
  - reflexivity.
  - reflexivity.
  - reflexivity.
  - simpl. rewrite list_elem_of_singleton. discriminate.
  - vm_compute. reflexivity.
Defined.
(** ** The order of the prune loop *)

(** The [for ... in] loop may visit the keys of [shapeRefsById] in any
    order: every order of visit leaves the same state. *)
Theorem prune_order_is_irrelevant :
  ∀ allShapesById st ids,
    wf st →
    ids ≡ₚ (map_to_list (shapeRefsById st)).*1 →
    forEach (pruneRef allShapesById) ids st =
    forEach (pruneRef allShapesById) (map_to_list (shapeRefsById st)).*1 st.
Proof.
  intros allShapesById st ids Hwf Hperm.
  assert (Hreg : ∀ id, id ∈ (map_to_list (shapeRefsById st)).*1 →
                       is_Some (elementOf st id)).
  { intros id Hin. apply list_elem_of_fmap in Hin as ([id' this] & -> & Hin).
    apply elem_of_map_to_list in Hin.
    destruct (wf_elementOf _ _ _ Hwf Hin) as (? & e & ? & _ & _ & He & _). eauto. }
  destruct (pruneLoop_spec allShapesById ids st)
    as (s1 & -> & Hdoc1 & Hheap1 & Hnext1 & Hctx1 & Hlog1 & Hsc1 & Hid1 & Hel1).
  { exact (wf_plain _ Hwf). }
  { rewrite Hperm. apply NoDup_fst_map_to_list. }
  { intros id Hin. apply Hreg. by rewrite <- Hperm. }
  destruct (pruneLoop_spec allShapesById (map_to_list (shapeRefsById st)).*1 st)
    as (s2 & -> & Hdoc2 & Hheap2 & Hnext2 & Hctx2 & Hlog2 & Hsc2 & Hid2 & Hel2);
    [exact (wf_plain _ Hwf)|apply NoDup_fst_map_to_list|done|].
  f_equal. apply Editor_eq; try congruence.
  - apply map_eq. intros id. rewrite Hid1, Hid2.
    destruct (decide (id ∈ ids ∧ ¬ live allShapesById id)) as [[? ?]|Hn].
    + rewrite decide_True; [done|]. by rewrite <- Hperm.
    + rewrite decide_False; [done|]. by rewrite <- Hperm.
  - apply map_eq. intros e. rewrite Hel1, Hel2.
    assert (e ∈ omap (elementOf st) (filter (λ id, ¬ live allShapesById id) ids) ↔
            e ∈ omap (elementOf st)
                  (filter (λ id, ¬ live allShapesById id)
                          (map_to_list (shapeRefsById st)).*1)) as Hiff.
    { rewrite !list_elem_of_omap.
      split; intros (id & Hin & ?); exists id; (split; [|done]);
        apply list_elem_of_filter in Hin as [? Hin]; apply list_elem_of_filter;
        (split; [done|]).
      - by rewrite <- Hperm.
      - by rewrite Hperm. }
    destruct (decide (e ∈ omap (elementOf st)
                            (filter (λ id, ¬ live allShapesById id) ids))) as [?|Hn].
    + rewrite decide_True; [done|]. by apply Hiff.
    + rewrite decide_False; [done|]. by rewrite <- Hiff.
  - rewrite Hsc1, Hsc2. apply list_filter_iff. intros p.
    rewrite !list_elem_of_omap.
    split; intros Hn (id & Hin & ?); apply Hn; exists id; (split; [|done]).
    + by rewrite Hperm.
    + by rewrite <- Hperm.
Qed.

Lemma prune_order_is_irrelevant_witness :
  forEach (pruneRef (liveIds [demo_Y])) ["X"; "Y"] demo_drawn =
  forEach (pruneRef (liveIds [demo_Y]))
    (map_to_list (shapeRefsById demo_drawn)).*1 demo_drawn.
Proof.
  apply (prune_order_is_irrelevant (liveIds [demo_Y]) demo_drawn ["X"; "Y"]).
  - exact wf_demo_drawn.
  - vm_compute. apply perm_swap.
Defined.

(** ** What a pass does to the scene *)

Lemma NoDup_fst_filter {A B} (P : A * B → Prop) `{∀ x, Decision (P x)}
    (l : list (A * B)) :
  NoDup l.*1 → NoDup (filter P l).*1.
Proof.
  induction l as [|x l IH]; [done|]. rewrite fmap_cons, NoDup_cons.
  intros [Hx Hl]. rewrite filter_cons. destruct (decide (P x)); [|by apply IH].
  rewrite fmap_cons, NoDup_cons. split; [|by apply IH].
  intros Hin. apply Hx.
  apply list_elem_of_fmap in Hin as (y & -> & Hy).
  apply list_elem_of_filter in Hy as [_ Hy]. by apply list_elem_of_fmap_2.
Qed.

(** No pass attaches an element twice: elements that are pairwise distinct
    in the scene before a pass are so after it, whether it returns or
    throws. *)
Theorem renderDiagram_attaches_no_element_twice :
  ∀ isProduction props fuel st r st',
    wf st →
    NoDup (scene st).*1 →
    renderDiagram isProduction props fuel st = (r, st') →
    NoDup (scene st').*1.
Proof.
  intros isProduction props fuel st r st' Hwf Hnd Hrun.
  unfold renderDiagram, bind at 1, gets at 1 in Hrun.
  destruct (diagramDoc st) as [doc|] eqn:Hdoc.
  2:{ by injection Hrun as <- <-. }
  destruct (getFlattenShapes fuel (selectedDiagram props)) as [shapes|].
  2:{ by injection Hrun as <- <-. }
  destruct (reconcile_pruned isProduction props st doc shapes Hwf Hdoc)
    as (sp & Hrec & Hwfp & Hdocp & _ & _ & _ & Hscene & _).
  rewrite Hrec in Hrun.
  cut (wf st' ∧ diagramDoc st' = Some doc ∧ NoDup (scene st').*1); [tauto|].
  revert Hrun.
  apply (forEach_any_inv _
           (λ s, wf s ∧ diagramDoc s = Some doc ∧ NoDup (scene s).*1)).
  - intros x s r' s' _ (Hw & Hd & Hn) Hx.
    destruct (renderShape_cases isProduction props doc x s Hw Hd)
      as [(s1 & this & e & Hx' & Hstep)|(_ & _ & Hx')];
      rewrite Hx in Hx'; injection Hx' as -> ->.
    + split; [by eapply stepped_wf|].
      split; [by rewrite (stepped_doc _ _ _ _ _ _ Hstep)|].
      rewrite (stepped_scene _ _ _ _ _ _ Hstep), fmap_app.
      apply NoDup_app. split; [by apply NoDup_fst_filter|].
      split; [|apply NoDup_singleton].
      intros e' Hin ->%list_elem_of_singleton.
      apply list_elem_of_fmap in Hin as (p & Hp & Hin).
      apply list_elem_of_filter in Hin as [Hne _]. by apply Hne.
    + unfold thrownAt. case_decide; [done|].
      split; [by apply wf_alloc|done].
  - split; [done|]. split; [done|]. rewrite Hscene. by apply NoDup_fst_filter.
Qed.

Lemma renderDiagram_attaches_no_element_twice_witness :
  NoDup (scene (demo_pass [demo_X1; demo_Y; demo_X2; demo_Z] demo_drawn)).*1.
Proof.
  apply (renderDiagram_attaches_no_element_twice false
           (demo_props [demo_X1; demo_Y; demo_X2; demo_Z]) 1 demo_drawn
           (Throw TypeError)).
  - exact wf_demo_drawn.
  - vm_compute. repeat constructor; rewrite ?elem_of_cons, ?elem_of_nil; intuition lia.
  - vm_compute. reflexivity.
Defined.

(** A pass leaves alone the attached elements that no registered ref owns:
    whether it returns or throws, they stay where they are, in their order,
    and whatever the pass attaches comes after them, as a child of the
    editor's document. *)
Theorem renderDiagram_keeps_foreign_elements :
  ∀ isProduction props fuel st doc shapes r st',
    wf st →
    diagramDoc st = Some doc →
    getFlattenShapes fuel (selectedDiagram props) = Some shapes →
    renderDiagram isProduction props fuel st = (r, st') →
    ∃ attached,
      scene st' = filter (λ p, p.1 ∉ ownedElements st) (scene st) ++ attached ∧
      ∀ p, p ∈ attached → p.2 = doc.
Proof.
  intros isProduction props fuel st doc shapes r st' Hwf Hdoc Hflat Hrun.
  rewrite (renderDiagram_reconcile _ _ _ _ doc shapes) in Hrun by done.
  destruct (reconcile_pruned isProduction props st doc shapes Hwf Hdoc)
    as (sp & Hrec & Hwfp & Hdocp & _ & _ & _ & Hscene & _ & _ & Hdet).
  rewrite Hrec in Hrun. rewrite <- Hscene.
  cut (wf st' ∧ diagramDoc st' = Some doc ∧ nextElement sp ≤ nextElement st' ∧
       (∀ p id, p ∈ scene sp → elementOf st' id ≠ Some p.1) ∧
       ∃ attached, scene st' = scene sp ++ attached ∧ ∀ p, p ∈ attached → p.2 = doc).
  { intros (_ & _ & _ & _ & H). done. }
  revert Hrun.
  apply (forEach_any_inv _
    (λ s, wf s ∧ diagramDoc s = Some doc ∧ nextElement sp ≤ nextElement s ∧
          (∀ p id, p ∈ scene sp → elementOf s id ≠ Some p.1) ∧
          ∃ attached, scene s = scene sp ++ attached ∧
                      ∀ p, p ∈ attached → p.2 = doc)).
  - intros x s r' s' _ (Hw & Hd & Hnext & Hforeign & attached & Hsc & Hatt) Hx.
    destruct (renderShape_cases isProduction props doc x s Hw Hd)
      as [(s1 & this & e & Hx' & Hstep)|(_ & _ & Hx')];
      rewrite Hx in Hx'; injection Hx' as -> ->.
    + assert (He : ∀ p, p ∈ scene sp → p.1 ≠ e).
      { intros p Hp Heq.
        destruct (stepped_how _ _ _ _ _ _ Hstep)
          as [(_ & _ & Hown & _)|(r0 & dbg & _ & Hfresh & _)].
        - apply (Hforeign p (shape_id x) Hp). by rewrite Heq.
        - apply (wf_scene _ Hwfp) in Hp. lia. }
      split; [by eapply stepped_wf|].
      split; [by rewrite (stepped_doc _ _ _ _ _ _ Hstep)|].
      split; [pose proof (stepped_next _ _ _ _ _ _ Hstep); lia|].
      split.
      * intros p id Hp Hown.
        destruct (decide (id = shape_id x)) as [->|Hne].
        -- erewrite stepped_elementOf_this in Hown by done.
           injection Hown as Heq. by apply (He p).
        -- erewrite stepped_elementOf_other in Hown by done.
           by apply (Hforeign p id).
      * exists (filter (λ p, p.1 ≠ e) attached ++ [(e, doc)]). split.
        -- rewrite (stepped_scene _ _ _ _ _ _ Hstep), Hsc, filter_app.
           rewrite (filter_id _ (scene sp)) by done. by rewrite app_assoc.
        -- intros p [Hp| ->%list_elem_of_singleton]%elem_of_app; [|done].
           apply list_elem_of_filter in Hp as [_ Hp]. by apply Hatt.
    + unfold thrownAt. case_decide; [by eauto 10|].
      split; [by apply wf_alloc|]. do 2 (split; [done|]).
      split; [|by exists attached].
      intros p id Hp. rewrite elementOf_alloc by done. by apply Hforeign.
  - split; [done|]. split; [done|]. split; [done|]. split.
    + intros p id Hp Hown. apply (Hdet _ _ Hown). by apply list_elem_of_fmap_2.
    + exists []. split; [by rewrite app_nil_r|]. by intros p ?%elem_of_nil.
Qed.

Lemma wf_set_scene st sc :
  wf st → (∀ p, p ∈ sc → p.1 < nextElement st) → wf (set_scene sc st).
Proof.
  intros Hwf Hsc. split; [apply Hwf..|done].
Qed.

Lemma wf_demo_foreign : wf demo_foreign.
Proof.
  apply wf_set_scene.
  - apply (renderDiagram_wf false (demo_props [demo_X1; demo_Y]) 1
             demo_start_foreign (Return tt)).
    + split; simpl.
      * intros id _. apply lookup_empty.
      * intros id1 id2 this H. by rewrite lookup_empty in H.
      * intros id this H. by rewrite lookup_empty in H.
      * intros id1 id2 e H. unfold elementOf in H. simpl in H.
        by rewrite lookup_empty in H.
      * intros p ->%list_elem_of_singleton. simpl. lia.
    + vm_compute. reflexivity.
  - intros p Hp. vm_compute in Hp.
    repeat (apply elem_of_cons in Hp as [->|Hp]); try (vm_compute; lia).
    by apply elem_of_nil in Hp.
Qed.

Lemma renderDiagram_keeps_foreign_elements_witness :
  ∃ attached,
    scene (demo_pass [demo_Y; demo_Z] demo_foreign) =
    filter (λ p, p.1 ∉ ownedElements demo_foreign) (scene demo_foreign) ++ attached ∧
    ∀ p, p ∈ attached → p.2 = 100.
Proof.
  apply (renderDiagram_keeps_foreign_elements false (demo_props [demo_Y; demo_Z]) 1
           demo_foreign 100 [demo_Y; demo_Z] (Throw TypeError)).
  - exact wf_demo_foreign.
  - reflexivity.
  - reflexivity.
  - vm_compute. reflexivity.
Defined.
(** ** Rendering twice *)

Lemma filter_ne_singleton (e doc : nat) :
  filter (λ p : nat * nat, p.1 ≠ e) [(e, doc)] = [].
Proof. rewrite filter_cons, decide_False by (simpl; tauto). done. Qed.

Lemma set_shape_idemp shape ref :
  set_shape shape (set_shape shape ref) = set_shape shape ref.
Proof. reflexivity. Qed.

Lemma set_shape_same shape ref :
  ref_shape ref = Some shape → set_shape shape ref = ref.
Proof. destruct ref. simpl. by intros ->. Qed.

(** [render(shape)] called again with the same shape changes nothing: the
    second call re-attaches the element, which already is the last child,
    and invokes no renderer.  The scene is taken to hold elements that
    svg.js has already numbered. *)
Theorem ShapeRef_render_twice_is_once :
  ∀ st this shape st1,
    (∀ p, p ∈ scene st → p.1 < nextElement st) →
    ShapeRef_render this shape st = (Return tt, st1) →
    ShapeRef_render this shape st1 = (Return tt, st1).
Proof.
  intros st this shape st1 Hscene Hrun.
  destruct (heap st !! this) as [ref|] eqn:Href.
  2:{ unfold ShapeRef_render, bind at 1, deref in Hrun. by rewrite Href in Hrun. }
  assert (Hlen : this < length (heap st)) by by eapply lookup_lt_Some.
  destruct (mustRender ref shape) eqn:Hm.
  - destruct (ref_renderer ref) as [r|] eqn:Hr.
    2:{ unfold ShapeRef_render in Hrun.
        rewrite (bind_Return _ _ _ _ _ (deref_Return _ _ _ Href)), Hm, Hr in Hrun.
        discriminate. }
    rewrite (ShapeRef_render_full st this ref r shape) in Hrun by done.
    injection Hrun as <-.
    set (ref1 := set_shape shape (set_renderedElement (nextElement st) ref)).
    rewrite (ShapeRef_render_cheap _ this ref1 (nextElement st) shape).
    + f_equal. unfold reattached, rerendered. apply Editor_eq; cbn; try done.
      * fold ref1. by rewrite list_insert_insert_eq.
      * rewrite filter_app, filter_ne_singleton, app_nil_r.
        by rewrite filter_fresh.
    + cbn. by apply list_lookup_insert_eq.
    + done.
    + apply mustRender_false. exists shape, (nextElement st). done.
  - pose proof Hm as Hm'.
    apply mustRender_false in Hm' as (last & e & Hlast & Hobj & He).
    rewrite (ShapeRef_render_cheap st this ref e shape) in Hrun by done.
    injection Hrun as <-.
    rewrite (ShapeRef_render_cheap _ this (set_shape shape ref) e shape).
    + f_equal. unfold reattached. apply Editor_eq; cbn; try done.
      * by rewrite list_insert_insert_eq.
      * rewrite filter_app, filter_ne_singleton, app_nil_r.
        by rewrite filter_idemp.
    + cbn. by apply list_lookup_insert_eq.
    + done.
    + apply mustRender_false. exists shape, e. done.
Qed.

Lemma ShapeRef_render_twice_is_once_witness :
  ShapeRef_render 0 demo_X2 (ShapeRef_render 0 demo_X2 demo_drawn).2 =
  (Return tt, (ShapeRef_render 0 demo_X2 demo_drawn).2).
Proof.
  apply (ShapeRef_render_twice_is_once demo_drawn 0 demo_X2).
  - apply (wf_scene _ wf_demo_drawn).
  - vm_compute. reflexivity.
Defined.

(** ** The first binding of the document *)

Lemma NoDup_fmap_same {A B} (f : A → B) (l : list A) x y :
  NoDup (f <$> l) → x ∈ l → y ∈ l → f x = f y → x = y.
Proof.
  intros Hnd Hx Hy Heq.
  apply list_elem_of_lookup in Hx as [i Hi].
  apply list_elem_of_lookup in Hy as [j Hj].
  assert (i = j).
  { eapply NoDup_lookup; [done|..].
    - by rewrite list_lookup_fmap, Hi.
    - by rewrite list_lookup_fmap, Hj, Heq. }
  subst. congruence.
Qed.

Section FirstPass.
Context (isProduction : bool) (props : EditorProps) (doc : Doc).

(** On shapes with pairwise distinct ids that name no inherited property,
    none of them registered and each with a renderer in the registry, the
    render loop returns after invoking the renderer once per shape, in the
    order of the list. *)
Lemma renderLoop_fresh sp shapes :
  wf sp → diagramDoc sp = Some doc →
  (∀ id e, elementOf sp id = Some e → e ∉ (scene sp).*1) →
  NoDup (shape_id <$> shapes) →
  (∀ s, s ∈ shapes → shapeRefsById sp !! shape_id s = None) →
  (∀ s, s ∈ shapes → shape_id s ∉ Object_prototype) →
  (∀ s, s ∈ shapes → is_Some (rendererService props !! shape_renderer s)) →
  ∃ st',
    forEach (renderShape isProduction props doc) shapes sp = (Return tt, st') ∧
    looping doc sp shapes st' ∧
    call_shape <$> callsSince sp st' = shapes.
Proof.
  intros Hwf Hdoc Hdet Hnd Hnew Hplain Hreg.
  apply (forEach_total_visited _
           (λ visited st, looping doc sp visited st ∧
                          call_shape <$> callsSince sp st = visited)).
  - intros visited x rest st Hshapes [Hl Hcalls].
    assert (Hx : x ∈ shapes) by (rewrite Hshapes, elem_of_app; right; left).
    assert (Hunvisited : shape_id x ∉ shape_id <$> visited).
    { rewrite Hshapes, fmap_app in Hnd. apply NoDup_app in Hnd as (_ & Hnd & _).
      intros Hin. apply (Hnd _ Hin). simpl. left. }
    assert (Hnone : shapeRefsById st !! shape_id x = None).
    { destruct (looping_untouched _ _ _ _ Hl _ Hunvisited) as [-> _].
      by apply Hnew. }
    destruct (renderShape_cases isProduction props doc x st)
      as [(st1 & this & e & Hrun & Hstep)|(_ & Hmiss & _)];
      [by apply (looping_wf _ _ _ _ Hl)|by apply (looping_doc _ _ _ _ Hl)|
       |destruct Hmiss as [Hin|Hmiss];
          [by destruct (Hplain x Hx)|destruct (Hreg x Hx); congruence]].
    exists st1. split; [done|]. split; [by eapply looping_step|].
    destruct (stepped_how _ _ _ _ _ _ Hstep)
      as [(_ & _ & Hown & _)|(r & dbg & Hlog & _)].
    + apply elementOf_Some in Hown as (? & ? & ? & _). congruence.
    + unfold callsSince in *. rewrite Hlog.
      rewrite drop_app_le by apply (looping_log _ _ _ _ Hl).
      by rewrite fmap_app, Hcalls.
  - split; [by apply looping_start|].
    unfold callsSince. by rewrite drop_all.
Qed.
End FirstPass.

(** [initDiagramScope(doc)] on the new editor, for flattened shapes with
    pairwise distinct ids, none of which names a property of
    [Object.prototype], that all have a renderer in the registry: the
    document is bound, both passes return, and although there are two
    passes the renderer is invoked exactly once for each shape, in flattened
    order. *)
Theorem initDiagramScope_renders_each_shape_once :
  ∀ isProduction props fuel doc shapes,
    getFlattenShapes fuel (selectedDiagram props) = Some shapes →
    NoDup (shape_id <$> shapes) →
    (∀ s, s ∈ shapes → shape_id s ∉ Object_prototype) →
    (∀ s, s ∈ shapes → is_Some (rendererService props !! shape_renderer s)) →
    ∃ st',
      initDiagramScope isProduction props fuel doc newEditor = (Return tt, st') ∧
      diagramDoc st' = Some doc ∧
      call_shape <$> renderLog st' = shapes ∧
      ∀ id, is_Some (shapeRefsById st' !! id) ↔ id ∈ shape_id <$> shapes.
Proof.
  intros isProduction props fuel doc shapes Hflat Hnd Hown Hreg.
  set (s0 := set_diagramDoc (Some doc) newEditor).
  assert (Hwf0 : wf s0) by (apply wf_set_diagramDoc; [apply wf_newEditor|done]).
  assert (Hsame : ∀ s t, s ∈ shapes → t ∈ shapes → shape_id s = shape_id t → s = t).
  { intros s t. by apply NoDup_fmap_same. }
  destruct (reconcile_pruned isProduction props s0 doc shapes Hwf0 eq_refl)
    as (sp0 & Hrec0 & Hwfp0 & Hdocp0 & _ & _ & Hlog0 & _ & HbyId0 & _ & Hdet0).
  destruct (renderLoop_fresh isProduction props doc sp0 shapes)
    as (st1 & Hrun1 & Hl1 & Hcalls1); [done..| |done|done|].
  { intros s _. rewrite HbyId0. by case_decide. }
  destruct (renderLoop_lastShape isProduction props doc shapes Hsame sp0 st1)
    as (Hwf1 & Hdoc1 & Hlast1); [done..|].
  destruct (reconcile_pruned isProduction props st1 doc shapes Hwf1 Hdoc1)
    as (sp1 & Hrec1 & Hwfp1 & Hdocp1 & Hheap1 & _ & Hlog1 & _ & HbyId1 & _ & Hdet1).
  destruct (renderLoop_cheap isProduction props doc shapes Hsame sp1)
    as (st2 & Hrun2 & Hl2 & Hlog2 & _ & Hall2); [done..| |].
  { intros s Hs. unfold shapeOf.
    rewrite (pruned_refOf st1 sp1 shapes), decide_True by
      (done || by apply list_elem_of_fmap_2).
    by apply Hlast1. }
  destruct (renderLoop_keys isProduction props doc sp1 shapes st2) as [_ Hkeys];
    [done..|].
  exists st2. split; [|split; [|split]].
  - unfold initDiagramScope, componentDidUpdate.
    unfold bind at 1, modify at 1. fold s0.
    rewrite (bind_Return _ _ s0 tt st1).
    + by rewrite (renderDiagram_reconcile _ _ _ _ doc shapes), Hrec1.
    + by rewrite (renderDiagram_reconcile _ _ _ _ doc shapes), Hrec0.
  - by apply (looping_doc _ _ _ _ Hl2).
  - rewrite Hlog2, Hlog1. unfold callsSince in Hcalls1.
    rewrite Hlog0 in Hcalls1. by rewrite drop_0 in Hcalls1.
  - intros id. split.
    + intros [this Hid]. destruct (Hkeys _ _ Hid) as [?|Hsp]; [done|].
      rewrite HbyId1 in Hsp. by case_decide.
    + intros (s & -> & Hs)%list_elem_of_fmap.
      destruct (looping_attached _ _ _ _ Hl2 s Hs) as (this & _ & Hid & _). eauto.
Qed.

Lemma initDiagramScope_renders_each_shape_once_witness :
  ∃ st',
    initDiagramScope false (demo_props [demo_Y; demo_X1; demo_W]) 1 100 newEditor =
      (Return tt, st') ∧
    diagramDoc st' = Some 100 ∧
    call_shape <$> renderLog st' = [demo_Y; demo_X1; demo_W] ∧
    ∀ id, is_Some (shapeRefsById st' !! id) ↔
          id ∈ shape_id <$> [demo_Y; demo_X1; demo_W].
Proof.
  apply (initDiagramScope_renders_each_shape_once false
           (demo_props [demo_Y; demo_X1; demo_W]) 1 100).
  - reflexivity.
  - simpl. repeat constructor; rewrite ?elem_of_cons, ?elem_of_nil; intuition discriminate.
  - intros s Hs.
    repeat (apply elem_of_cons in Hs as [->|Hs]); try compute_done.
    by apply elem_of_nil in Hs.
  - intros s Hs. exists 7.
    repeat (apply elem_of_cons in Hs as [->|Hs]); try reflexivity.
    by apply elem_of_nil in Hs.
Defined.
(** ** A second pass *)

Lemma set_scene_same st : set_scene (scene st) st = st.
Proof. by destruct st. Qed.

Lemma Forall2_functional {A B} (f : A → option B) (l : list A) (k1 k2 : list B) :
  Forall2 (λ x y, f x = Some y) l k1 →
  Forall2 (λ x y, f x = Some y) l k2 → k1 = k2.
Proof.
  intros H1. revert k2. induction H1 as [|x y l k1 Hxy _ IH]; intros k2 H2.
  - by inversion H2.
  - inversion H2 as [|? y' ? k2' Hxy' H2']; subst. f_equal; [congruence|].
    by apply IH.
Qed.

Section SecondPass.
Context (isProduction : bool) (props : EditorProps) (doc : Doc).

(** When every registered id is among the flattened shapes, the prune loop
    only empties the scene of the elements of the refs. *)
Lemma reconcile_pruned_exact st shapes :
  wf st → diagramDoc st = Some doc →
  (∀ id, is_Some (shapeRefsById st !! id) → id ∈ shape_id <$> shapes) →
  let sp := set_scene (filter (λ p, p.1 ∉ ownedElements st) (scene st)) st in
  reconcile isProduction props doc shapes st =
    forEach (renderShape isProduction props doc) shapes sp ∧
  wf sp ∧ (∀ id e, elementOf sp id = Some e → e ∉ (scene sp).*1).
Proof.
  intros Hwf Hdoc Hlive sp.
  destruct (prune_spec (liveIds shapes) st Hwf)
    as (sp' & Hrun & Hwfp & Hdocp & Hheap & Hnext & Hctx & Hlog & Hscene & HbyId
        & HbyEl & Hdet).
  assert (sp' = sp) as ->.
  { apply Editor_eq; try done.
    - apply map_eq. intros id. rewrite HbyId. cbn.
      destruct (decide (live (liveIds shapes) id)) as [?|Hn]; [done|].
      destruct (shapeRefsById st !! id) eqn:E; [|done].
      exfalso. apply Hn, liveIds_spec, Hlive. by rewrite E.
    - apply map_eq. intros e. rewrite HbyEl. cbn.
      rewrite decide_False; [done|].
      intros (id & Hin & _)%list_elem_of_omap.
      apply list_elem_of_filter in Hin as [Hn Hin]. apply Hn, liveIds_spec, Hlive.
      apply list_elem_of_fmap in Hin as ([id' this] & -> & Hin).
      apply elem_of_map_to_list in Hin. simpl. by rewrite Hin. }
  split; [|done].
  unfold reconcile, bind at 1, gets at 1.
  by rewrite (bind_Return _ _ _ _ _ Hrun).
Qed.

(** When every shape is the last shape of its registered ref, the render
    loop changes the scene only. *)
Lemma renderLoop_only_scene st shapes :
  (∀ s, s ∈ shapes →
     ∃ this ref e,
       shapeRefsById st !! shape_id s = Some this ∧ heap st !! this = Some ref ∧
       ref_shape ref = Some s ∧ renderedElement ref = Some e ∧
       shapeRefsByRenderElement st !! e = Some this) →
  ∀ sc, ∃ sc',
    forEach (renderShape isProduction props doc) shapes (set_scene sc st) =
    (Return tt, set_scene sc' st).
Proof.
  induction shapes as [|x shapes IH]; intros Hall sc.
  - by exists sc.
  - destruct (Hall x) as (this & ref & e & Hid & Href & Hshape & He & Hel); [left|].
    destruct (IH (λ s Hs, Hall s (list_elem_of_further _ _ _ Hs))
                 (filter (λ p, p.1 ≠ e) sc ++ [(e, ref_doc ref)])) as [sc' Hrun].
    exists sc'. simpl.
    erewrite bind_Return; [exact Hrun|].
    rewrite (renderShape_existing isProduction props doc x (set_scene sc st) this
               (reattached this ref e x (set_scene sc st)) (set_shape x ref) e).
    + f_equal. unfold registeredAs, reattached.
      apply Editor_eq; cbn -[set_shape]; try done.
      * by apply insert_id.
      * by apply insert_id.
      * rewrite set_shape_same by done. by apply list_insert_id.
    + done.
    + apply ShapeRef_render_cheap; [done..|].
      apply mustRender_false. exists x, e. done.
    + cbn. apply list_lookup_insert_eq. by eapply lookup_lt_Some.
    + done.
Qed.
End SecondPass.

(** A pass repeated on the same snapshot, with pairwise distinct flattened
    ids, is the identity: after a pass that returned, the same pass returns
    again and leaves the whole state — tables, [ShapeRef]s, scene, renderer
    bindings and invocations — exactly as it was. *)
Theorem renderDiagram_twice_is_once :
  ∀ isProduction props fuel st0 st1 doc shapes,
    wf st0 →
    diagramDoc st0 = Some doc →
    getFlattenShapes fuel (selectedDiagram props) = Some shapes →
    NoDup (shape_id <$> shapes) →
    renderDiagram isProduction props fuel st0 = (Return tt, st1) →
    renderDiagram isProduction props fuel st1 = (Return tt, st1).
Proof.
  intros isProduction props fuel st0 st1 doc shapes Hwf0 Hdoc0 Hflat Hnd Hrun1.
  assert (Hsame : ∀ s t, s ∈ shapes → t ∈ shapes → shape_id s = shape_id t → s = t).
  { intros s t. by apply NoDup_fmap_same. }
  rewrite (renderDiagram_reconcile _ _ _ _ doc shapes) in Hrun1 by done.
  destruct (reconcile_pruned isProduction props st0 doc shapes Hwf0 Hdoc0)
    as (sp0 & Hrec0 & Hwfp0 & Hdocp0 & _ & _ & _ & _ & HbyId0 & _ & Hdet0).
  rewrite Hrec0 in Hrun1.
  destruct (renderLoop_ordered isProduction props doc sp0 shapes st1)
    as [Hl1 (es1 & Hsc1 & Hes1)]; [done..|].
  destruct (renderLoop_lastShape isProduction props doc shapes Hsame sp0 st1)
    as (Hwf1 & Hdoc1 & Hlast1); [done..|].
  destruct (renderLoop_keys isProduction props doc sp0 shapes st1) as [_ Hkeys1];
    [done..|].
  rewrite (renderDiagram_reconcile _ _ _ _ doc shapes) by done.
  destruct (reconcile_pruned_exact isProduction props doc st1 shapes)
    as (-> & Hwfp1 & Hdet1); [done..| |].
  { intros id [this Hid]. destruct (Hkeys1 _ _ Hid) as [?|Hsp]; [done|].
    rewrite HbyId0 in Hsp. by case_decide. }
  set (F1 := filter (λ p, p.1 ∉ ownedElements st1) (scene st1)) in *.
  destruct (renderLoop_only_scene isProduction props doc st1 shapes) with (sc := F1)
    as [sc' Hrun2].
  { intros s Hs.
    destruct (looping_attached _ _ _ _ Hl1 s Hs) as (this & e & Hid & Hel & He & _).
    specialize (Hlast1 s Hs).
    apply shapeOf_Some in Hlast1 as (this' & ref & Hid' & Href & Hshape).
    apply elementOf_Some in He as (this'' & ref' & Hid'' & Href' & He).
    assert (this' = this) by congruence. assert (this'' = this) by congruence.
    subst. assert (ref' = ref) by congruence. subst.
    exists this, ref, e. done. }
  rewrite Hrun2. f_equal.
  rewrite <- (set_scene_same st1) at 2. f_equal.
  destruct (renderLoop_ordered isProduction props doc (set_scene F1 st1) shapes
              (set_scene sc' st1)) as [_ (es2 & Hsc2 & Hes2)]; [done..|].
  cbn in Hsc2. rewrite Hsc2.
  assert (es2 = es1) as ->.
  { eapply (Forall2_functional (λ s, elementOf st1 (shape_id s))); done. }
  rewrite Hsc1. f_equal.
  subst F1. rewrite Hsc1, filter_app.
  rewrite (filter_none _ ((λ e, (e, doc)) <$> es1)), app_nil_r.
  - apply filter_id. intros p Hp (id & Hown)%elem_of_ownedElements.
    destruct (looping_owned _ _ _ _ Hl1 _ _ Hown) as [Hold|Hfresh].
    + apply (Hdet0 _ _ Hold). by apply list_elem_of_fmap_2.
    + apply (wf_scene _ Hwfp0) in Hp. lia.
  - intros p (e & -> & He)%list_elem_of_fmap Hn. apply Hn. simpl.
    apply elem_of_ownedElements.
    apply list_elem_of_lookup in He as [i He].
    destruct (Forall2_lookup_r _ _ _ _ _ Hes1 He) as (s & _ & Hs). eauto.
Qed.

Lemma renderDiagram_twice_is_once_witness :
  renderDiagram false (demo_props [demo_Y; demo_X2; demo_W]) 1
    (demo_pass [demo_Y; demo_X2; demo_W] demo_foreign) =
  (Return tt, demo_pass [demo_Y; demo_X2; demo_W] demo_foreign).
Proof.
  apply (renderDiagram_twice_is_once false (demo_props [demo_Y; demo_X2; demo_W]) 1
           demo_foreign _ 100 [demo_Y; demo_X2; demo_W]).
  - exact wf_demo_foreign.
  - reflexivity.
  - reflexivity.
  - simpl. repeat constructor; rewrite ?elem_of_cons, ?elem_of_nil; intuition discriminate.
  - vm_compute. reflexivity.
Defined.
(** ** Passes that return *)

(** A pass returns whenever each flattened shape has a [ShapeRef] from
    before the pass, or has an id that names no property of
    [Object.prototype] and a renderer in the registry; it then has invoked
    the renderer on flattened shapes only, and every flattened shape is
    registered with its element attached to the document. *)
Theorem renderDiagram_returns_when_renderers_resolve :
  ∀ isProduction props fuel st doc shapes,
    wf st →
    diagramDoc st = Some doc →
    getFlattenShapes fuel (selectedDiagram props) = Some shapes →
    (∀ s, s ∈ shapes →
          is_Some (shapeRefsById st !! shape_id s) ∨
          ((shape_id s ∉ Object_prototype) ∧
           is_Some (rendererService props !! shape_renderer s))) →
    ∃ st',
      renderDiagram isProduction props fuel st = (Return tt, st') ∧
      (∀ c, c ∈ callsSince st st' → call_shape c ∈ shapes) ∧
      (∀ s, s ∈ shapes →
         ∃ e, elementOf st' (shape_id s) = Some e ∧ (e, doc) ∈ scene st').
Proof.
  intros isProduction props fuel st doc shapes Hwf Hdoc Hflat Hok.
  rewrite (renderDiagram_reconcile _ _ _ _ doc shapes) by done.
  destruct (reconcile_pruned isProduction props st doc shapes Hwf Hdoc)
    as (sp & -> & Hwfp & Hdocp & _ & _ & Hlog & _ & HbyId & _ & Hdet).
  destruct (renderLoop_total isProduction props doc sp shapes)
    as (st' & Hrun & Hl); [done..| |].
  { intros s Hs. destruct (Hok s Hs) as [?|?]; [left|by right].
    rewrite HbyId, decide_True; [done|]. by apply list_elem_of_fmap_2. }
  exists st'. split; [done|]. split.
  - intros c Hc. apply (looping_calls _ _ _ _ Hl).
    unfold callsSince in *. by rewrite Hlog.
  - intros s Hs.
    destruct (looping_attached _ _ _ _ Hl s Hs) as (this & e & _ & _ & ? & ?).
    eauto.
Qed.

Lemma renderDiagram_returns_when_renderers_resolve_witness :
  ∃ st',
    renderDiagram false (demo_props [demo_W; demo_X2]) 1
      (demo_pass [demo_Y; demo_Z; demo_W] demo_drawn) = (Return tt, st') ∧
    (∀ c, c ∈ callsSince (demo_pass [demo_Y; demo_Z; demo_W] demo_drawn) st' →
          call_shape c ∈ [demo_W; demo_X2]) ∧
    (∀ s, s ∈ [demo_W; demo_X2] →
       ∃ e, elementOf st' (shape_id s) = Some e ∧ (e, 100) ∈ scene st').
Proof.
  apply (renderDiagram_returns_when_renderers_resolve false
           (demo_props [demo_W; demo_X2]) 1
           (demo_pass [demo_Y; demo_Z; demo_W] demo_drawn) 100).
  - apply (renderDiagram_wf false (demo_props [demo_Y; demo_Z; demo_W]) 1
             demo_drawn (Throw TypeError) _ wf_demo_drawn).
    vm_compute. reflexivity.
  - reflexivity.
  - reflexivity.
  - intros s Hs. right.
    repeat (apply elem_of_cons in Hs as [->|Hs]);
      try (split; [compute_done|by exists 7]).
    by apply elem_of_nil in Hs.
Defined.

(** ** Ids that name inherited properties *)

(** A render loop that throws throws a [TypeError]. *)
Lemma renderLoop_Throw isProduction props doc shapes :
  ∀ sp e st',
    wf sp → diagramDoc sp = Some doc →
    forEach (renderShape isProduction props doc) shapes sp = (Throw e, st') →
    e = TypeError.
Proof.
  induction shapes as [|x shapes IH]; intros sp e st' Hwf Hdoc Hrun; [done|].
  cbn [forEach] in Hrun. unfold bind in Hrun.
  destruct (renderShape_cases isProduction props doc x sp Hwf Hdoc)
    as [(s1 & this & el & Hx & Hstep)|(_ & _ & Hx)]; rewrite Hx in Hrun.
  - eapply (IH s1); [by eapply stepped_wf| |done].
    by rewrite (stepped_doc _ _ _ _ _ _ Hstep).
  - by injection Hrun as <- _.
Qed.

(** A diagram with a flattened shape whose id names a property of
    [Object.prototype] is never drawn: from a state between passes every
    pass throws a [TypeError]; the id is not registered afterwards, and the
    renderer has been invoked on no shape with such an id. *)
Theorem renderDiagram_inherited_id_never_returns :
  ∀ isProduction props fuel st doc shapes s,
    wf st →
    diagramDoc st = Some doc →
    getFlattenShapes fuel (selectedDiagram props) = Some shapes →
    s ∈ shapes →
    shape_id s ∈ Object_prototype →
    ∃ st',
      renderDiagram isProduction props fuel st = (Throw TypeError, st') ∧
      shapeRefsById st' !! shape_id s = None ∧
      ∀ c, c ∈ callsSince st st' → shape_id (call_shape c) ∉ Object_prototype.
Proof.
  intros isProduction props fuel st doc shapes s Hwf Hdoc Hflat Hs Hin.
  rewrite (renderDiagram_reconcile _ _ _ _ doc shapes) by done.
  destruct (reconcile_pruned isProduction props st doc shapes Hwf Hdoc)
    as (sp & -> & Hwfp & Hdocp & _ & _ & Hlog & _ & _ & _ & Hdet).
  destruct (forEach (renderShape isProduction props doc) shapes sp)
    as [r st'] eqn:Hrun.
  assert (Hinv : wf st' ∧ diagramDoc st' = Some doc ∧
                 length (renderLog sp) ≤ length (renderLog st') ∧
                 ∀ c, c ∈ callsSince sp st' →
                      shape_id (call_shape c) ∉ Object_prototype).
  { revert Hrun.
    apply (forEach_any_inv _
      (λ t, wf t ∧ diagramDoc t = Some doc ∧
            length (renderLog sp) ≤ length (renderLog t) ∧
            ∀ c, c ∈ callsSince sp t →
                 shape_id (call_shape c) ∉ Object_prototype)).
    - intros x t r' t' _ (Hw & Hd & Hlen & Hcalls) Hx.
      destruct (renderShape_cases isProduction props doc x t Hw Hd)
        as [(t1 & this & e & Hx' & Hstep)|(_ & _ & Hx')];
        rewrite Hx in Hx'; injection Hx' as -> ->.
      + split; [by eapply stepped_wf|].
        split; [by rewrite (stepped_doc _ _ _ _ _ _ Hstep)|].
        split.
        { pose proof (stepped_log_length _ _ _ _ _ _ Hstep). lia. }
        intros c Hc.
        eapply stepped_callsSince in Hc as [Hc|[-> _]]; [| |done|done].
        * by apply Hcalls.
        * by apply (stepped_plain _ _ _ _ _ _ Hstep).
      + unfold thrownAt. case_decide; [done|].
        split; [by apply wf_alloc|done].
    - split; [done|]. split; [done|]. split; [done|].
      intros c. unfold callsSince. rewrite drop_all. by intros ?%elem_of_nil. }
  destruct Hinv as (Hwf' & Hdoc' & _ & Hcalls).
  assert (Hnone : shapeRefsById st' !! shape_id s = None)
    by by apply (wf_plain _ Hwf').
  destruct r as [[]|e].
  - apply renderLoop_Return in Hrun; [|done..].
    destruct (looping_attached _ _ _ _ Hrun s Hs) as (this & _ & Hid & _).
    congruence.
  - rewrite (renderLoop_Throw _ _ _ _ _ _ _ Hwfp Hdocp Hrun).
    exists st'. split; [done|]. split; [done|].
    intros c Hc. apply Hcalls. unfold callsSince in *. by rewrite Hlog.
Qed.

Lemma renderDiagram_inherited_id_never_returns_witness :
  ∃ st',
    renderDiagram false (demo_props [demo_Y; demo_C; demo_W]) 1 demo_drawn =
      (Throw TypeError, st') ∧
    shapeRefsById st' !! "constructor" = None ∧
    ∀ c, c ∈ callsSince demo_drawn st' →
         shape_id (call_shape c) ∉ Object_prototype.
Proof.
  apply (renderDiagram_inherited_id_never_returns false
           (demo_props [demo_Y; demo_C; demo_W]) 1 demo_drawn 100
           [demo_Y; demo_C; demo_W] demo_C).
  - exact wf_demo_drawn.
  - reflexivity.
  - reflexivity.
  - right. left.
  - compute_done.
Defined.
